(** * Patent scoring comparison: normalisation, scoring and ranking statistics

    A shallow embedding of [scripts/compare-v3-rankings.py] (project ip-port):
    the V2 additive formula, the V3 multiplicative stakeholder formula, the
    executive profile of the new engine, and the two ranking statistics
    [spearman] and [overlap_at_cutoff].

    Numbers.  Python floats and ints are read as real numbers: rounding,
    overflow, infinities and NaN are not modelled.  [spearman] only adds and
    multiplies integers and divides once, so it is embedded over [Z] with an
    exact rational result.

    Exceptions.  A Python exception is a [Raise] in the monad [py]; every
    division and every [math.sqrt] / [math.log] call goes through a checked
    primitive, so that a configuration on which the script would stop with a
    traceback does not receive a score here either.

    Dictionaries.  A patent record is a [gmap string R]; a key bound to
    [None] is identified with an absent key (the loaders bind the four count
    fields to numbers, so [min(cc, cap_cc)] never meets [None], and every
    optional field is read with [patent.get(field)], which does not tell the
    two apart).  Dictionaries
    that the script iterates over are association lists in insertion
    order. *)

From Stdlib Require Import Reals Lra Lia ZArith QArith Sorted.
From stdpp Require Import gmap strings list fin_maps.

Local Open Scope string_scope.
Local Open Scope R_scope.

(** ** Exceptions *)

Inductive exn : Set := ZeroDivisionError | ValueError | IndexError.

Inductive py (A : Type) : Type :=
| Ok (a : A)
| Raise (e : exn).
Arguments Ok {A} a.
Arguments Raise {A} e.

#[global] Instance py_ret : MRet py := fun A a => Ok a.
#[global] Instance py_bind : MBind py := fun A B f m =>
  match m with
  | Ok a => f a
  | Raise e => Raise e
  end.

(** ** Arithmetic primitives *)

(** [x / y] on floats. *)
Definition truediv (x y : R) : py R :=
  if Req_dec_T y 0 then Raise ZeroDivisionError else Ok (x / y).

(** [math.sqrt(x)]. *)
Definition math_sqrt (x : R) : py R :=
  if Rlt_dec x 0 then Raise ValueError else Ok (sqrt x).

(** [math.log(x)]. *)
Definition math_log (x : R) : py R :=
  if Rle_dec x 0 then Raise ValueError else Ok (ln x).

(** [x ** y] for a base [x >= 0] and an exponent [y > 0], the only way the
    script uses it ([0.0 ** y] is [0.0]). *)
Definition float_pow (x y : R) : R :=
  if Req_dec_T x 0 then 0 else Rpower x y.

(** Truth value of [weights.get(field)]: a missing key gives [None], and a
    zero weight is falsy. *)
Definition truthy (w : option R) : bool :=
  match w with
  | Some x => if Req_dec_T x 0 then false else true
  | None => false
  end.

(** ** Dictionaries kept in insertion order *)

Fixpoint dict_set {V : Type} (k : string) (v : V) (d : list (string * V))
  : list (string * V) :=
  match d with
  | [] => [(k, v)]
  | (k', v') :: d' =>
      if decide (k' = k) then (k, v) :: d' else (k', v') :: dict_set k v d'
  end.

Definition dict_values {V : Type} (d : list (string * V)) : list V := d.*2.

Definition sum_R (l : list R) : R := foldr Rplus 0 l.
Definition prod_R (l : list R) : R := foldr Rmult 1 l.

(** ** Old V2 formula *)

Module V2.

Definition v2_normalize_sqrt (value : option R) (max_val : R) : py R :=
  match value with
  | None => Ok 0
  | Some v =>
      if Rle_dec v 0 then Ok 0
      else a ← math_sqrt v; b ← math_sqrt max_val; q ← truediv a b;
           Ok (Rmin 1 q)
  end.

Definition v2_normalize_linear (value : option R) (max_val : R) : py R :=
  match value with
  | None => Ok 0
  | Some v => q ← truediv v max_val; Ok (Rmin 1 q)
  end.

Definition v2_normalize_years (years : option R) : R :=
  match years with
  | None => 0
  | Some y =>
      if Rle_dec y 0 then 0
      else if Rle_dec 15 y then 1
      else float_pow (y / 15) 1.5
  end.

(** Returns Python [None] for [None]: "Signal: not available". *)
Definition v2_normalize_score (value : option R) : option R :=
  match value with
  | None => None
  | Some v => Some (v / 5)
  end.

Definition v2_year_multiplier (years : option R) : R :=
  match years with
  | None => 0
  | Some y =>
      if Rle_dec y 0 then 0
      else if Rle_dec 15 y then 1
      else 0.3 + 0.7 * float_pow (y / 15) 0.8
  end.

Definition V2_PROFILES : list (string * gmap string R) :=
  [ ("aggressive",
     list_to_map
       [ ("competitor_citations", 0.25); ("competitor_count", 0.10);
         ("forward_citations", 0.05); ("years_remaining", 0.05);
         ("eligibility_score", 0.15); ("validity_score", 0.10);
         ("claim_breadth", 0.05); ("enforcement_clarity", 0.10);
         ("market_relevance_score", 0.10); ("ipr_risk_score", 0.025);
         ("prosecution_quality_score", 0.025) ]);
    ("moderate",
     list_to_map
       [ ("competitor_citations", 0.15); ("competitor_count", 0.05);
         ("forward_citations", 0.10); ("years_remaining", 0.05);
         ("eligibility_score", 0.15); ("validity_score", 0.15);
         ("claim_breadth", 0.10); ("enforcement_clarity", 0.10);
         ("market_relevance_score", 0.10); ("ipr_risk_score", 0.025);
         ("prosecution_quality_score", 0.025) ]);
    ("conservative",
     list_to_map
       [ ("competitor_citations", 0.10); ("competitor_count", 0.05);
         ("forward_citations", 0.05); ("years_remaining", 0.05);
         ("eligibility_score", 0.20); ("validity_score", 0.20);
         ("claim_breadth", 0.10); ("enforcement_clarity", 0.10);
         ("market_relevance_score", 0.05); ("ipr_risk_score", 0.05);
         ("prosecution_quality_score", 0.05) ]) ].

Definition V2_ALWAYS_PRESENT : list string :=
  [ "competitor_citations"; "competitor_count"; "forward_citations";
    "years_remaining" ].

(** A Python set; the loop below walks it in the order written here (the
    running sums do not depend on the order, see [optional_loop_perm]). *)
Definition V2_OPTIONAL_FIELDS : list string :=
  [ "eligibility_score"; "validity_score"; "claim_breadth";
    "enforcement_clarity"; "market_relevance_score"; "ipr_risk_score";
    "prosecution_quality_score" ].

(** The two running variables of [v2_base_score]. *)
Record acc : Type := Acc { score : R; weight_sum : R }.

(** [score += w * norm; weight_sum += w]. *)
Definition contribute (w norm : R) (a : acc) : acc :=
  Acc (score a + w * norm) (weight_sum a + w).

(** One of the four [if weights.get(field): ...] blocks. *)
Definition always_present_step (weights : gmap string R) (field : string)
    (norm : py R) (a : acc) : py acc :=
  if truthy (weights !! field)
  then n ← norm; Ok (contribute (default 0 (weights !! field)) n a)
  else Ok a.

(** One round of the loop over [V2_OPTIONAL_FIELDS]. *)
Definition optional_step (patent weights : gmap string R) (a : acc)
    (field : string) : acc :=
  let w := default 0 (weights !! field) in
  if truthy (Some w) then
    match patent !! field with
    | Some raw =>
        match v2_normalize_score (Some raw) with
        | Some norm => contribute w norm a
        | None => a
        end
    | None => a
    end
  else a.

Definition v2_base_score (patent weights : gmap string R)
    (cap_cc : option R) : py R :=
  let cc := default 0 (patent !! "competitor_citations") in
  let cc := match cap_cc with Some cap => Rmin cc cap | None => cc end in
  a ← always_present_step weights "competitor_citations"
        (v2_normalize_sqrt (Some cc) 50) (Acc 0 0);
  a ← always_present_step weights "competitor_count"
        (v2_normalize_linear
           (Some (default 0 (patent !! "competitor_count"))) 10) a;
  a ← always_present_step weights "forward_citations"
        (v2_normalize_sqrt
           (Some (default 0 (patent !! "forward_citations"))) 500) a;
  a ← always_present_step weights "years_remaining"
        (Ok (v2_normalize_years
               (Some (default 0 (patent !! "years_remaining"))))) a;
  let a := foldl (optional_step patent weights) a V2_OPTIONAL_FIELDS in
  if Rlt_dec 0 (weight_sum a)
  then q ← truediv (score a) (weight_sum a); Ok (q * 100)
  else Ok 0.

(** The loop of [compute_old_v2] over [V2_PROFILES.items()]. *)
Fixpoint old_v2_loop (patent : gmap string R) (cap_cc : option R)
    (profiles : list (string * gmap string R)) (scores : list (string * R))
  : py (list (string * R)) :=
  match profiles with
  | [] => Ok scores
  | (name, weights) :: rest =>
      base ← v2_base_score patent weights cap_cc;
      let ym :=
        v2_year_multiplier (Some (default 0 (patent !! "years_remaining"))) in
      old_v2_loop patent cap_cc rest (dict_set name (base * ym) scores)
  end.

Definition compute_old_v2 (patent : gmap string R) (cap_cc : option R)
  : py (list (string * R)) :=
  scores ← old_v2_loop patent cap_cc V2_PROFILES [];
  let scores := dict_set "unified" (sum_R (dict_values scores) / 3) scores in
  let scores :=
    dict_set "year_multiplier"
      (v2_year_multiplier (Some (default 0 (patent !! "years_remaining"))))
      scores in
  Ok scores.

End V2.

(** ** Old V3 stakeholder formula *)

Fixpoint foldlM {A B : Type} (f : A → B → py A) (a : A) (l : list B)
  : py A :=
  match l with
  | [] => Ok a
  | x :: l' => a' ← f a x; foldlM f a' l'
  end.

Module V3.

Record Step : Type := mkStep { threshold : R; value : R }.

Record Tier : Type :=
  mkTier { tier_min : R; tier_max : R; baseValue : R; slope : R }.

(** The [config] dictionaries, by their ["type"] entry.  [max] is optional:
    the code reads it with [config.get("max", 1)] (100 for [log]).  A
    dictionary with another ["type"] is outside this type. *)
Inductive NormalizationSpec : Type :=
| Linear (max : option R)
| Sqrt (max : option R)
| Log (max : option R)
| Stepped (steps : list Step)
| TieredContinuous (tiers : list Tier)
| Score5.

(** [sorted(steps, key=threshold, reverse=True)]: a stable sort, steps of
    equal threshold keep their order. *)
Fixpoint insert_step (s : Step) (l : list Step) : list Step :=
  match l with
  | [] => [s]
  | h :: t =>
      if Rlt_dec (threshold s) (threshold h)
      then h :: insert_step s t
      else s :: h :: t
  end.

Definition sorted_steps (steps : list Step) : list Step :=
  foldr insert_step [] steps.

(** [for step in steps: if v >= step["threshold"]: return step["value"]]. *)
Fixpoint first_step (v : R) (steps : list Step) : R :=
  match steps with
  | [] => 0
  | s :: rest => if Rle_dec (threshold s) v then value s else first_step v rest
  end.

(** The part of the [tiered_continuous] branch after the loop. *)
Definition after_tiers (v : R) (tiers : list Tier) : py R :=
  match last tiers with
  | None => Raise IndexError
  | Some last_tier =>
      if Rle_dec (tier_max last_tier) v
      then Ok (baseValue last_tier + slope last_tier)
      else Ok 0
  end.

(** The loop of the [tiered_continuous] branch over the tiers left to visit;
    [all] is the whole list, for [config["tiers"][-1]]. *)
Fixpoint tier_loop (v : R) (all rest : list Tier) : py R :=
  match rest with
  | [] => after_tiers v all
  | t :: rest' =>
      if Rle_dec (tier_min t) v then
        if Rlt_dec v (tier_max t) then
          progress ← truediv (v - tier_min t) (tier_max t - tier_min t);
          Ok (baseValue t + progress * slope t)
        else tier_loop v all rest'
      else tier_loop v all rest'
  end.

Definition v3_normalize (val : option R) (config : NormalizationSpec)
    (dflt : R) : py R :=
  let v := match val with Some x => x | None => dflt end in
  match config with
  | Linear max =>
      q ← truediv v (default 1 max);
      Ok (Rmin 1 (Rmax 0 q))
  | Sqrt max =>
      a ← math_sqrt (Rmax 0 v);
      b ← math_sqrt (default 1 max);
      q ← truediv a b;
      Ok (Rmin 1 q)
  | Log max =>
      if Rle_dec v 0 then Ok 0
      else
        a ← math_log (v + 1);
        b ← math_log (default 100 max + 1);
        q ← truediv a b;
        Ok (Rmin 1 q)
  | Stepped steps => Ok (first_step v (sorted_steps steps))
  | TieredContinuous tiers => tier_loop v tiers tiers
  | Score5 => Ok (Rmax 0 (Rmin 1 ((v - 1) / 4)))
  end.

Record Metric : Type :=
  mkMetric { field : string; weight : R; normalize : NormalizationSpec;
             metric_default : option R }.

Record Factor : Type :=
  mkFactor { name : string; floor : R; metrics : list Metric }.

Record Profile : Type := mkProfile { id : string; factors : list Factor }.

(** The two running variables of the inner loop. *)
Record wsum : Type := WSum { weighted_sum : R; total_weight : R }.

(** One round of the loop over [factor["metrics"]]. *)
Definition metric_step (patent : gmap string R) (cap_cc : option R)
    (a : wsum) (metric : Metric) : py wsum :=
  let raw := patent !! field metric in
  let raw :=
    if decide (field metric = "competitor_citations") then
      match cap_cc, raw with
      | Some cap, Some r => Some (Rmin r cap)
      | _, _ => raw
      end
    else raw in
  let dflt := default 0 (metric_default metric) in
  normalized ← v3_normalize raw (normalize metric) dflt;
  Ok (WSum (weighted_sum a + weight metric * normalized)
           (total_weight a + weight metric)).

(** The body of the loop over [profile["factors"]], up to the value stored
    in [factor_scores]. *)
Definition factor_score (patent : gmap string R) (cap_cc : option R)
    (factor : Factor) : py R :=
  a ← foldlM (metric_step patent cap_cc) (WSum 0 0) (metrics factor);
  s ← (if Rlt_dec 0 (total_weight a)
       then truediv (weighted_sum a) (total_weight a)
       else Ok 0);
  Ok (Rmax (floor factor) s).

Definition factor_loop (patent : gmap string R) (cap_cc : option R)
    (factor_scores : list (string * R)) (factor : Factor)
  : py (list (string * R)) :=
  s ← factor_score patent cap_cc factor;
  Ok (dict_set (name factor) s factor_scores).

(** Returns [(final, factor_scores)]. *)
Definition compute_v3_profile_score (patent : gmap string R)
    (profile : Profile) (cap_cc : option R) : py (R * list (string * R)) :=
  factor_scores ← foldlM (factor_loop patent cap_cc) [] (factors profile);
  let final := foldl Rmult 1 (dict_values factor_scores) in
  Ok (final * 100, factor_scores).

(** *** The catalog *)

Definition CITATIONS_AGGRESSIVE : NormalizationSpec :=
  TieredContinuous
    [ mkTier 0 1 0.005 0.145;
      mkTier 1 3 0.15 0.35;
      mkTier 3 8 0.50 0.25;
      mkTier 8 20 0.75 0.18;
      mkTier 20 100 0.93 0.07 ].

Definition CITATIONS_STANDARD : NormalizationSpec :=
  TieredContinuous
    [ mkTier 0 1 0.01 0.14;
      mkTier 1 3 0.15 0.30;
      mkTier 3 8 0.45 0.25;
      mkTier 8 20 0.70 0.20;
      mkTier 20 100 0.90 0.10 ].

Definition YEARS_LITIGATION : NormalizationSpec :=
  Stepped
    [ mkStep 10 1.00; mkStep 7 0.85; mkStep 5 0.60; mkStep 4 0.40;
      mkStep 3 0.25; mkStep 0 0.10 ].

Definition SCORE5 : NormalizationSpec := Score5.

(** A metric entry without a ["default"] key. *)
Definition metric (f : string) (w : R) (n : NormalizationSpec) : Metric :=
  mkMetric f w n None.

(** A metric entry with a ["default"] key. *)
Definition metric_d (f : string) (w : R) (n : NormalizationSpec) (d : R)
  : Metric :=
  mkMetric f w n (Some d).

(** The third Factor of [ip-lit-aggressive]. *)
Definition CollectionYield : Factor :=
  mkFactor "CollectionYield" 0.20
    [ metric_d "enforcement_clarity" 0.40 SCORE5 3.0;
      metric_d "design_around_difficulty" 0.35 SCORE5 3.0;
      metric_d "ipr_risk_score" 0.25 SCORE5 4.0 ].

Definition ip_lit_aggressive : Profile :=
  mkProfile "ip-lit-aggressive"
    [ mkFactor "MarketOpportunity" 0.02
        [ metric "competitor_citations" 0.60 CITATIONS_AGGRESSIVE;
          metric "competitor_count" 0.20 (Sqrt (Some 10));
          metric "forward_citations" 0.08 (Sqrt (Some 400));
          metric_d "market_relevance_score" 0.12 SCORE5 3.2 ];
      mkFactor "LegalMerit" 0.15
        [ metric_d "eligibility_score" 0.35 SCORE5 3.0;
          metric_d "validity_score" 0.35 SCORE5 3.0;
          metric_d "claim_breadth" 0.15 SCORE5 3.0;
          metric_d "prosecution_quality_score" 0.15 SCORE5 3.0 ];
      CollectionYield;
      mkFactor "Timeline" 0.12
        [ metric "years_remaining" 1.0 YEARS_LITIGATION ] ].

Definition ip_lit_balanced : Profile :=
  mkProfile "ip-lit-balanced"
    [ mkFactor "MarketEvidence" 0.012
        [ metric "competitor_citations" 0.75 CITATIONS_AGGRESSIVE;
          metric "competitor_count" 0.15 (Linear (Some 8));
          metric_d "market_relevance_score" 0.10 SCORE5 3.0 ];
      mkFactor "LegalStrength" 0.17
        [ metric_d "eligibility_score" 0.30 SCORE5 3.0;
          metric_d "validity_score" 0.30 SCORE5 3.0;
          metric_d "claim_breadth" 0.20 SCORE5 3.0;
          metric_d "prosecution_quality_score" 0.20 SCORE5 3.0 ];
      mkFactor "EnforcementViability" 0.25
        [ metric_d "enforcement_clarity" 0.35 SCORE5 3.0;
          metric_d "design_around_difficulty" 0.30 SCORE5 3.0;
          metric_d "ipr_risk_score" 0.35 SCORE5 4.0 ];
      mkFactor "TimelineValue" 0.15
        [ metric "years_remaining" 1.0 YEARS_LITIGATION ] ].

Definition ip_lit_conservative : Profile :=
  mkProfile "ip-lit-conservative"
    [ mkFactor "LegalFoundation" 0.30
        [ metric_d "eligibility_score" 0.30 SCORE5 2.8;
          metric_d "validity_score" 0.30 SCORE5 2.8;
          metric_d "prosecution_quality_score" 0.25 SCORE5 2.8;
          metric_d "claim_breadth" 0.15 SCORE5 3.0 ];
      mkFactor "MarketValidation" 0.05
        [ metric "competitor_citations" 0.65 CITATIONS_STANDARD;
          metric "competitor_count" 0.20 (Linear (Some 8));
          metric "forward_citations" 0.15 (Sqrt (Some 300)) ];
      mkFactor "RiskMitigation" 0.35
        [ metric_d "ipr_risk_score" 0.40 SCORE5 3.5;
          metric_d "enforcement_clarity" 0.35 SCORE5 3.0;
          metric_d "design_around_difficulty" 0.25 SCORE5 3.0 ];
      mkFactor "TimelineMargin" 0.20
        [ metric "years_remaining" 1.0
            (Stepped
               [ mkStep 12 1.00; mkStep 9 0.85; mkStep 7 0.65;
                 mkStep 5 0.40; mkStep 3 0.20; mkStep 0 0.10 ]) ] ].

Definition licensing : Profile :=
  mkProfile "licensing"
    [ mkFactor "LicenseePool" 0.05
        [ metric "competitor_citations" 0.45 CITATIONS_STANDARD;
          metric "competitor_count" 0.30 (Sqrt (Some 10));
          metric "forward_citations" 0.25 (Sqrt (Some 400)) ];
      mkFactor "NegotiationLeverage" 0.20
        [ metric_d "claim_breadth" 0.30 SCORE5 3.0;
          metric_d "design_around_difficulty" 0.30 SCORE5 3.0;
          metric_d "enforcement_clarity" 0.25 SCORE5 3.0;
          metric_d "ipr_risk_score" 0.15 SCORE5 4.0 ];
      mkFactor "Credibility" 0.20
        [ metric_d "eligibility_score" 0.40 SCORE5 3.0;
          metric_d "validity_score" 0.40 SCORE5 3.0;
          metric_d "prosecution_quality_score" 0.20 SCORE5 3.0 ];
      mkFactor "TermValue" 0.20
        [ metric "years_remaining" 1.0
            (Stepped
               [ mkStep 8 1.00; mkStep 5 0.80; mkStep 3 0.55;
                 mkStep 0 0.25 ]) ] ].

Definition corporate_ma : Profile :=
  mkProfile "corporate-ma"
    [ mkFactor "StrategicValue" 0.03
        [ metric "competitor_citations" 0.55 CITATIONS_AGGRESSIVE;
          metric "forward_citations" 0.25 (Sqrt (Some 500));
          metric "competitor_count" 0.20 (Linear (Some 10)) ];
      mkFactor "DefensiveStrength" 0.20
        [ metric_d "claim_breadth" 0.35 SCORE5 3.0;
          metric_d "design_around_difficulty" 0.35 SCORE5 3.0;
          metric_d "market_relevance_score" 0.30 SCORE5 3.0 ];
      mkFactor "AssetQuality" 0.25
        [ metric_d "eligibility_score" 0.30 SCORE5 3.0;
          metric_d "validity_score" 0.30 SCORE5 3.0;
          metric_d "prosecution_quality_score" 0.20 SCORE5 3.0;
          metric_d "ipr_risk_score" 0.20 SCORE5 4.0 ];
      mkFactor "LifecycleValue" 0.15
        [ metric "years_remaining" 1.0
            (Stepped
               [ mkStep 10 1.00; mkStep 7 0.80; mkStep 5 0.60;
                 mkStep 3 0.35; mkStep 0 0.15 ]) ] ].

Definition executive : Profile :=
  mkProfile "executive"
    [ mkFactor "MarketPosition" 0.02
        [ metric "competitor_citations" 0.65 CITATIONS_AGGRESSIVE;
          metric "forward_citations" 0.20 (Sqrt (Some 500));
          metric_d "market_relevance_score" 0.15 SCORE5 3.0 ];
      mkFactor "PortfolioQuality" 0.22
        [ metric_d "eligibility_score" 0.25 SCORE5 3.0;
          metric_d "validity_score" 0.25 SCORE5 3.0;
          metric_d "claim_breadth" 0.25 SCORE5 3.0;
          metric_d "prosecution_quality_score" 0.25 SCORE5 3.0 ];
      mkFactor "MonetizationPotential" 0.20
        [ metric "competitor_count" 0.35 (Sqrt (Some 10));
          metric_d "enforcement_clarity" 0.35 SCORE5 3.0;
          metric_d "design_around_difficulty" 0.30 SCORE5 3.0 ];
      mkFactor "AssetLongevity" 0.18
        [ metric "years_remaining" 1.0
            (Stepped
               [ mkStep 10 1.00; mkStep 7 0.80; mkStep 5 0.55;
                 mkStep 3 0.30; mkStep 0 0.12 ]) ] ].

Definition V3_PROFILES : list Profile :=
  [ ip_lit_aggressive; ip_lit_balanced; ip_lit_conservative; licensing;
    corporate_ma; executive ].

End V3.

(** ** New engine formula (executive profile) *)

(** A value read from the JSON caches: a number (a bool counts as one in
    Python and is read as 0 or 1), [None], or anything else. *)
Inductive pyval : Type :=
| PNum (x : R)
| PNone
| POther.

Module NewEngine.

Section WithRound.

(** Python's builtin [round(x, ndigits)]. *)
Variable round : R → Z → R.

(** The [weights] literal.  Only its twelve keys are ever looked up, so
    [weights[k]] never raises. *)
Definition weights : gmap string R :=
  list_to_map
    [ ("competitor_citations", 0.25); ("forward_citations", 0.13);
      ("years_remaining", 0.17); ("competitor_count", 0.08);
      ("eligibility_score", 0.05); ("validity_score", 0.05);
      ("claim_breadth", 0.04); ("enforcement_clarity", 0.04);
      ("design_around_difficulty", 0.04);
      ("market_relevance_score", 0.05);
      ("ipr_risk_score", 0.05);
      ("prosecution_quality_score", 0.05) ].

Definition weight_of (k : string) : R := default 0 (weights !! k).

(** [metrics] and [available_weight]. *)
Record state : Type :=
  State { metrics : list (string * R); available_weight : R }.

(** [isinstance(v, (int, float)) and 1 <= v <= 5]. *)
Definition rated (v : pyval) : option R :=
  match v with
  | PNum x =>
      if Rle_dec 1 x then if Rle_dec x 5 then Some x else None else None
  | _ => None
  end.

(** [metrics[field] = max(0, (v - 1) / 4.0);
     available_weight += weights[field]], under its guard. *)
Definition sparse_step (field : string) (v : pyval) (st : state) : state :=
  match rated v with
  | Some x =>
      State (dict_set field (Rmax 0 ((x - 1) / 4)) (metrics st))
            (available_weight st + weight_of field)
  | None => st
  end.

Definition LLM_FIELDS : list string :=
  [ "eligibility_score"; "validity_score"; "claim_breadth";
    "enforcement_clarity"; "design_around_difficulty" ].

(** [if llm: for field in [...]: v = llm.get(field, 0); ...]. *)
Definition llm_loop (llm : option (gmap string pyval)) (st : state) : state :=
  match llm with
  | None => st
  | Some d =>
      if decide (size d = 0%nat) then st
      else foldl (fun st field =>
                    sparse_step field (default (PNum 0) (d !! field)) st)
                 st LLM_FIELDS
  end.

(** [classification.get(key, 0) if classification else 0]. *)
Definition classification_get (classification : option (gmap string R))
    (key : string) : R :=
  match classification with
  | Some c => default 0 (c !! key)
  | None => 0
  end.

Definition compute_new_executive (candidate : gmap string R)
    (classification : option (gmap string R))
    (llm : option (gmap string pyval)) (cap_cc : option R)
    (ipr_score prosecution_score market_relevance : pyval) : py R :=
  let cc := classification_get classification "competitor_citations" in
  let cc := match cap_cc with Some cap => Rmin cc cap | None => cc end in
  let fc := default 0 (candidate !! "forward_citations") in
  let years := default 0 (candidate !! "remaining_years") in
  let count := classification_get classification "competitor_count" in
  let cc_norm := Rmin 1 (cc / 20) in
  root ← math_sqrt fc;
  let fc_norm := Rmin 1 (root / 30) in
  let years_norm := Rmin 1 (years / 15) in
  let count_norm := Rmin 1 (count / 5) in
  let metrics0 :=
    [ ("competitor_citations", cc_norm); ("years_remaining", years_norm);
      ("forward_citations", fc_norm); ("competitor_count", count_norm) ] in
  let st := State metrics0 (sum_R (weight_of <$> metrics0.*1)) in
  let st := llm_loop llm st in
  let st := sparse_step "market_relevance_score" market_relevance st in
  let st := sparse_step "ipr_risk_score" ipr_score st in
  let st := sparse_step "prosecution_quality_score" prosecution_score st in
  let renorm :=
    if Rlt_dec 0 (available_weight st) then 1 / available_weight st else 1 in
  let base :=
    sum_R ((fun kv => kv.2 * weight_of kv.1) <$> metrics st) * renorm in
  let years_factor := Rmin 1 (Rmax 0 years / 15) in
  let year_mult := 0.3 + 0.7 * float_pow years_factor 0.8 in
  Ok (round (base * year_mult * 100) 2).

End WithRound.

End NewEngine.

(** ** Analysis helpers *)

Module Ranking.

Definition sum_Z (l : list Z) : Z := foldr Z.add 0%Z l.

(** Rank positions are integers; the one division is exact in [Q].  For
    [n >= 2] the divisor [n * (n ** 2 - 1)] is positive. *)
Definition spearman (ranks_a ranks_b : list Z) : Q :=
  let n := Z.of_nat (length ranks_a) in
  if (n <? 2)%Z then 0%Q
  else
    let d_sq :=
      sum_Z ((fun ab => (ab.1 - ab.2) ^ 2)%Z <$> zip ranks_a ranks_b) in
    (1 - inject_Z (6 * d_sq) / inject_Z (n * (n ^ 2 - 1)))%Q.

(** [cutoff] is a count: every call passes [min(c, len(...))] for a positive
    constant [c], and [list[:cutoff]] is then the first [cutoff] entries. *)
Definition overlap_at_cutoff (list_a list_b : list string) (cutoff : nat)
  : nat * nat :=
  let set_a : gset string := list_to_set (take cutoff list_a) in
  let set_b : gset string := list_to_set (take cutoff list_b) in
  let overlap := set_a ∩ set_b in
  (size overlap, cutoff).

End Ranking.

(** * Reference definitions, in the words of the specification *)

(** ** Additive evaluation *)

Module Additive.

Import V2.

Definition weight_of (weights : gmap string R) (f : string) : R :=
  default 0 (weights !! f).

(** The raw value of an always-present metric: 0 when the key is missing,
    and the competitor-citation count capped when a cap is given. *)
Definition raw_of (patent : gmap string R) (cap_cc : option R) (f : string)
  : R :=
  let r := default 0 (patent !! f) in
  if decide (f = "competitor_citations")
  then match cap_cc with Some cap => Rmin r cap | None => r end
  else r.

Definition sqrt_norm (v max_val : R) : R :=
  if Rle_dec v 0 then 0 else Rmin 1 (sqrt v / sqrt max_val).

(** The normalised value of each always-present metric. *)
Definition normalized (f : string) (raw : R) : R :=
  if decide (f = "competitor_citations") then sqrt_norm raw 50
  else if decide (f = "competitor_count") then Rmin 1 (raw / 10)
  else if decide (f = "forward_citations") then sqrt_norm raw 500
  else v2_normalize_years (Some raw).

(** (weight, normalised value) of the metrics that contribute: the four
    always-present ones unconditionally, an optional one only when its raw
    value is present. *)
Definition always_present_contributions (patent weights : gmap string R)
    (cap_cc : option R) : list (R * R) :=
  (fun f => (weight_of weights f, normalized f (raw_of patent cap_cc f)))
    <$> V2_ALWAYS_PRESENT.

Definition optional_contributions (patent weights : gmap string R)
  : list (R * R) :=
  omap (fun f => raw ← patent !! f; Some (weight_of weights f, raw / 5))
       V2_OPTIONAL_FIELDS.

Definition contributions (patent weights : gmap string R)
    (cap_cc : option R) : list (R * R) :=
  always_present_contributions patent weights cap_cc
    ++ optional_contributions patent weights.

Definition contributed_weight (cs : list (R * R)) : R := sum_R cs.*1.

Definition contributed_score (cs : list (R * R)) : R :=
  sum_R ((fun c => c.1 * c.2) <$> cs).

(** 100 * (sum of contributions) / (sum of contributed weights), or 0. *)
Definition evaluate_additive (patent weights : gmap string R)
    (cap_cc : option R) : R :=
  let cs := contributions patent weights cap_cc in
  if Rlt_dec 0 (contributed_weight cs)
  then 100 * contributed_score cs / contributed_weight cs
  else 0.

End Additive.

(** ** Well-formed normalisation configurations *)

Module Config.

Import V3.

Definition unit_interval (x : R) : Prop := 0 <= x <= 1.

(** The maxima are positive, every step value lies in [0,1], and there is at
    least one tier, each tier starting and ending at a value in [0,1]. *)
Definition wf_spec (config : NormalizationSpec) : Prop :=
  match config with
  | Linear max | Sqrt max => 0 < default 1 max
  | Log max => 0 < default 100 max
  | Stepped steps => Forall (fun s => unit_interval (value s)) steps
  | TieredContinuous tiers =>
      tiers ≠ []
      ∧ Forall (fun t => unit_interval (baseValue t)
                         ∧ unit_interval (baseValue t + slope t)) tiers
  | Score5 => True
  end.

End Config.

(** ** Multiplicative evaluation *)

Module Multiplicative.

Import V3.

(** The raw value of a metric, the competitor-citation count capped when a
    cap is given. *)
Definition raw_input (patent : gmap string R) (cap_cc : option R)
    (m : Metric) : option R :=
  let raw := patent !! field m in
  if decide (field m = "competitor_citations") then
    match cap_cc, raw with
    | Some cap, Some r => Some (Rmin r cap)
    | _, _ => raw
    end
  else raw.

(** The normalised value of a metric, its configured default (0 when none is
    configured) standing in for an absent raw value. *)
Definition normalized_value (patent : gmap string R) (cap_cc : option R)
    (m : Metric) : py R :=
  v3_normalize (raw_input patent cap_cc m) (normalize m)
    (default 0 (metric_default m)).

(** Weighted average; 0 when the weights do not sum to a positive number. *)
Definition weighted_average (ws xs : list R) : R :=
  if Rlt_dec 0 (sum_R ws)
  then sum_R (zip_with Rmult ws xs) / sum_R ws
  else 0.

(** The weighted average of the normalised values, floored at the Factor's
    minimum. *)
Definition evaluate_factor (patent : gmap string R) (cap_cc : option R)
    (f : Factor) : py R :=
  norms ← mapM (normalized_value patent cap_cc) (metrics f);
  Ok (Rmax (floor f) (weighted_average (weight <$> metrics f) norms)).

(** A dictionary filled from a list of entries, a later entry replacing an
    earlier one with the same key. *)
Definition dict_of_list {V : Type} (kvs : list (string * V))
  : list (string * V) :=
  foldl (fun d kv => dict_set kv.1 kv.2 d) [] kvs.

(** The same computation when every raw value of the Factor is absent. *)
Definition evaluate_defaults (f : Factor) : py R :=
  norms ← mapM (fun m => v3_normalize None (normalize m)
                           (default 0 (metric_default m))) (metrics f);
  Ok (Rmax (floor f) (weighted_average (weight <$> metrics f) norms)).

End Multiplicative.

(** ** Monotone normalisation configurations *)

Module Monotone.

Import V3.

(** Steps listed by strictly descending threshold with descending,
    non-negative values. *)
Fixpoint staircase (steps : list Step) : Prop :=
  match steps with
  | [] => True
  | s :: rest =>
      0 <= value s
      ∧ Forall (fun s' => threshold s' < threshold s ∧ value s' <= value s)
          rest
      ∧ staircase rest
  end.

(** Tiers that follow one another without a gap, each rising, and each
    starting no lower than the one before it ends. *)
Fixpoint chained (tiers : list Tier) : Prop :=
  match tiers with
  | [] => True
  | t :: rest =>
      tier_min t < tier_max t
      ∧ 0 <= slope t
      ∧ match rest with
        | [] => True
        | t' :: _ =>
            tier_min t' = tier_max t ∧ baseValue t + slope t <= baseValue t'
        end
      ∧ chained rest
  end.

Definition monotone_spec (config : NormalizationSpec) : Prop :=
  match config with
  | Linear max | Sqrt max => 0 < default 1 max
  | Log max => 0 < default 100 max
  | Stepped steps => staircase steps
  | TieredContinuous tiers =>
      match tiers with
      | [] => False
      | t :: _ => 0 <= baseValue t ∧ chained tiers
      end
  | Score5 => True
  end.

(** Non-negative floors and weights, monotone normalisations. *)
Definition monotone_profile (profile : Profile) : Prop :=
  Forall (fun f =>
            0 <= floor f
            ∧ Forall (fun m => 0 <= weight m ∧ monotone_spec (normalize m))
                (metrics f))
         (factors profile).

(** Every input of [p2] is present exactly when it is in [p1], and is then
    no greater. *)
Definition inputs_le (p2 p1 : gmap string R) : Prop :=
  ∀ k, option_Forall2 Rle (p2 !! k) (p1 !! k).

(** Two dictionaries with the same keys in the same order, the values of
    the first non-negative and no greater than those of the second. *)
Definition dict_le (d2 d1 : list (string * R)) : Prop :=
  Forall2 (fun a b => a.1 = b.1 ∧ 0 <= a.2 <= b.2) d2 d1.

End Monotone.

(** ** Ratings *)

(** A supplied value that is not a number in the closed interval [1, 5]. *)
Definition not_rating (v : pyval) : Prop :=
  match v with
  | PNum x => ¬ (1 <= x <= 5)
  | PNone | POther => True
  end.

(** ** Rank vectors *)

(** The rank positions [first], [first + 1], ..., [first + n - 1]. *)
Definition consecutive_ranks (first : Z) (n : nat) : list Z :=
  (fun i => first + Z.of_nat i)%Z <$> seq 0 n.

(** ** States of the new engine *)

Module NewEngineInvariant.

Import NewEngine.

(** Every normalised metric lies in [0,1], and [available_weight] is
    positive and covers the weights of the metrics present. *)
Definition bounded_state (st : state) : Prop :=
  Forall (fun kv : string * R => 0 <= kv.2 <= 1) (metrics st)
  ∧ 0 < available_weight st
  ∧ sum_R (weight_of <$> (metrics st).*1) <= available_weight st.

End NewEngineInvariant.

(** ** Old V3 consensus *)

Module OldV3.

Import V3.

(** One round of the loop of [compute_old_v3] over [V3_PROFILES]. *)
Definition profile_loop (patent : gmap string R) (cap_cc : option R)
    (profile_scores : list (string * R)) (profile : Profile)
  : py (list (string * R)) :=
  r ← compute_v3_profile_score patent profile cap_cc;
  Ok (dict_set (id profile) r.1 profile_scores).

Definition compute_old_v3 (patent : gmap string R) (cap_cc : option R)
  : py (list (string * R)) :=
  profile_scores ← foldlM (profile_loop patent cap_cc) [] V3_PROFILES;
  consensus ← truediv (sum_R (dict_values profile_scores))
                      (INR (length V3_PROFILES));
  Ok (dict_set "consensus" consensus profile_scores).

End OldV3.

(** ** Profiles with scores in range *)

Module Bounded.

Import V3 Config.

(** A floor in [0,1], non-negative weights and well-formed normalisation
    configurations. *)
Definition bounded_factor (f : Factor) : Prop :=
  0 <= floor f <= 1
  ∧ Forall (fun m => 0 <= weight m ∧ wf_spec (normalize m)) (metrics f).

Definition bounded_profile (profile : Profile) : Prop :=
  Forall bounded_factor (factors profile).

(** The competitor-citation metrics of the profile are normalised by one of
    the two citation tier tables, which end at 100 citations. *)
Definition citation_tiers (profile : Profile) : Prop :=
  Forall (fun f =>
            Forall (fun m =>
                      field m = "competitor_citations" →
                      normalize m = CITATIONS_AGGRESSIVE
                      ∨ normalize m = CITATIONS_STANDARD)
                   (metrics f))
         (factors profile).

End Bounded.

(** ** Score distributions *)

Module Report.

(** The numbers [print_distribution] prints: the size of the slice, ["Max"],
    ["P10"] and ["P50"] when they are printed, ["Min"] and ["Avg"]. *)
Record Distribution : Type :=
  mkDistribution { shown : nat; d_max : R; d_p10 : option R;
                   d_p50 : option R; d_min : R; d_avg : R }.

(** [None] when the function returns before printing ([if not top]).  The
    slice is not empty where [top[0]], [top[-1]] and the average are taken,
    and the two positional entries are read under their length guards, so
    nothing raises. *)
Definition print_distribution (scores : list R) (n : nat)
  : option Distribution :=
  let top := take n scores in
  match top with
  | [] => None
  | first :: _ =>
      Some (mkDistribution
              (Nat.min n (length top))
              first
              (if decide (50 <= length top)%nat then top !! 49%nat else None)
              (if decide (250 <= length top)%nat then top !! 249%nat else None)
              (default first (last top))
              (sum_R top / INR (length top)))
  end.

End Report.

(** ** Retention at a cutoff *)

Module Retention.

Import Ranking.

(** The three lines that [main] repeats for every pair of rankings and every
    cutoff: [actual = min(cutoff, len(list_a))], the overlap at [actual], and
    [pct = n_overlap / actual * 100 if actual > 0 else 0].  The result is
    [(n_overlap, actual, pct)], the numbers of the printed line. *)
Definition retention (list_a list_b : list string) (cutoff : nat)
  : nat * nat * R :=
  let actual := Nat.min cutoff (length list_a) in
  let n_overlap := (overlap_at_cutoff list_a list_b actual).1 in
  let pct :=
    if decide (0 < actual)%nat then INR n_overlap / INR actual * 100 else 0 in
  (n_overlap, actual, pct).

End Retention.

(** ** The step at which the stepped loop returns *)

Module SteppedChoice.

Import V3.

(** The step at which the loop of the [stepped] branch returns, [None] when
    it runs to its end; [first_step] is the value of that step. *)
Fixpoint chosen_step (v : R) (steps : list Step) : option Step :=
  match steps with
  | [] => None
  | s :: rest => if Rle_dec (threshold s) v then Some s else chosen_step v rest
  end.

End SteppedChoice.

(** * Properties *)

Import V2 V3.

(** ** The checked primitives *)

Lemma bind_Ok {A B : Type} (a : A) (f : A → py B) : (Ok a ≫= f) = f a.
Proof. reflexivity. Qed.

Lemma truediv_Ok (x y : R) : y ≠ 0 → truediv x y = Ok (x / y).
Proof. intros Hy. unfold truediv. destruct (Req_dec_T y 0); [done | reflexivity]. Qed.

Lemma math_sqrt_Ok (x : R) : 0 <= x → math_sqrt x = Ok (sqrt x).
Proof. intros Hx. unfold math_sqrt. destruct (Rlt_dec x 0); [lra | reflexivity]. Qed.

Lemma math_log_Ok (x : R) : 0 < x → math_log x = Ok (ln x).
Proof. intros Hx. unfold math_log. destruct (Rle_dec x 0); [lra | reflexivity]. Qed.

Lemma sqrt_pos_ne (x : R) : 0 < x → sqrt x ≠ 0.
Proof. intros Hx. pose proof (sqrt_lt_R0 x Hx). lra. Qed.

Lemma Rpower_base_1 (c : R) : Rpower 1 c = 1.
Proof. unfold Rpower. rewrite ln_1, Rmult_0_r. apply exp_0. Qed.

Lemma float_pow_pos (x y : R) : 0 < x → float_pow x y = Rpower x y.
Proof. intros Hx. unfold float_pow. destruct (Req_dec_T x 0); [lra | reflexivity]. Qed.

Lemma float_pow_unit (x y : R) : 0 <= y → 0 <= x <= 1 → 0 <= float_pow x y <= 1.
Proof.
  intros Hy [Hx0 Hx1]. unfold float_pow.
  destruct (Req_dec_T x 0) as [_ | Hne]; [lra |].
  split.
  - left. apply exp_pos.
  - rewrite <- (Rpower_base_1 y). apply Rle_Rpower_l; lra.
Qed.

Lemma float_pow_mono (x1 x2 y : R) :
  0 <= y → 0 <= x1 <= x2 → float_pow x1 y <= float_pow x2 y.
Proof.
  intros Hy [H0 H12]. unfold float_pow.
  destruct (Req_dec_T x1 0) as [E1 | N1], (Req_dec_T x2 0) as [E2 | N2];
    try lra.
  - left. apply exp_pos.
  - apply Rle_Rpower_l; lra.
Qed.

(** ** Year multiplier *)

Lemma year_multiplier_range (y : R) :
  0 < y → 0.3 <= v2_year_multiplier (Some y) <= 1.
Proof.
  intros Hy. unfold v2_year_multiplier.
  destruct (Rle_dec y 0); [lra |].
  destruct (Rle_dec 15 y); [lra |].
  assert (0 <= float_pow (y / 15) 0.8 <= 1) by (apply float_pow_unit; lra).
  lra.
Qed.

Lemma year_multiplier_mono (y1 y2 : R) :
  y1 <= y2 → v2_year_multiplier (Some y1) <= v2_year_multiplier (Some y2).
Proof.
  intros H12.
  destruct (Rle_dec y1 0) as [Hn | Hp].
  - replace (v2_year_multiplier (Some y1)) with 0
      by (unfold v2_year_multiplier; destruct (Rle_dec y1 0); [reflexivity | lra]).
    unfold v2_year_multiplier.
    destruct (Rle_dec y2 0); [lra |]. destruct (Rle_dec 15 y2); [lra |].
    assert (0 <= float_pow (y2 / 15) 0.8 <= 1) by (apply float_pow_unit; lra).
    lra.
  - pose proof (year_multiplier_range y1 ltac:(lra)) as Hr.
    unfold v2_year_multiplier in *.
    destruct (Rle_dec y1 0); [lra |]. destruct (Rle_dec y2 0); [lra |].
    destruct (Rle_dec 15 y1), (Rle_dec 15 y2); try lra.
    assert (float_pow (y1 / 15) 0.8 <= float_pow (y2 / 15) 0.8)
      by (apply float_pow_mono; lra).
    lra.
Qed.

(** ** Additive base score *)

Import Additive.

Lemma v2_normalize_sqrt_Ok (v m : R) :
  0 < m → v2_normalize_sqrt (Some v) m = Ok (sqrt_norm v m).
Proof.
  intros Hm. unfold v2_normalize_sqrt, sqrt_norm.
  destruct (Rle_dec v 0) as [_ | Hv]; [reflexivity |].
  rewrite (math_sqrt_Ok v), bind_Ok by lra.
  rewrite (math_sqrt_Ok m), bind_Ok by lra.
  rewrite truediv_Ok by (apply sqrt_pos_ne; lra).
  reflexivity.
Qed.

Lemma v2_normalize_linear_Ok (v m : R) :
  m ≠ 0 → v2_normalize_linear (Some v) m = Ok (Rmin 1 (v / m)).
Proof.
  intros Hm. unfold v2_normalize_linear. by rewrite truediv_Ok.
Qed.

Lemma acc_eq (a b : acc) :
  score a = score b → weight_sum a = weight_sum b → a = b.
Proof. destruct a, b; simpl; intros -> ->; reflexivity. Qed.

Lemma always_present_step_Ok (weights : gmap string R) (f : string)
    (n : R) (a : acc) :
  always_present_step weights f (Ok n) a
  = Ok (contribute (weight_of weights f) n a).
Proof.
  unfold always_present_step, weight_of, truthy.
  destruct (weights !! f) as [w |] eqn:E; simpl.
  - destruct (Req_dec_T w 0) as [-> | _]; [| reflexivity].
    f_equal. apply acc_eq; simpl; lra.
  - f_equal. apply acc_eq; simpl; lra.
Qed.

Lemma optional_step_spec (patent weights : gmap string R) (a : acc)
    (f : string) :
  optional_step patent weights a f
  = match patent !! f with
    | Some raw => contribute (weight_of weights f) (raw / 5) a
    | None => a
    end.
Proof.
  unfold optional_step, weight_of, truthy, v2_normalize_score.
  destruct (Req_dec_T (default 0 (weights !! f)) 0) as [E | _];
    destruct (patent !! f); try reflexivity.
  rewrite E. apply acc_eq; simpl; lra.
Qed.

Lemma foldl_contribute (cs : list (R * R)) (a : acc) :
  foldl (fun a c => contribute c.1 c.2 a) a cs
  = Acc (score a + contributed_score cs) (weight_sum a + contributed_weight cs).
Proof.
  revert a. induction cs as [| [w n] cs IH]; intros a; simpl.
  - apply acc_eq; simpl; unfold contributed_score, contributed_weight; simpl; lra.
  - rewrite IH. unfold contributed_score, contributed_weight. csimpl.
    apply acc_eq; simpl; lra.
Qed.

Lemma optional_loop_spec (patent weights : gmap string R) (fields : list string)
    (a : acc) :
  foldl (optional_step patent weights) a fields
  = foldl (fun a c => contribute c.1 c.2 a) a
      (omap (fun f => raw ← patent !! f; Some (weight_of weights f, raw / 5))
            fields).
Proof.
  revert a. induction fields as [| f fields IH]; intros a; [reflexivity |].
  simpl. rewrite optional_step_spec, IH.
  destruct (patent !! f); reflexivity.
Qed.

Lemma contributed_score_app (xs ys : list (R * R)) :
  contributed_score (xs ++ ys) = contributed_score xs + contributed_score ys.
Proof.
  unfold contributed_score. induction xs as [| x xs IH]; csimpl; [lra |].
  rewrite IH. lra.
Qed.

Lemma contributed_weight_app (xs ys : list (R * R)) :
  contributed_weight (xs ++ ys) = contributed_weight xs + contributed_weight ys.
Proof.
  unfold contributed_weight. induction xs as [| x xs IH]; csimpl; [lra |].
  rewrite IH. lra.
Qed.

(** The running sums do not depend on the order in which the set of optional
    fields is walked. *)
Lemma optional_loop_perm (patent weights : gmap string R)
    (fields fields' : list string) (a : acc) :
  fields ≡ₚ fields' →
  foldl (optional_step patent weights) a fields
  = foldl (optional_step patent weights) a fields'.
Proof.
  intros Hp. revert a.
  induction Hp as [| f l l' _ IH | f g l | l l' l'' _ IH1 _ IH2]; intros a; simpl.
  - reflexivity.
  - apply IH.
  - f_equal. rewrite !optional_step_spec.
    destruct (patent !! f), (patent !! g); try reflexivity.
    apply acc_eq; simpl; lra.
  - by rewrite IH1.
Qed.

Lemma v2_base_score_evaluate (patent weights : gmap string R)
    (cap_cc : option R) :
  v2_base_score patent weights cap_cc
  = Ok (evaluate_additive patent weights cap_cc).
Proof.
  unfold v2_base_score.
  rewrite (v2_normalize_sqrt_Ok _ 50), (v2_normalize_sqrt_Ok _ 500) by lra.
  rewrite v2_normalize_linear_Ok by lra.
  do 4 rewrite always_present_step_Ok, bind_Ok.
  rewrite optional_loop_spec, foldl_contribute.
  fold (optional_contributions patent weights).
  unfold evaluate_additive, contributions.
  rewrite contributed_score_app, contributed_weight_app.
  set (So := contributed_score (optional_contributions patent weights)).
  set (Wo := contributed_weight (optional_contributions patent weights)).
  assert (HS : contributed_score
                 (always_present_contributions patent weights cap_cc)
               = score (contribute (weight_of weights "years_remaining")
                   (v2_normalize_years (Some (default 0 (patent !! "years_remaining"))))
                 (contribute (weight_of weights "forward_citations")
                   (sqrt_norm (default 0 (patent !! "forward_citations")) 500)
                 (contribute (weight_of weights "competitor_count")
                   (Rmin 1 (default 0 (patent !! "competitor_count") / 10))
                 (contribute (weight_of weights "competitor_citations")
                   (sqrt_norm
                      match cap_cc with
                      | Some cap => Rmin (default 0 (patent !! "competitor_citations")) cap
                      | None => default 0 (patent !! "competitor_citations")
                      end 50)
                   (Acc 0 0)))))).
  { unfold contributed_score, always_present_contributions. simpl.
    unfold normalized, raw_of. simpl. lra. }
  assert (HW : contributed_weight
                 (always_present_contributions patent weights cap_cc)
               = weight_sum (contribute (weight_of weights "years_remaining")
                   (v2_normalize_years (Some (default 0 (patent !! "years_remaining"))))
                 (contribute (weight_of weights "forward_citations")
                   (sqrt_norm (default 0 (patent !! "forward_citations")) 500)
                 (contribute (weight_of weights "competitor_count")
                   (Rmin 1 (default 0 (patent !! "competitor_count") / 10))
                 (contribute (weight_of weights "competitor_citations")
                   (sqrt_norm
                      match cap_cc with
                      | Some cap => Rmin (default 0 (patent !! "competitor_citations")) cap
                      | None => default 0 (patent !! "competitor_citations")
                      end 50)
                   (Acc 0 0)))))).
  { unfold contributed_weight, always_present_contributions. simpl. lra. }
  rewrite <- HS, <- HW. cbn [score weight_sum].
  destruct (Rlt_dec 0 _) as [Hpos | Hnpos]; [| reflexivity].
  rewrite truediv_Ok, bind_Ok by lra.
  f_equal. unfold Rdiv. lra.
Qed.







(** ** The old V2 unified score *)

Lemma old_v2_loop_zero (patent : gmap string R) (cap_cc : option R) :
  v2_year_multiplier (Some (default 0 (patent !! "years_remaining"))) = 0 →
  compute_old_v2 patent cap_cc
  = Ok [ ("aggressive", 0); ("moderate", 0); ("conservative", 0);
         ("unified", 0); ("year_multiplier", 0) ].
Proof.
  intros Hym. unfold compute_old_v2, V2_PROFILES, old_v2_loop.
  rewrite !v2_base_score_evaluate, !bind_Ok, !Hym, !Rmult_0_r.
  repeat (cbn [dict_set]; case_decide; [done |]).
  cbn [dict_set]. unfold dict_values, sum_R. csimpl.
  do 4 f_equal. f_equal. f_equal. lra.
Qed.

(** C4.  [v2_year_multiplier] is the piecewise formula: 0 for [years <= 0],
    1 for [years >= 15], and [0.3 + 0.7 * (years / 15) ^ 0.8] in between; so
    it is 1 at 15, and for an item whose remaining years are 0
    [compute_old_v2] gives the score 0 under every profile, and the unified
    score 0, whatever the other metrics are. *)
Theorem year_multiplier_piecewise :
  (∀ y, y <= 0 → v2_year_multiplier (Some y) = 0)
  ∧ (∀ y, 15 <= y → v2_year_multiplier (Some y) = 1)
  ∧ (∀ y, 0 < y < 15 →
       v2_year_multiplier (Some y) = 0.3 + 0.7 * Rpower (y / 15) 0.8)
  ∧ v2_year_multiplier (Some 15) = 1
  ∧ (∀ patent cap_cc,
       patent !! "years_remaining" = Some 0 →
       compute_old_v2 patent cap_cc
       = Ok [ ("aggressive", 0); ("moderate", 0); ("conservative", 0);
              ("unified", 0); ("year_multiplier", 0) ]).
Proof.
  repeat split.
  - intros y Hy. unfold v2_year_multiplier.
    destruct (Rle_dec y 0); [reflexivity | lra].
  - intros y Hy. unfold v2_year_multiplier.
    destruct (Rle_dec y 0); [lra |]. destruct (Rle_dec 15 y); [reflexivity | lra].
  - intros y [H0 H15]. unfold v2_year_multiplier.
    destruct (Rle_dec y 0); [lra |]. destruct (Rle_dec 15 y); [lra |].
    rewrite float_pow_pos; [reflexivity |]. lra.
  - unfold v2_year_multiplier.
    destruct (Rle_dec 15 0); [lra |]. destruct (Rle_dec 15 15); [reflexivity | lra].
  - intros patent cap_cc Hy. apply old_v2_loop_zero. rewrite Hy. simpl.
    destruct (Rle_dec 0 0); [reflexivity | lra].
Qed.

Lemma year_multiplier_piecewise_witness :
  v2_year_multiplier (Some (-1)) = 0
  ∧ v2_year_multiplier (Some 20) = 1
  ∧ v2_year_multiplier (Some 5) = 0.3 + 0.7 * Rpower (5 / 15) 0.8
  ∧ compute_old_v2 {[ "years_remaining" := 0; "competitor_citations" := 50 ]}
      None
    = Ok [ ("aggressive", 0); ("moderate", 0); ("conservative", 0);
           ("unified", 0); ("year_multiplier", 0) ].
Proof.
  destruct year_multiplier_piecewise as (H1 & H2 & H3 & _ & H5).
  split; [apply H1; lra |].
  split; [apply H2; lra |].
  split; [apply H3; lra |].
  apply H5. reflexivity.
Defined.

(** C5 as stated fails at 0 remaining years: the multiplier is 0 there, below
    0.3. *)
Lemma year_multiplier_below_range :
  ¬ (0.3 <= v2_year_multiplier (Some 0) <= 1).
Proof.
  unfold v2_year_multiplier. destruct (Rle_dec 0 0); lra.
Qed.

(** C5, amended.  [v2_year_multiplier] lies in [0.3, 1] for every positive
    number of remaining years, and is 0 for a non-positive or missing one; it
    is monotone non-decreasing in the remaining years over all inputs, and
    equals 1 for every input of at least 15 years. *)
Theorem year_multiplier_bounds :
  (∀ y, 0 < y → 0.3 <= v2_year_multiplier (Some y) <= 1)
  ∧ (∀ y, y <= 0 → v2_year_multiplier (Some y) = 0)
  ∧ v2_year_multiplier None = 0
  ∧ (∀ y1 y2, y1 <= y2 →
       v2_year_multiplier (Some y1) <= v2_year_multiplier (Some y2))
  ∧ (∀ y, 15 <= y → v2_year_multiplier (Some y) = 1).
Proof.
  split; [apply year_multiplier_range |].
  split.
  { intros y Hy. unfold v2_year_multiplier.
    destruct (Rle_dec y 0); [reflexivity | lra]. }
  split; [reflexivity |].
  split; [apply year_multiplier_mono |].
  intros y Hy. unfold v2_year_multiplier.
  destruct (Rle_dec y 0); [lra |]. destruct (Rle_dec 15 y); [reflexivity | lra].
Qed.

Lemma year_multiplier_bounds_witness :
  0.3 <= v2_year_multiplier (Some 7) <= 1
  ∧ v2_year_multiplier (Some (-2)) = 0
  ∧ v2_year_multiplier (Some 3) <= v2_year_multiplier (Some 9)
  ∧ v2_year_multiplier (Some 16) = 1.
Proof.
  destruct year_multiplier_bounds as (H1 & H2 & _ & H4 & H5).
  split; [apply H1; lra |].
  split; [apply H2; lra |].
  split; [apply H4; lra |].
  apply H5; lra.
Defined.

(** ** Range of the normalisation functions *)

Import Config.

Lemma Rmin_1_unit (q : R) : 0 <= q → unit_interval (Rmin 1 q).
Proof. intros Hq. unfold unit_interval, Rmin. destruct (Rle_dec 1 q); lra. Qed.

Lemma Rdiv_nonneg (a b : R) : 0 <= a → 0 < b → 0 <= a / b.
Proof.
  intros Ha Hb. unfold Rdiv. apply Rmult_le_pos; [lra |].
  left. by apply Rinv_0_lt_compat.
Qed.

Lemma ln_pos (x : R) : 1 < x → 0 < ln x.
Proof. intros Hx. rewrite <- ln_1. apply ln_increasing; lra. Qed.

Lemma insert_step_Forall (P : Step → Prop) (s : Step) (l : list Step) :
  P s → Forall P l → Forall P (insert_step s l).
Proof.
  intros Hs. induction 1 as [| h t Hh Ht IH]; simpl.
  - by constructor.
  - destruct (Rlt_dec _ _); repeat constructor; done.
Qed.

Lemma sorted_steps_Forall (P : Step → Prop) (steps : list Step) :
  Forall P steps → Forall P (sorted_steps steps).
Proof.
  unfold sorted_steps. induction 1 as [| s l Hs Hl IH]; simpl.
  - constructor.
  - by apply insert_step_Forall.
Qed.

Lemma first_step_unit (v : R) (steps : list Step) :
  Forall (fun s => unit_interval (value s)) steps →
  unit_interval (first_step v steps).
Proof.
  induction 1 as [| s l Hs Hl IH]; simpl.
  - unfold unit_interval. lra.
  - destruct (Rle_dec _ _); done.
Qed.

Lemma progress_unit (v lo hi : R) :
  lo <= v → v < hi → 0 <= (v - lo) / (hi - lo) < 1.
Proof.
  intros Hlo Hhi. split.
  - apply Rdiv_nonneg; lra.
  - apply (Rmult_lt_reg_r (hi - lo)); [lra |].
    unfold Rdiv. rewrite Rmult_assoc, Rinv_l by lra. lra.
Qed.

Lemma tier_value_unit (b s p : R) :
  unit_interval b → unit_interval (b + s) → 0 <= p <= 1 →
  unit_interval (b + p * s).
Proof. unfold unit_interval. intros Hb Hbs Hp. nra. Qed.

Lemma after_tiers_unit (v : R) (tiers : list Tier) :
  tiers ≠ [] →
  Forall (fun t => unit_interval (baseValue t)
                   ∧ unit_interval (baseValue t + slope t)) tiers →
  ∃ x, after_tiers v tiers = Ok x ∧ unit_interval x.
Proof.
  intros Hne Hall. unfold after_tiers.
  destruct (last tiers) as [t |] eqn:E.
  - assert (Ht : t ∈ tiers).
    { apply last_Some in E as [l' ->]. set_solver. }
    rewrite Forall_forall in Hall. destruct (Hall t Ht) as [_ Hbs].
    destruct (Rle_dec _ _); eexists; (split; [reflexivity |]); [done |].
    unfold unit_interval. lra.
  - apply last_None in E. done.
Qed.

Lemma tier_loop_unit (v : R) (all rest : list Tier) :
  all ≠ [] →
  Forall (fun t => unit_interval (baseValue t)
                   ∧ unit_interval (baseValue t + slope t)) all →
  Forall (fun t => unit_interval (baseValue t)
                   ∧ unit_interval (baseValue t + slope t)) rest →
  ∃ x, tier_loop v all rest = Ok x ∧ unit_interval x.
Proof.
  intros Hne Hall. induction 1 as [| t rest [Hb Hbs] Hrest IH]; simpl.
  - by apply after_tiers_unit.
  - destruct (Rle_dec (tier_min t) v) as [Hlo |]; [| done].
    destruct (Rlt_dec v (tier_max t)) as [Hhi |]; [| done].
    rewrite truediv_Ok, bind_Ok by lra.
    eexists; split; [reflexivity |].
    apply tier_value_unit; try done.
    pose proof (progress_unit v _ _ Hlo Hhi). lra.
Qed.

Lemma v3_normalize_unit (val : option R) (config : NormalizationSpec)
    (dflt : R) :
  wf_spec config →
  ∃ x, v3_normalize val config dflt = Ok x ∧ unit_interval x.
Proof.
  intros Hwf. unfold v3_normalize.
  set (v := match val with Some x => x | None => dflt end).
  destruct config as [max | max | max | steps | tiers |]; simpl in Hwf.
  - rewrite truediv_Ok, bind_Ok by lra.
    eexists; split; [reflexivity |].
    apply Rmin_1_unit, Rmax_l.
  - rewrite (math_sqrt_Ok (Rmax 0 v)) by apply Rmax_l.
    rewrite (math_sqrt_Ok (default 1 max)) by lra.
    rewrite !bind_Ok, truediv_Ok, bind_Ok by (apply sqrt_pos_ne; lra).
    eexists; split; [reflexivity |].
    apply Rmin_1_unit, Rdiv_nonneg; [apply sqrt_pos | apply sqrt_lt_R0; lra].
  - destruct (Rle_dec v 0) as [| Hv].
    { exists 0. split; [reflexivity |]. unfold unit_interval; lra. }
    rewrite (math_log_Ok (v + 1)), (math_log_Ok (default 100 max + 1)) by lra.
    assert (0 < ln (default 100 max + 1)) by (apply ln_pos; lra).
    rewrite !bind_Ok, truediv_Ok, bind_Ok by lra.
    eexists; split; [reflexivity |].
    apply Rmin_1_unit, Rdiv_nonneg; [| done].
    left. apply ln_pos. lra.
  - eexists; split; [reflexivity |].
    by apply first_step_unit, sorted_steps_Forall.
  - destruct Hwf as [Hne Hall]. by apply tier_loop_unit.
  - eexists; split; [reflexivity |].
    unfold unit_interval, Rmax, Rmin.
    repeat destruct (Rle_dec _ _); lra.
Qed.

Lemma v2_normalize_sqrt_unit (val : option R) (max_val : R) :
  0 < max_val →
  ∃ x, v2_normalize_sqrt val max_val = Ok x ∧ unit_interval x.
Proof.
  intros Hm. destruct val as [v |].
  - rewrite v2_normalize_sqrt_Ok by done. eexists; split; [reflexivity |].
    unfold sqrt_norm. destruct (Rle_dec v 0); [unfold unit_interval; lra |].
    apply Rmin_1_unit, Rdiv_nonneg; [apply sqrt_pos | by apply sqrt_lt_R0].
  - exists 0. split; [reflexivity |]. unfold unit_interval; lra.
Qed.

Lemma v2_normalize_years_unit (years : option R) :
  unit_interval (v2_normalize_years years).
Proof.
  unfold v2_normalize_years, unit_interval. destruct years as [y |]; [| lra].
  destruct (Rle_dec y 0); [lra |]. destruct (Rle_dec 15 y); [lra |].
  apply float_pow_unit; lra.
Qed.

(** C1 as stated fails for the V2 helpers that do not clamp:
    [v2_normalize_linear(-5, 10)] is -0.5, [v2_normalize_score(10)] is 2 and
    [v2_normalize_score(None)] is [None]; and a [stepped] configuration
    returns whatever value its step holds. *)
Lemma normalize_out_of_range :
  v2_normalize_linear (Some (-5)) 10 = Ok (-0.5)
  ∧ ¬ unit_interval (-0.5)
  ∧ v2_normalize_score (Some 10) = Some 2
  ∧ ¬ unit_interval 2
  ∧ v2_normalize_score None = None
  ∧ v3_normalize (Some 1) (Stepped [mkStep 0 2]) 0 = Ok 2.
Proof.
  unfold unit_interval. repeat split.
  - rewrite v2_normalize_linear_Ok by lra. f_equal.
    unfold Rmin. destruct (Rle_dec _ _); lra.
  - lra.
  - unfold v2_normalize_score. f_equal. lra.
  - lra.
  - unfold v3_normalize, sorted_steps. simpl.
    destruct (Rle_dec 0 1); [reflexivity | lra].
Qed.

(** C1, amended.  [v3_normalize] returns a value in [0,1] for every input
    value (negative, very large, or [None] with any default) under every
    well-formed configuration: [linear], [sqrt] and [log] with a positive
    maximum, [score5], [stepped] with step values in [0,1], and
    [tiered_continuous] with at least one tier and tier end values in [0,1];
    [linear] clamps negative inputs to 0.  Of the V2 helpers,
    [v2_normalize_sqrt] (positive maximum) and [v2_normalize_years] return a
    value in [0,1] for every input including [None]; [v2_normalize_linear]
    returns 0 for [None] and [min(1, value / max)] otherwise, which is at
    most 1, in [0,1] for a non-negative value and negative for a negative
    one; [v2_normalize_score] returns [None] for [None] and [value / 5]
    otherwise, which is in [0,1] exactly when [0 <= value <= 5]. *)
Theorem normalize_range :
  (∀ val config dflt, wf_spec config →
     ∃ x, v3_normalize val config dflt = Ok x ∧ 0 <= x <= 1)
  ∧ (∀ v max dflt, 0 < max → v < 0 →
       v3_normalize (Some v) (Linear (Some max)) dflt = Ok 0)
  ∧ (∀ val max_val, 0 < max_val →
       ∃ x, v2_normalize_sqrt val max_val = Ok x ∧ 0 <= x <= 1)
  ∧ (∀ years, 0 <= v2_normalize_years years <= 1)
  ∧ (∀ max_val, v2_normalize_linear None max_val = Ok 0)
  ∧ (∀ v max_val, 0 < max_val →
       v2_normalize_linear (Some v) max_val = Ok (Rmin 1 (v / max_val))
       ∧ Rmin 1 (v / max_val) <= 1
       ∧ (0 <= v → 0 <= Rmin 1 (v / max_val))
       ∧ (v < 0 → Rmin 1 (v / max_val) < 0))
  ∧ v2_normalize_score None = None
  ∧ (∀ v, v2_normalize_score (Some v) = Some (v / 5)
          ∧ (0 <= v / 5 <= 1 ↔ 0 <= v <= 5)).
Proof.
  split; [exact v3_normalize_unit |].
  split.
  { intros v max dflt Hm Hv. unfold v3_normalize. simpl.
    rewrite truediv_Ok, bind_Ok by lra. f_equal.
    assert (v / max < 0).
    { unfold Rdiv. apply Rmult_neg_pos; [lra |]. by apply Rinv_0_lt_compat. }
    unfold Rmin, Rmax. repeat destruct (Rle_dec _ _); lra. }
  split; [exact v2_normalize_sqrt_unit |].
  split; [exact v2_normalize_years_unit |].
  split; [reflexivity |].
  split.
  { intros v max_val Hm. rewrite v2_normalize_linear_Ok by lra.
    split; [reflexivity |]. split; [apply Rmin_l |]. split.
    - intros Hv. apply Rmin_1_unit, Rdiv_nonneg; lra.
    - intros Hv. assert (v / max_val < 0).
      { unfold Rdiv. apply Rmult_neg_pos; [lra |]. by apply Rinv_0_lt_compat. }
      pose proof (Rmin_r 1 (v / max_val)). lra. }
  split; [reflexivity |].
  intros v. split; [reflexivity |]. lra.
Qed.

Lemma normalize_range_witness :
  (∃ x, v3_normalize (Some (-3)) (Log (Some 100)) 0 = Ok x ∧ 0 <= x <= 1)
  ∧ v3_normalize (Some (-3)) (Linear (Some 8)) 0 = Ok 0
  ∧ (∃ x, v2_normalize_sqrt (Some 1000) 50 = Ok x ∧ 0 <= x <= 1)
  ∧ v2_normalize_linear (Some 4) 10 = Ok (Rmin 1 (4 / 10)).
Proof.
  destruct normalize_range as (H1 & H2 & H3 & _ & _ & H6 & _).
  split; [apply H1; simpl; lra |].
  split; [apply H2; lra |].
  split; [apply H3; lra |].
  apply H6; lra.
Defined.

(** ** Multiplicative score *)

Import Multiplicative.

Lemma wsum_eq (a b : wsum) :
  weighted_sum a = weighted_sum b → total_weight a = total_weight b → a = b.
Proof. destruct a, b; simpl; intros -> ->; reflexivity. Qed.

Lemma mapM_cons {A B : Type} (f : A → py B) (x : A) (l : list A) :
  mapM f (x :: l) = (y ← f x; k ← mapM f l; Ok (y :: k)).
Proof. reflexivity. Qed.

Lemma mapM_length {A B : Type} (f : A → py B) (l : list A) (k : list B) :
  mapM f l = Ok k → length k = length l.
Proof.
  revert k. induction l as [| x l IH]; intros k.
  - intros [= <-]. reflexivity.
  - rewrite mapM_cons. destruct (f x) as [y | e]; [| done].
    rewrite bind_Ok. destruct (mapM f l) as [k' | e]; [| done].
    rewrite bind_Ok. intros [= <-]. simpl. f_equal. by apply IH.
Qed.

Lemma metric_step_normalized (patent : gmap string R) (cap_cc : option R)
    (a : wsum) (m : Metric) :
  metric_step patent cap_cc a m
  = (n ← normalized_value patent cap_cc m;
     Ok (WSum (weighted_sum a + weight m * n) (total_weight a + weight m))).
Proof. reflexivity. Qed.

Lemma metric_loop_spec (patent : gmap string R) (cap_cc : option R)
    (ms : list Metric) (a : wsum) :
  foldlM (metric_step patent cap_cc) a ms
  = (norms ← mapM (normalized_value patent cap_cc) ms;
     Ok (WSum (weighted_sum a + sum_R (zip_with Rmult (weight <$> ms) norms))
              (total_weight a + sum_R (weight <$> ms)))).
Proof.
  revert a. induction ms as [| m ms IH]; intros a.
  - simpl. f_equal. apply wsum_eq; simpl; lra.
  - cbn [foldlM]. rewrite metric_step_normalized, mapM_cons.
    destruct (normalized_value patent cap_cc m) as [n | e]; [| reflexivity].
    rewrite !bind_Ok, IH.
    destruct (mapM _ ms) as [norms | e]; [| reflexivity].
    rewrite !bind_Ok. f_equal. csimpl. apply wsum_eq; simpl; lra.
Qed.

Lemma factor_score_evaluate (patent : gmap string R) (cap_cc : option R)
    (f : Factor) :
  factor_score patent cap_cc f = evaluate_factor patent cap_cc f.
Proof.
  unfold factor_score, evaluate_factor. rewrite metric_loop_spec.
  destruct (mapM _ (metrics f)) as [norms | e]; [| reflexivity].
  rewrite !bind_Ok. cbn [weighted_sum total_weight].
  rewrite !Rplus_0_l. unfold weighted_average.
  destruct (Rlt_dec 0 _); [| reflexivity].
  rewrite truediv_Ok by lra. reflexivity.
Qed.

Lemma factor_score_floor (patent : gmap string R) (cap_cc : option R)
    (f : Factor) (s : R) :
  factor_score patent cap_cc f = Ok s → floor f <= s.
Proof.
  unfold factor_score.
  destruct (foldlM _ _ _) as [a | e]; [| done]. rewrite bind_Ok.
  destruct (if Rlt_dec 0 (total_weight a) then _ else _) as [x | e]; [| done].
  rewrite bind_Ok. intros [= <-]. apply Rmax_l.
Qed.

Lemma factor_loop_spec (patent : gmap string R) (cap_cc : option R)
    (fs : list Factor) (d : list (string * R)) :
  foldlM (factor_loop patent cap_cc) d fs
  = (scores ← mapM (factor_score patent cap_cc) fs;
     Ok (foldl (fun d kv => dict_set kv.1 kv.2 d) d (zip (name <$> fs) scores))).
Proof.
  revert d. induction fs as [| f fs IH]; intros d; [reflexivity |].
  cbn [foldlM]. rewrite mapM_cons.
  change (factor_loop patent cap_cc d f)
    with (s ← factor_score patent cap_cc f; Ok (dict_set (name f) s d)).
  destruct (factor_score patent cap_cc f) as [s | e]; [| reflexivity].
  rewrite !bind_Ok, IH.
  destruct (mapM _ fs) as [scores | e]; reflexivity.
Qed.

Lemma foldl_Rmult (l : list R) (a : R) : foldl Rmult a l = a * prod_R l.
Proof.
  revert a. induction l as [| x l IH]; intros a; simpl; [lra |].
  rewrite IH. unfold prod_R. lra.
Qed.

Lemma dict_set_fresh {V : Type} (k : string) (v : V) (d : list (string * V)) :
  k ∉ d.*1 → dict_set k v d = (d ++ [(k, v)])%list.
Proof.
  induction d as [| [k' v'] d IH]; intros Hk; [reflexivity |].
  simpl in *. case_decide as E.
  - subst. exfalso. apply Hk. left.
  - rewrite IH; [reflexivity |]. intros Hin. apply Hk. by right.
Qed.

Lemma dict_fill_fresh {V : Type} (kvs d : list (string * V)) :
  NoDup kvs.*1 → (∀ k, k ∈ kvs.*1 → k ∉ d.*1) →
  foldl (fun d kv => dict_set kv.1 kv.2 d) d kvs = (d ++ kvs)%list.
Proof.
  revert d. induction kvs as [| [k v] kvs IH]; intros d Hnd Hfresh.
  - simpl. by rewrite app_nil_r.
  - simpl in *. apply NoDup_cons in Hnd as [Hk Hnd].
    rewrite dict_set_fresh by (apply Hfresh; left).
    rewrite IH; [by rewrite <- app_assoc | done |].
    intros k' Hk'. rewrite fmap_app. simpl. intros Hin.
    apply elem_of_app in Hin as [Hin | Hin].
    + by apply (Hfresh k'); [right |].
    + apply list_elem_of_singleton in Hin. subst. done.
Qed.

Lemma dict_of_list_NoDup {V : Type} (kvs : list (string * V)) :
  NoDup kvs.*1 → dict_of_list kvs = kvs.
Proof.
  intros Hnd. unfold dict_of_list. rewrite dict_fill_fresh; [done | done |].
  intros k _. simpl. apply not_elem_of_nil.
Qed.

Lemma compute_v3_profile_score_evaluate (patent : gmap string R)
    (profile : Profile) (cap_cc : option R) :
  compute_v3_profile_score patent profile cap_cc
  = (scores ← mapM (factor_score patent cap_cc) (factors profile);
     let factor_scores :=
       dict_of_list (zip (name <$> factors profile) scores) in
     Ok (100 * prod_R (dict_values factor_scores), factor_scores)).
Proof.
  unfold compute_v3_profile_score. rewrite factor_loop_spec.
  destruct (mapM _ (factors profile)) as [scores | e]; [| reflexivity].
  rewrite !bind_Ok. cbn zeta. fold (dict_of_list (zip (name <$> factors profile) scores)).
  f_equal. f_equal. rewrite foldl_Rmult. lra.
Qed.

Lemma mapM_Ok_Forall {A B : Type} (f : A → py B) (P : B → Prop) (l : list A) :
  Forall (fun x => ∃ y, f x = Ok y ∧ P y) l →
  ∃ k, mapM f l = Ok k ∧ Forall P k.
Proof.
  induction 1 as [| x l (y & Hy & HP) _ (k & Hk & HPk)].
  - exists []. split; [reflexivity | constructor].
  - exists (y :: k). rewrite mapM_cons, Hy, bind_Ok, Hk, bind_Ok.
    split; [reflexivity | by constructor].
Qed.

Lemma V3_PROFILES_distinct_names :
  Forall (fun p => NoDup (name <$> factors p)) V3_PROFILES.
Proof.
  unfold V3_PROFILES.
  repeat (apply Forall_cons_2;
          [cbn; apply (bool_decide_unpack _); vm_compute; exact I |]).
  apply Forall_nil_2.
Qed.

Lemma factor_score_wf (patent : gmap string R) (cap_cc : option R)
    (f : Factor) :
  Forall (fun m => wf_spec (normalize m)) (metrics f) →
  ∃ s, factor_score patent cap_cc f = Ok s ∧ floor f <= s.
Proof.
  intros Hwf. rewrite factor_score_evaluate. unfold evaluate_factor.
  destruct (mapM_Ok_Forall (normalized_value patent cap_cc) (fun _ => True)
              (metrics f)) as (norms & -> & _).
  { eapply Forall_impl; [exact Hwf |]. intros m Hm. simpl in Hm.
    destruct (v3_normalize_unit (raw_input patent cap_cc m) _
                (default 0 (metric_default m)) Hm) as (x & Hx & _).
    by exists x. }
  rewrite bind_Ok. eexists; split; [reflexivity |]. apply Rmax_l.
Qed.

(** C3 as stated fails for a profile that lists two Factors under one name:
    [factor_scores] is keyed by name, the second score replaces the first,
    and the product runs over the one entry left.  Two Factors named ["A"]
    with floor 0.5 and no metrics score 0.5 each; the final score is 50, not
    [100 * (0.5 * 0.5) = 25]. *)
Lemma compute_v3_profile_score_repeated_name :
  mapM (factor_score ∅ None) [mkFactor "A" 0.5 []; mkFactor "A" 0.5 []]
  = Ok [0.5; 0.5]
  ∧ compute_v3_profile_score ∅
      (mkProfile "p" [mkFactor "A" 0.5 []; mkFactor "A" 0.5 []]) None
    = Ok (50, [("A", 0.5)])
  ∧ 100 * prod_R [0.5; 0.5] = 25
  ∧ 50 ≠ 100 * prod_R [0.5; 0.5].
Proof.
  assert (Hf : factor_score ∅ None (mkFactor "A" 0.5 []) = Ok 0.5).
  { unfold factor_score. cbn. destruct (Rlt_dec 0 0); [lra |].
    cbn. f_equal. unfold Rmax. destruct (Rle_dec _ _); lra. }
  split; [by rewrite !mapM_cons, Hf |].
  split.
  - unfold compute_v3_profile_score. cbn [factors foldlM].
    unfold factor_loop. rewrite Hf. cbn. destruct (decide _); [| done].
    cbn. do 2 f_equal. lra.
  - unfold prod_R. simpl. split; lra.
Qed.

(** C3, amended.  For every metric set and every multiplicative profile, each
    Factor's score computed by [compute_v3_profile_score] is the weighted
    average of the normalised values of its metrics (the configured default
    standing in for an absent raw value), floored at the Factor's minimum, so
    it is never below that minimum; the final score is 100 times the product
    of the Factor scores held in [factor_scores], where a later Factor
    replaces the score of an earlier Factor of the same name; for a profile
    whose Factors have pairwise distinct names, as every profile of the
    catalog has, these are the scores of all Factors and the final score is
    100 times their product.  With well-formed normalisation configurations
    the function returns without raising. *)
Theorem compute_v3_profile_score_multiplicative (patent : gmap string R)
    (profile : Profile) (cap_cc : option R) :
  (∀ f, factor_score patent cap_cc f = evaluate_factor patent cap_cc f)
  ∧ (∀ f s, factor_score patent cap_cc f = Ok s → floor f <= s)
  ∧ compute_v3_profile_score patent profile cap_cc
    = (scores ← mapM (factor_score patent cap_cc) (factors profile);
       let factor_scores :=
         dict_of_list (zip (name <$> factors profile) scores) in
       Ok (100 * prod_R (dict_values factor_scores), factor_scores))
  ∧ (∀ scores,
       NoDup (name <$> factors profile) →
       mapM (factor_score patent cap_cc) (factors profile) = Ok scores →
       compute_v3_profile_score patent profile cap_cc
       = Ok (100 * prod_R scores, zip (name <$> factors profile) scores))
  ∧ (Forall (fun f => Forall (fun m => wf_spec (normalize m)) (metrics f))
       (factors profile) →
     ∃ scores,
       mapM (factor_score patent cap_cc) (factors profile) = Ok scores
       ∧ Forall2 (fun f s => floor f <= s) (factors profile) scores)
  ∧ Forall (fun p => NoDup (name <$> factors p)) V3_PROFILES.
Proof.
  split; [apply factor_score_evaluate |].
  split; [apply factor_score_floor |].
  split; [apply compute_v3_profile_score_evaluate |].
  split; [| split; [| apply V3_PROFILES_distinct_names]].
  - intros scores Hnd Hscores.
    rewrite compute_v3_profile_score_evaluate, Hscores, bind_Ok. cbn zeta.
    assert (Hlen : length scores = length (name <$> factors profile)).
    { rewrite length_fmap. by eapply mapM_length. }
    rewrite dict_of_list_NoDup by (rewrite fst_zip; [done | lia]).
    unfold dict_values. rewrite snd_zip by lia. reflexivity.
  - induction 1 as [| f fs Hf _ (scores & Hs & Hall)].
    + exists []. split; [reflexivity | constructor].
    + destruct (factor_score_wf patent cap_cc f Hf) as (s & Hfs & Hfl).
      exists (s :: scores). rewrite mapM_cons, Hfs, bind_Ok, Hs, bind_Ok.
      split; [reflexivity | by constructor].
Qed.

Lemma score5_value (v : R) :
  1 <= v <= 5 → Rmax 0 (Rmin 1 ((v - 1) / 4)) = (v - 1) / 4.
Proof.
  intros Hv. unfold Rmax, Rmin. repeat destruct (Rle_dec _ _); lra.
Qed.

Lemma normalized_value_absent (patent : gmap string R) (cap_cc : option R)
    (m : Metric) :
  patent !! field m = None →
  normalized_value patent cap_cc m
  = v3_normalize None (normalize m) (default 0 (metric_default m)).
Proof.
  intros E. unfold normalized_value, raw_input. rewrite E.
  case_decide; [destruct cap_cc |]; reflexivity.
Qed.

Lemma mapM_ext_Forall {A B : Type} (f g : A → py B) (l : list A) :
  Forall (fun x => f x = g x) l → mapM f l = mapM g l.
Proof.
  induction 1 as [| x l Hx _ IH]; [reflexivity |].
  by rewrite !mapM_cons, Hx, IH.
Qed.

Lemma factor_score_absent (patent : gmap string R) (cap_cc : option R)
    (f : Factor) :
  (∀ m, m ∈ metrics f → patent !! field m = None) →
  factor_score patent cap_cc f = evaluate_defaults f.
Proof.
  intros Habs. rewrite factor_score_evaluate.
  unfold evaluate_factor, evaluate_defaults.
  rewrite (mapM_ext_Forall (normalized_value patent cap_cc)
             (fun m => v3_normalize None (normalize m)
                         (default 0 (metric_default m)))); [reflexivity |].
  apply Forall_forall. intros m Hm. by apply normalized_value_absent, Habs.
Qed.

Lemma collection_yield_evaluate_defaults :
  evaluate_defaults CollectionYield = Ok 0.5625.
Proof.
  unfold evaluate_defaults, CollectionYield.
  cbn [metrics]. rewrite !mapM_cons.
  unfold metric_d, SCORE5, v3_normalize.
  cbn [field normalize metric_default default from_option].
  cbv [Datatypes.id].
  rewrite !score5_value by lra.
  cbn. f_equal.
  unfold weighted_average. cbn.
  destruct (Rlt_dec 0 _); [| lra].
  unfold Rmax. destruct (Rle_dec _ _); lra.
Qed.

Lemma collection_yield_defaults (cap_cc : option R) :
  factor_score ∅ cap_cc CollectionYield = Ok 0.5625.
Proof.
  rewrite factor_score_absent; [apply collection_yield_evaluate_defaults |].
  intros m _. apply lookup_empty.
Qed.

Lemma compute_v3_profile_score_multiplicative_witness :
  compute_v3_profile_score ∅ (mkProfile "p" [CollectionYield]) None
  = Ok (100 * prod_R [0.5625], [("CollectionYield", 0.5625)])
  ∧ floor CollectionYield <= 0.5625
  ∧ ∃ scores,
      mapM (factor_score ∅ None) [CollectionYield] = Ok scores
      ∧ Forall2 (fun f s => floor f <= s) [CollectionYield] scores.
Proof.
  pose proof (compute_v3_profile_score_multiplicative
                ∅ (mkProfile "p" [CollectionYield]) None)
    as (_ & Hfloor & _ & Hnodup & Hwf & _).
  split; [| split].
  - apply Hnodup.
    + simpl. apply NoDup_singleton.
    + cbn [factors]. rewrite mapM_cons, collection_yield_defaults. reflexivity.
  - apply (Hfloor CollectionYield). apply collection_yield_defaults.
  - apply Hwf. cbn [factors]. apply Forall_cons_2; [| apply Forall_nil_2].
    unfold CollectionYield. cbn [metrics].
    repeat (apply Forall_cons_2; [exact I |]). apply Forall_nil_2.
Defined.

Lemma mapM_Ok_Forall2 {A B : Type} (f : A → py B) (l : list A) (k : list B) :
  mapM f l = Ok k → Forall2 (fun x y => f x = Ok y) l k.
Proof.
  revert k. induction l as [| x l IH]; intros k.
  - intros [= <-]. constructor.
  - rewrite mapM_cons. destruct (f x) as [y | e] eqn:E; [| done].
    rewrite bind_Ok. destruct (mapM f l) as [k' | e]; [| done].
    rewrite bind_Ok. intros [= <-]. constructor; [done | by apply IH].
Qed.

Lemma dict_set_Forall {V : Type} (P : string * V → Prop) (k : string) (v : V)
    (d : list (string * V)) :
  P (k, v) → Forall P d → Forall P (dict_set k v d).
Proof.
  intros Hkv. induction 1 as [| [k' v'] d Hd Hall IH]; simpl.
  - by constructor.
  - case_decide; by constructor.
Qed.

Lemma dict_of_list_Forall {V : Type} (P : string * V → Prop)
    (kvs : list (string * V)) :
  Forall P kvs → Forall P (dict_of_list kvs).
Proof.
  unfold dict_of_list. intros Hall.
  assert (Hd : Forall P (@nil (string * V))) by constructor.
  revert Hd. generalize (@nil (string * V)).
  induction Hall as [| [k v] kvs Hkv _ IH]; intros d Hd; simpl; [done |].
  apply IH. by apply dict_set_Forall.
Qed.

Lemma prod_R_pos (l : list R) : Forall (fun x => 0 < x) l → 0 < prod_R l.
Proof.
  unfold prod_R. induction 1 as [| x l Hx _ IH]; simpl; [lra |].
  by apply Rmult_lt_0_compat.
Qed.

Lemma compute_v3_profile_score_pos (patent : gmap string R)
    (profile : Profile) (cap_cc : option R) (final : R)
    (factor_scores : list (string * R)) :
  (∀ f, f ∈ factors profile → 0 < floor f) →
  compute_v3_profile_score patent profile cap_cc = Ok (final, factor_scores) →
  0 < final.
Proof.
  intros Hfloor. rewrite compute_v3_profile_score_evaluate.
  destruct (mapM _ (factors profile)) as [scores | e] eqn:E; [| done].
  rewrite bind_Ok. cbn zeta. intros [= <- <-].
  apply mapM_Ok_Forall2 in E.
  assert (Hpos : Forall (fun kv : string * R => 0 < kv.2)
                   (zip (name <$> factors profile) scores)).
  { clear -E Hfloor. induction E as [| f s fs scores Hs _ IH]; csimpl.
    - constructor.
    - constructor.
      + simpl. apply factor_score_floor in Hs.
        pose proof (Hfloor f ltac:(left)). lra.
      + apply IH. intros f' Hf'. apply Hfloor. by right. }
  apply (dict_of_list_Forall (fun kv : string * R => 0 < kv.2)) in Hpos.
  assert (0 < prod_R (dict_values
                        (dict_of_list (zip (name <$> factors profile) scores)))).
  { apply prod_R_pos. unfold dict_values. by apply Forall_fmap. }
  lra.
Qed.

(** C7 as stated fails on the catalog's own [CollectionYield] Factor (floor
    0.20): with all three of its metrics absent the configured defaults 3.0,
    3.0 and 4.0 give the weighted average 0.5625, which is above the floor and
    is the Factor's score. *)
Lemma collection_yield_not_floor :
  CollectionYield ∈ factors ip_lit_aggressive
  ∧ floor CollectionYield = 0.20
  ∧ factor_score ∅ None CollectionYield = Ok 0.5625
  ∧ 0.5625 ≠ 0.20.
Proof.
  split; [unfold ip_lit_aggressive; cbn [factors]; set_solver |].
  split; [reflexivity |].
  split; [apply collection_yield_defaults | lra].
Qed.

(** C7, amended.  For a Factor whose metrics are all absent from the item's
    metric set, the computed score is the maximum of the Factor's floor and
    the weighted average of the normalised configured defaults: the floor
    itself only when that average does not exceed it.  For the catalog's
    [CollectionYield] Factor (floor 0.20) it is 0.5625.  The final
    multiplicative score is positive, hence nonzero, whenever every Factor's
    floor is positive. *)
Theorem factor_score_absent_metrics (patent : gmap string R)
    (cap_cc : option R) :
  (∀ f, (∀ m, m ∈ metrics f → patent !! field m = None) →
        factor_score patent cap_cc f = evaluate_defaults f)
  ∧ (∀ f norms,
       mapM (fun m => v3_normalize None (normalize m)
                        (default 0 (metric_default m))) (metrics f) = Ok norms →
       weighted_average (weight <$> metrics f) norms <= floor f →
       evaluate_defaults f = Ok (floor f))
  ∧ ((∀ m, m ∈ metrics CollectionYield → patent !! field m = None) →
     factor_score patent cap_cc CollectionYield = Ok 0.5625)
  ∧ (∀ profile final factor_scores,
       (∀ f, f ∈ factors profile → 0 < floor f) →
       compute_v3_profile_score patent profile cap_cc
       = Ok (final, factor_scores) →
       0 < final).
Proof.
  split; [intros f; apply factor_score_absent |].
  split.
  { intros f norms Hn Havg. unfold evaluate_defaults. rewrite Hn, bind_Ok.
    f_equal. by apply Rmax_left. }
  split.
  { intros Habs. rewrite factor_score_absent by done.
    apply collection_yield_evaluate_defaults. }
  intros profile final fs. apply compute_v3_profile_score_pos.
Qed.

Lemma factor_score_absent_metrics_witness :
  factor_score {[ "years_remaining" := 12 ]} None CollectionYield
  = Ok 0.5625
  ∧ 0 < 100 * prod_R [0.5625].
Proof.
  pose proof (factor_score_absent_metrics {[ "years_remaining" := 12 ]} None)
    as (_ & _ & Hcy & Hpos).
  assert (Habs : ∀ m, m ∈ metrics CollectionYield →
                      ({[ "years_remaining" := 12 ]} : gmap string R)
                        !! field m = None).
  { intros m Hm. unfold CollectionYield in Hm. cbn [metrics] in Hm.
    repeat (apply elem_of_cons in Hm as [-> | Hm]; [reflexivity |]).
    by apply elem_of_nil in Hm. }
  split; [by apply Hcy |].
  apply (Hpos (mkProfile "p" [CollectionYield]) _ [("CollectionYield", 0.5625)]).
  - intros f Hf. cbn [factors] in Hf. apply list_elem_of_singleton in Hf as ->.
    simpl. lra.
  - rewrite compute_v3_profile_score_evaluate. cbn [factors].
    rewrite mapM_cons, (Hcy Habs). reflexivity.
Defined.

(** ** Monotonicity of the normalisations *)

Import Monotone.

Lemma Rmin_1_mono (a b : R) : a <= b → Rmin 1 a <= Rmin 1 b.
Proof. intros H. unfold Rmin. repeat destruct (Rle_dec _ _); lra. Qed.

Lemma Rmax_0_mono (a b : R) : a <= b → Rmax 0 a <= Rmax 0 b.
Proof. intros H. unfold Rmax. repeat destruct (Rle_dec _ _); lra. Qed.

Lemma Rdiv_mono (a b c : R) : 0 < c → a <= b → a / c <= b / c.
Proof.
  intros Hc Hab. unfold Rdiv. apply Rmult_le_compat_r; [| done].
  left. by apply Rinv_0_lt_compat.
Qed.

Lemma ln_mono (a b : R) : 0 < a → a <= b → ln a <= ln b.
Proof.
  intros Ha [Hlt | ->]; [| lra]. left. by apply ln_increasing.
Qed.

Lemma first_step_le (v top : R) (steps : list Step) :
  0 <= top → Forall (fun s => value s <= top) steps →
  first_step v steps <= top.
Proof.
  intros Htop. induction 1 as [| s l Hs _ IH]; simpl; [done |].
  destruct (Rle_dec _ _); done.
Qed.

Lemma staircase_nonneg (v : R) (steps : list Step) :
  staircase steps → 0 <= first_step v steps.
Proof.
  induction steps as [| s l IH]; simpl; [lra |].
  intros (Hs & _ & Hl). destruct (Rle_dec _ _); [done | by apply IH].
Qed.

Lemma first_step_mono (v1 v2 : R) (steps : list Step) :
  staircase steps → v1 <= v2 → first_step v1 steps <= first_step v2 steps.
Proof.
  intros Hst H12. induction steps as [| s l IH]; simpl; [lra |].
  destruct Hst as (Hs & Hall & Hl).
  destruct (Rle_dec (threshold s) v1), (Rle_dec (threshold s) v2); try lra.
  - apply first_step_le; [done |].
    eapply Forall_impl; [exact Hall |]. by intros s' [_ ?].
  - by apply IH.
Qed.

Lemma sorted_steps_staircase (steps : list Step) :
  staircase steps → sorted_steps steps = steps.
Proof.
  unfold sorted_steps. induction steps as [| s l IH]; [reflexivity |].
  intros (Hs & Hall & Hl). simpl. rewrite IH by done.
  destruct l as [| h t]; [reflexivity |]. simpl.
  apply Forall_cons in Hall as [[Hth _] _].
  destruct (Rlt_dec _ _); [lra | reflexivity].
Qed.

Lemma tier_inside (v : R) (all rest : list Tier) (t : Tier) :
  tier_min t <= v → v < tier_max t →
  tier_loop v all (t :: rest)
  = Ok (baseValue t + (v - tier_min t) / (tier_max t - tier_min t) * slope t).
Proof.
  intros Hlo Hhi. simpl.
  destruct (Rle_dec _ _); [| lra]. destruct (Rlt_dec _ _); [| lra].
  by rewrite truediv_Ok by lra.
Qed.

Lemma tier_below (v : R) (all rest : list Tier) (t : Tier) :
  v < tier_min t → tier_loop v all (t :: rest) = tier_loop v all rest.
Proof. intros Hlo. simpl. destruct (Rle_dec _ _); [lra | reflexivity]. Qed.

Lemma tier_above (v : R) (all rest : list Tier) (t : Tier) :
  tier_max t <= v → tier_loop v all (t :: rest) = tier_loop v all rest.
Proof.
  intros Hhi. simpl. destruct (Rle_dec _ _); [| reflexivity].
  destruct (Rlt_dec _ _); [lra | reflexivity].
Qed.

Lemma tier_value_bounds (v : R) (t : Tier) :
  tier_min t <= v → v < tier_max t → 0 <= slope t →
  baseValue t
  <= baseValue t + (v - tier_min t) / (tier_max t - tier_min t) * slope t
  <= baseValue t + slope t.
Proof.
  intros Hlo Hhi Hs. pose proof (progress_unit v _ _ Hlo Hhi). nra.
Qed.

Lemma tier_value_mono (v1 v2 : R) (t : Tier) :
  tier_min t <= v1 → v1 <= v2 → v2 < tier_max t → 0 <= slope t →
  baseValue t + (v1 - tier_min t) / (tier_max t - tier_min t) * slope t
  <= baseValue t + (v2 - tier_min t) / (tier_max t - tier_min t) * slope t.
Proof.
  intros Hlo H12 Hhi Hs.
  assert ((v1 - tier_min t) / (tier_max t - tier_min t)
          <= (v2 - tier_min t) / (tier_max t - tier_min t))
    by (apply Rdiv_mono; lra).
  nra.
Qed.

(** What the loop gives from a tier [t] onwards: 0 below [t], at least the
    start value of [t] from [t] on, and monotone there. *)
Lemma tier_loop_chain (all : list Tier) (t : Tier) (rest : list Tier) :
  last all = last (t :: rest) → chained (t :: rest) →
  (∀ v, v < tier_min t → tier_loop v all (t :: rest) = Ok 0)
  ∧ (∀ v, tier_min t <= v →
       ∃ x, tier_loop v all (t :: rest) = Ok x ∧ baseValue t <= x)
  ∧ (∀ v1 v2, tier_min t <= v1 → v1 <= v2 →
       ∃ x1 x2, tier_loop v1 all (t :: rest) = Ok x1
                ∧ tier_loop v2 all (t :: rest) = Ok x2 ∧ x1 <= x2).
Proof.
  revert t. induction rest as [| t' rest IH]; intros t Hlast Hch.
  - destruct Hch as (Hlt & Hs & _ & _). simpl in Hlast.
    assert (Hafter : ∀ v, tier_loop v all [] =
              if Rle_dec (tier_max t) v then Ok (baseValue t + slope t) else Ok 0).
    { intros v. simpl. unfold after_tiers. rewrite Hlast.
      destruct (Rle_dec _ _); reflexivity. }
    split; [| split].
    + intros v Hv. rewrite tier_below, Hafter by done.
      destruct (Rle_dec _ _); [lra | reflexivity].
    + intros v Hv. destruct (Rlt_dec v (tier_max t)) as [Hhi | Hhi].
      * rewrite tier_inside by done. eexists; split; [reflexivity |].
        by apply tier_value_bounds.
      * rewrite tier_above, Hafter by lra.
        destruct (Rle_dec _ _); [| lra]. eexists; split; [reflexivity | lra].
    + intros v1 v2 Hv1 H12.
      destruct (Rlt_dec v2 (tier_max t)) as [Hhi2 | Hhi2].
      * rewrite !tier_inside by lra. do 2 eexists.
        split; [reflexivity |]. split; [reflexivity |].
        by apply tier_value_mono.
      * rewrite (tier_above v2), Hafter by lra.
        destruct (Rle_dec (tier_max t) v2); [| lra].
        destruct (Rlt_dec v1 (tier_max t)) as [Hhi1 | Hhi1].
        -- rewrite tier_inside by done. do 2 eexists.
           split; [reflexivity |]. split; [reflexivity |].
           by apply tier_value_bounds.
        -- rewrite (tier_above v1), Hafter by lra.
           destruct (Rle_dec (tier_max t) v1); [| lra]. do 2 eexists.
           split; [reflexivity |]. split; [reflexivity | lra].
  - destruct Hch as (Hlt & Hs & [Hmin Hbase] & Hch').
    assert (Hlast' : last all = last (t' :: rest)) by (by rewrite Hlast).
    destruct (IH t' Hlast' Hch') as (IHlo & IHbase & IHmono).
    split; [| split].
    + intros v Hv. rewrite tier_below by done. apply IHlo. lra.
    + intros v Hv. destruct (Rlt_dec v (tier_max t)) as [Hhi | Hhi].
      * rewrite tier_inside by done. eexists; split; [reflexivity |].
        by apply tier_value_bounds.
      * rewrite tier_above by lra.
        destruct (IHbase v ltac:(lra)) as (x & Hx & Hle).
        exists x. split; [done | lra].
    + intros v1 v2 Hv1 H12.
      destruct (Rlt_dec v2 (tier_max t)) as [Hhi2 | Hhi2].
      * rewrite !tier_inside by lra. do 2 eexists.
        split; [reflexivity |]. split; [reflexivity |].
        by apply tier_value_mono.
      * rewrite (tier_above v2) by lra.
        destruct (Rlt_dec v1 (tier_max t)) as [Hhi1 | Hhi1].
        -- rewrite tier_inside by done.
           destruct (IHbase v2 ltac:(lra)) as (x2 & Hx2 & Hle).
           exists (baseValue t
                   + (v1 - tier_min t) / (tier_max t - tier_min t) * slope t), x2.
           split; [reflexivity |]. split; [done |].
           pose proof (tier_value_bounds v1 t Hv1 Hhi1 Hs). lra.
        -- rewrite (tier_above v1) by lra. apply IHmono; lra.
Qed.

Lemma v3_normalize_None (config : NormalizationSpec) (dflt : R) :
  v3_normalize None config dflt = v3_normalize (Some dflt) config dflt.
Proof. reflexivity. Qed.

Lemma v3_normalize_mono (config : NormalizationSpec) (dflt v1 v2 : R) :
  monotone_spec config → v1 <= v2 →
  ∃ x1 x2, v3_normalize (Some v1) config dflt = Ok x1
           ∧ v3_normalize (Some v2) config dflt = Ok x2
           ∧ x1 <= x2.
Proof.
  intros Hm H12. unfold v3_normalize.
  destruct config as [max | max | max | steps | tiers |]; simpl in Hm.
  - rewrite !truediv_Ok, !bind_Ok by lra. do 2 eexists.
    split; [reflexivity |]. split; [reflexivity |].
    by apply Rmin_1_mono, Rmax_0_mono, Rdiv_mono.
  - rewrite (math_sqrt_Ok (Rmax 0 v1)), (math_sqrt_Ok (Rmax 0 v2))
      by apply Rmax_l.
    rewrite (math_sqrt_Ok (default 1 max)) by lra.
    rewrite !bind_Ok, !truediv_Ok, !bind_Ok by (apply sqrt_pos_ne; lra).
    do 2 eexists. split; [reflexivity |]. split; [reflexivity |].
    apply Rmin_1_mono, Rdiv_mono; [apply sqrt_lt_R0; lra |].
    by apply sqrt_le_1_alt, Rmax_0_mono.
  - assert (Hln : 0 < ln (default 100 max + 1)) by (apply ln_pos; lra).
    destruct (Rle_dec v2 0) as [Hv2 | Hv2].
    { destruct (Rle_dec v1 0); [| lra]. exists 0, 0.
      split; [reflexivity |]. split; [reflexivity | lra]. }
    rewrite (math_log_Ok (v2 + 1)), (math_log_Ok (default 100 max + 1)) by lra.
    rewrite !bind_Ok, (truediv_Ok (ln (v2 + 1))), !bind_Ok by lra.
    destruct (Rle_dec v1 0) as [Hv1 | Hv1].
    { do 2 eexists. split; [reflexivity |]. split; [reflexivity |].
      apply Rmin_1_unit, Rdiv_nonneg; [| done]. left. apply ln_pos. lra. }
    rewrite (math_log_Ok (v1 + 1)) by lra.
    rewrite !bind_Ok, truediv_Ok, !bind_Ok by lra.
    do 2 eexists. split; [reflexivity |]. split; [reflexivity |].
    apply Rmin_1_mono, Rdiv_mono; [done |]. apply ln_mono; lra.
  - rewrite sorted_steps_staircase by done. do 2 eexists.
    split; [reflexivity |]. split; [reflexivity |].
    by apply first_step_mono.
  - destruct tiers as [| t rest]; [done |]. destruct Hm as [Hb Hch].
    destruct (tier_loop_chain (t :: rest) t rest eq_refl Hch)
      as (Hlo & Hbase & Hmono).
    destruct (Rle_lt_dec (tier_min t) v1) as [Hv1 | Hv1].
    + by apply Hmono.
    + rewrite (Hlo v1) by done.
      destruct (Rle_lt_dec (tier_min t) v2) as [Hv2 | Hv2].
      * destruct (Hbase v2 Hv2) as (x2 & Hx2 & Hle).
        exists 0, x2. split; [reflexivity |]. split; [done | lra].
      * rewrite (Hlo v2) by done. exists 0, 0.
        split; [reflexivity |]. split; [reflexivity | lra].
  - do 2 eexists. split; [reflexivity |]. split; [reflexivity |].
    apply Rmax_0_mono, Rmin_1_mono, Rdiv_mono; lra.
Qed.

Lemma normalized_value_mono (p1 p2 : gmap string R) (cap_cc : option R)
    (m : Metric) :
  inputs_le p2 p1 → monotone_spec (normalize m) →
  ∃ x2 x1, normalized_value p2 cap_cc m = Ok x2
           ∧ normalized_value p1 cap_cc m = Ok x1
           ∧ x2 <= x1.
Proof.
  intros Hle Hm. unfold normalized_value, raw_input.
  set (d := default 0 (metric_default m)).
  destruct (Hle (field m)) as [v2 v1 H21 |].
  - assert (Hcap : ∀ cap, Rmin v2 cap <= Rmin v1 cap).
    { intros cap. unfold Rmin. repeat destruct (Rle_dec _ _); lra. }
    case_decide; [destruct cap_cc as [cap |] |];
      by apply v3_normalize_mono.
  - assert (Hd : d <= d) by lra.
    case_decide; [destruct cap_cc as [cap |] |];
      rewrite v3_normalize_None; by apply v3_normalize_mono.
Qed.

Lemma sum_weighted_mono (ms : list Metric) (xs2 xs1 : list R) :
  Forall (fun m => 0 <= weight m) ms → Forall2 Rle xs2 xs1 →
  sum_R (zip_with Rmult (weight <$> ms) xs2)
  <= sum_R (zip_with Rmult (weight <$> ms) xs1).
Proof.
  intros Hw H21. revert ms Hw.
  induction H21 as [| x2 x1 xs2 xs1 Hx _ IH]; intros ms Hw.
  - destruct ms; csimpl; lra.
  - destruct ms as [| m ms]; csimpl; [lra |].
    apply Forall_cons in Hw as [Hm Hw]. specialize (IH ms Hw).
    pose proof (Rmult_le_compat_l _ _ _ Hm Hx). lra.
Qed.

Lemma weighted_average_mono (ms : list Metric) (xs2 xs1 : list R) :
  Forall (fun m => 0 <= weight m) ms → Forall2 Rle xs2 xs1 →
  weighted_average (weight <$> ms) xs2 <= weighted_average (weight <$> ms) xs1.
Proof.
  intros Hw H21. unfold weighted_average.
  destruct (Rlt_dec 0 _); [| lra].
  apply Rdiv_mono; [done |]. by apply sum_weighted_mono.
Qed.

Lemma mapM_normalized_mono (p1 p2 : gmap string R) (cap_cc : option R)
    (ms : list Metric) :
  inputs_le p2 p1 → Forall (fun m => monotone_spec (normalize m)) ms →
  ∃ xs2 xs1, mapM (normalized_value p2 cap_cc) ms = Ok xs2
             ∧ mapM (normalized_value p1 cap_cc) ms = Ok xs1
             ∧ Forall2 Rle xs2 xs1.
Proof.
  intros Hle. induction 1 as [| m ms Hm _ (xs2 & xs1 & H2 & H1 & Hxs)].
  - exists [], []. split; [reflexivity |]. split; [reflexivity | constructor].
  - destruct (normalized_value_mono p1 p2 cap_cc m Hle Hm)
      as (x2 & x1 & E2 & E1 & Hx).
    exists (x2 :: xs2), (x1 :: xs1).
    rewrite !mapM_cons, E2, E1, H2, H1, !bind_Ok.
    split; [reflexivity |]. split; [reflexivity | by constructor].
Qed.

Lemma factor_score_mono (p1 p2 : gmap string R) (cap_cc : option R)
    (f : Factor) :
  inputs_le p2 p1 →
  Forall (fun m => 0 <= weight m ∧ monotone_spec (normalize m)) (metrics f) →
  ∃ s2 s1, factor_score p2 cap_cc f = Ok s2
           ∧ factor_score p1 cap_cc f = Ok s1
           ∧ floor f <= s2 ∧ s2 <= s1.
Proof.
  intros Hle Hms. rewrite !factor_score_evaluate. unfold evaluate_factor.
  destruct (mapM_normalized_mono p1 p2 cap_cc (metrics f) Hle)
    as (xs2 & xs1 & -> & -> & Hxs).
  { eapply Forall_impl; [exact Hms |]. by intros m [_ ?]. }
  rewrite !bind_Ok. do 2 eexists.
  split; [reflexivity |]. split; [reflexivity |].
  split; [apply Rmax_l |].
  apply Rle_max_compat_l, weighted_average_mono; [| done].
  eapply Forall_impl; [exact Hms |]. by intros m [? _].
Qed.

Lemma dict_set_le (k : string) (v2 v1 : R) (d2 d1 : list (string * R)) :
  0 <= v2 <= v1 → dict_le d2 d1 → dict_le (dict_set k v2 d2) (dict_set k v1 d1).
Proof.
  intros Hv. unfold dict_le.
  induction 1 as [| [k2 a2] [k1 a1] d2 d1 [Hk Ha] Hd IH]; simpl.
  - constructor; [done | constructor].
  - simpl in Hk. subst k2. case_decide; constructor; done.
Qed.

Lemma prod_R_mono (d2 d1 : list (string * R)) :
  dict_le d2 d1 →
  0 <= prod_R (dict_values d2) <= prod_R (dict_values d1).
Proof.
  unfold prod_R, dict_values.
  induction 1 as [| a b d2 d1 [_ Hab] _ IH]; csimpl; [lra |]. nra.
Qed.

Lemma dict_fill_le (kvs2 kvs1 d2 d1 : list (string * R)) :
  dict_le kvs2 kvs1 → dict_le d2 d1 →
  dict_le (foldl (fun d kv => dict_set kv.1 kv.2 d) d2 kvs2)
          (foldl (fun d kv => dict_set kv.1 kv.2 d) d1 kvs1).
Proof.
  intros Hkvs. revert d2 d1.
  induction Hkvs as [| [k2 v2] [k1 v1] kvs2 kvs1 [Hk Hv] _ IH];
    intros d2 d1 Hd; simpl; [done |].
  simpl in Hk, Hv. subst k2. apply IH. by apply dict_set_le.
Qed.

Lemma mapM_factor_score_mono (p1 p2 : gmap string R) (cap_cc : option R)
    (fs : list Factor) :
  inputs_le p2 p1 →
  Forall (fun f =>
            0 <= floor f
            ∧ Forall (fun m => 0 <= weight m ∧ monotone_spec (normalize m))
                (metrics f)) fs →
  ∃ ss2 ss1, mapM (factor_score p2 cap_cc) fs = Ok ss2
             ∧ mapM (factor_score p1 cap_cc) fs = Ok ss1
             ∧ dict_le (zip (name <$> fs) ss2) (zip (name <$> fs) ss1).
Proof.
  intros Hle.
  induction 1 as [| f fs [Hfl Hms] _ (ss2 & ss1 & H2 & H1 & Hss)].
  - exists [], []. split; [reflexivity |]. split; [reflexivity | constructor].
  - destruct (factor_score_mono p1 p2 cap_cc f Hle Hms)
      as (s2 & s1 & E2 & E1 & Hlo & H21).
    exists (s2 :: ss2), (s1 :: ss1).
    rewrite !mapM_cons, E2, E1, H2, H1, !bind_Ok.
    split; [reflexivity |]. split; [reflexivity |].
    csimpl. constructor; [| done]. simpl. split; [reflexivity | lra].
Qed.

Lemma profile_score_mono_general (profile : Profile)
    (p1 p2 : gmap string R) (cap_cc : option R) :
  monotone_profile profile → inputs_le p2 p1 →
  ∃ final1 scores1 final2 scores2,
    compute_v3_profile_score p1 profile cap_cc = Ok (final1, scores1)
    ∧ compute_v3_profile_score p2 profile cap_cc = Ok (final2, scores2)
    ∧ final2 <= final1.
Proof.
  intros Hprof Hle. rewrite !compute_v3_profile_score_evaluate.
  destruct (mapM_factor_score_mono p1 p2 cap_cc (factors profile) Hle Hprof)
    as (ss2 & ss1 & -> & -> & Hss).
  rewrite !bind_Ok. cbn zeta. do 4 eexists.
  split; [reflexivity |]. split; [reflexivity |].
  assert (Hd : dict_le (dict_of_list (zip (name <$> factors profile) ss2))
                       (dict_of_list (zip (name <$> factors profile) ss1))).
  { unfold dict_of_list. apply dict_fill_le; [done | constructor]. }
  apply prod_R_mono in Hd. lra.
Qed.

Lemma V3_PROFILES_monotone : Forall monotone_profile V3_PROFILES.
Proof.
  unfold V3_PROFILES, monotone_profile.
  repeat first [ apply Forall_nil_2 | apply Forall_cons_2 | split
               | progress cbn ];
    lra.
Qed.

(** C6.  For every profile of the V3 catalog and every two metric sets that
    differ only in the inputs of one Factor, each input that differs being
    present in both sets and no greater in the second than in the first,
    [compute_v3_profile_score] returns on both sets and the final score on the
    second set is no greater than the final score on the first. *)
Theorem compute_v3_profile_score_monotone (profile : Profile)
    (factor : Factor) (p1 p2 : gmap string R) (cap_cc : option R) :
  profile ∈ V3_PROFILES →
  factor ∈ factors profile →
  (∀ k, k ∉ field <$> metrics factor → p2 !! k = p1 !! k) →
  (∀ k, k ∈ field <$> metrics factor →
        option_Forall2 Rle (p2 !! k) (p1 !! k)) →
  ∃ final1 scores1 final2 scores2,
    compute_v3_profile_score p1 profile cap_cc = Ok (final1, scores1)
    ∧ compute_v3_profile_score p2 profile cap_cc = Ok (final2, scores2)
    ∧ final2 <= final1.
Proof.
  intros Hprof _ Hsame Hless.
  apply profile_score_mono_general.
  - pose proof V3_PROFILES_monotone as Hall.
    rewrite Forall_forall in Hall. by apply Hall.
  - intros k. destruct (decide (k ∈ field <$> metrics factor)) as [Hin | Hout].
    + by apply Hless.
    + rewrite (Hsame k Hout). destruct (p1 !! k); constructor. lra.
Qed.

Lemma compute_v3_profile_score_monotone_witness :
  ∃ final1 scores1 final2 scores2,
    compute_v3_profile_score {[ "ipr_risk_score" := 5 ]} ip_lit_aggressive None
    = Ok (final1, scores1)
    ∧ compute_v3_profile_score {[ "ipr_risk_score" := 2 ]} ip_lit_aggressive
        None
      = Ok (final2, scores2)
    ∧ final2 <= final1.
Proof.
  apply (compute_v3_profile_score_monotone ip_lit_aggressive CollectionYield).
  - unfold V3_PROFILES. set_solver.
  - unfold ip_lit_aggressive. cbn [factors]. set_solver.
  - intros k Hk. rewrite !lookup_singleton_ne; [done | |];
      intros <-; apply Hk; unfold CollectionYield; cbn; set_solver.
  - intros k Hk. unfold CollectionYield in Hk. cbn in Hk.
    repeat (apply elem_of_cons in Hk as [-> | Hk]);
      [ rewrite !lookup_singleton_ne by done; constructor
      | rewrite !lookup_singleton_ne by done; constructor
      | rewrite !lookup_singleton_eq; constructor; lra
      | by apply elem_of_nil in Hk ].
Defined.

(** ** Sparse ratings in the new engine *)

Import NewEngine.

Lemma rated_not_rating (v : pyval) : not_rating v → rated v = None.
Proof.
  destruct v as [x | |]; simpl; [| done | done].
  intros Hx. destruct (Rle_dec 1 x); [| reflexivity].
  destruct (Rle_dec x 5); [| reflexivity]. exfalso. apply Hx. lra.
Qed.

Lemma sparse_step_not_rating (f : string) (v : pyval) (st : state) :
  not_rating v → sparse_step f v st = st.
Proof. intros Hv. unfold sparse_step. by rewrite rated_not_rating. Qed.

Lemma sparse_step_rating (f : string) (x : R) (st : state) :
  1 <= x <= 5 →
  sparse_step f (PNum x) st
  = State (dict_set f (Rmax 0 ((x - 1) / 4)) (metrics st))
          (available_weight st + weight_of f).
Proof.
  intros [H1 H5]. unfold sparse_step, rated.
  destruct (Rle_dec 1 x); [| lra]. destruct (Rle_dec x 5); [| lra].
  reflexivity.
Qed.

Lemma not_rating_zero : not_rating (PNum 0).
Proof. simpl. lra. Qed.

(** The loop body sees the same thing for a field bound to a value outside
    the range and for a field that is not bound at all. *)
Lemma llm_field_step (d : gmap string pyval) (f g : string) (v : pyval)
    (st : state) :
  not_rating v →
  sparse_step g (default (PNum 0) (<[f:=v]> d !! g)) st
  = sparse_step g (default (PNum 0) (delete f d !! g)) st.
Proof.
  intros Hv. destruct (decide (f = g)) as [<- | Hne].
  - rewrite lookup_insert_eq, lookup_delete_eq. simpl.
    rewrite !sparse_step_not_rating; [done | apply not_rating_zero | done].
  - by rewrite lookup_insert_ne, lookup_delete_ne.
Qed.

Lemma llm_fold_ext (d1 d2 : gmap string pyval) (fields : list string)
    (st : state) :
  (∀ g st, sparse_step g (default (PNum 0) (d1 !! g)) st
           = sparse_step g (default (PNum 0) (d2 !! g)) st) →
  foldl (fun st field => sparse_step field (default (PNum 0) (d1 !! field)) st)
        st fields
  = foldl (fun st field => sparse_step field (default (PNum 0) (d2 !! field)) st)
          st fields.
Proof.
  intros Hext. revert st. induction fields as [| g fields IH]; intros st.
  - reflexivity.
  - simpl. rewrite Hext. apply IH.
Qed.

Lemma llm_fold_empty (fields : list string) (st : state) :
  foldl (fun st field =>
           sparse_step field (default (PNum 0) ((∅ : gmap string pyval) !! field)) st)
        st fields
  = st.
Proof.
  induction fields as [| g fields IH]; [reflexivity |].
  simpl. rewrite lookup_empty. simpl.
  rewrite sparse_step_not_rating by apply not_rating_zero. apply IH.
Qed.

Lemma llm_loop_not_rating (d : gmap string pyval) (f : string) (v : pyval)
    (st : state) :
  not_rating v →
  llm_loop (Some (<[f:=v]> d)) st = llm_loop (Some (delete f d)) st.
Proof.
  intros Hv. unfold llm_loop.
  destruct (decide (size (<[f:=v]> d) = 0%nat)) as [E | _].
  { apply map_size_empty_iff in E. by apply insert_non_empty in E. }
  rewrite (llm_fold_ext (<[f:=v]> d) (delete f d))
    by (intros g st'; by apply llm_field_step).
  destruct (decide (size (delete f d) = 0%nat)) as [E | _]; [| reflexivity].
  apply map_size_empty_iff in E. rewrite E. apply llm_fold_empty.
Qed.

(** C10.  In [compute_new_executive] a sparse rated metric (an LLM field,
    [market_relevance], [ipr_score] or [prosecution_score]) enters the score
    only when its value is a number in the closed interval [1, 5]: for every
    supplied value that is not, the function returns the same result as when
    that metric is absent ([None] for the three scalar arguments, no key for
    an LLM field), its weight staying out of [available_weight]; a number in
    [1, 5] does enter, with its weight. *)
Theorem compute_new_executive_out_of_range (round : R → Z → R)
    (candidate : gmap string R) (classification : option (gmap string R))
    (llm : option (gmap string pyval)) (cap_cc : option R)
    (ipr_score prosecution_score market_relevance v : pyval) :
  not_rating v →
  compute_new_executive round candidate classification llm cap_cc
    v prosecution_score market_relevance
  = compute_new_executive round candidate classification llm cap_cc
      PNone prosecution_score market_relevance
  ∧ compute_new_executive round candidate classification llm cap_cc
      ipr_score v market_relevance
    = compute_new_executive round candidate classification llm cap_cc
        ipr_score PNone market_relevance
  ∧ compute_new_executive round candidate classification llm cap_cc
      ipr_score prosecution_score v
    = compute_new_executive round candidate classification llm cap_cc
        ipr_score prosecution_score PNone
  ∧ (∀ d f, f ∈ LLM_FIELDS →
       compute_new_executive round candidate classification
         (Some (<[f:=v]> d)) cap_cc ipr_score prosecution_score
         market_relevance
       = compute_new_executive round candidate classification
           (Some (delete f d)) cap_cc ipr_score prosecution_score
           market_relevance)
  ∧ (∀ f st, sparse_step f v st = st)
  ∧ (∀ f x st, 1 <= x <= 5 →
       sparse_step f (PNum x) st
       = State (dict_set f (Rmax 0 ((x - 1) / 4)) (metrics st))
               (available_weight st + weight_of f)).
Proof.
  intros Hv. unfold compute_new_executive.
  destruct (math_sqrt _) as [root | e]; [cbn [mbind py_bind]; cbn zeta |].
  - repeat split.
    + by rewrite !(sparse_step_not_rating _ v), !(sparse_step_not_rating _ PNone).
    + by rewrite !(sparse_step_not_rating _ v), !(sparse_step_not_rating _ PNone).
    + by rewrite !(sparse_step_not_rating _ v), !(sparse_step_not_rating _ PNone).
    + intros d f _. by rewrite (llm_loop_not_rating d f v).
    + intros f st. by apply sparse_step_not_rating.
    + intros f x st Hx. by apply sparse_step_rating.
  - repeat split.
    + intros f st. by apply sparse_step_not_rating.
    + intros f x st Hx. by apply sparse_step_rating.
Qed.

Lemma compute_new_executive_out_of_range_witness :
  compute_new_executive (fun x _ => x) ∅ None None None (PNum 7) PNone PNone
  = compute_new_executive (fun x _ => x) ∅ None None None PNone PNone PNone
  ∧ compute_new_executive (fun x _ => x) ∅ None
      (Some (<["validity_score" := PNum 9]> {[ "claim_breadth" := PNum 4 ]}))
      None PNone PNone PNone
    = compute_new_executive (fun x _ => x) ∅ None
        (Some (delete "validity_score" {[ "claim_breadth" := PNum 4 ]}))
        None PNone PNone PNone.
Proof.
  split.
  - apply (compute_new_executive_out_of_range (fun x _ => x) ∅ None None None
             PNone PNone PNone (PNum 7)).
    simpl. lra.
  - apply (compute_new_executive_out_of_range (fun x _ => x) ∅ None None None
             PNone PNone PNone (PNum 9)); [simpl; lra |].
    unfold LLM_FIELDS. set_solver.
Defined.

(** ** Overlap at a cutoff *)

Import Ranking.

Lemma size_list_to_set_le (l : list string) :
  (size (list_to_set l : gset string) <= length l)%nat.
Proof.
  induction l as [| x l IH].
  - change (list_to_set [] : gset string) with (∅ : gset string).
    rewrite size_empty. simpl. lia.
  - change (list_to_set (x :: l) : gset string)
      with ({[x]} ∪ list_to_set l : gset string).
    rewrite size_union_alt, size_singleton. simpl length.
    pose proof (subseteq_size ((list_to_set l : gset string) ∖ {[x]})
                  (list_to_set l) ltac:(apply subseteq_difference_l; done)).
    lia.
Qed.

Lemma size_list_to_set_NoDup (l : list string) :
  size (list_to_set l : gset string) = length l → NoDup l.
Proof.
  induction l as [| x l IH]; intros Hsize; [constructor |].
  change (list_to_set (x :: l) : gset string)
    with ({[x]} ∪ list_to_set l : gset string) in Hsize.
  simpl length in Hsize.
  pose proof (size_list_to_set_le l) as Hle.
  destruct (decide (x ∈ l)) as [Hin | Hnin].
  - assert (Heq : ({[x]} ∪ list_to_set l : gset string) = list_to_set l)
      by (apply subseteq_union_1_L, singleton_subseteq_l;
          by apply elem_of_list_to_set).
    rewrite Heq in Hsize. lia.
  - rewrite size_union, size_singleton in Hsize by set_solver.
    constructor; [done |]. apply IH. lia.
Qed.

(** C9 as stated fails for a list that repeats an id among its first [k]
    entries: the function counts the distinct ids, so [["a"; "a"]] against
    itself at cutoff 2 (which is [<= |A|]) gives the overlap count 1. *)
Lemma overlap_at_cutoff_repeated_ids :
  (2 <= length ["a"; "a"])%nat
  ∧ overlap_at_cutoff ["a"; "a"] ["a"; "a"] 2 = (1%nat, 2%nat)
  ∧ (overlap_at_cutoff ["a"; "a"] ["a"; "a"] 2).1 ≠ 2%nat.
Proof.
  assert (Hone : overlap_at_cutoff ["a"; "a"] ["a"; "a"] 2 = (1%nat, 2%nat))
    by (vm_compute; reflexivity).
  split; [simpl; lia |]. split; [exact Hone |]. rewrite Hone. simpl. lia.
Qed.

(** C9, amended.  For every ranked id list [A] that holds each id once and
    every cutoff [k <= |A|], [overlap_at_cutoff(A, A, k)] returns the overlap
    count [k]; for any list [A] and [k <= |A|] the count is [k] exactly when
    the first [k] entries of [A] are pairwise distinct; and for all lists
    [A], [B] (with or without repeated ids) and every cutoff [k], the
    returned overlap count is at most [k], the second component being [k]
    itself. *)
Theorem overlap_at_cutoff_bounds :
  (∀ (A : list string) (k : nat),
     NoDup A → (k <= length A)%nat → overlap_at_cutoff A A k = (k, k))
  ∧ (∀ (A B : list string) (k : nat),
       ((overlap_at_cutoff A B k).1 <= k)%nat
       ∧ (overlap_at_cutoff A B k).2 = k)
  ∧ (∀ (A : list string) (k : nat),
       (k <= length A)%nat →
       (overlap_at_cutoff A A k).1 = k ↔ NoDup (take k A)).
Proof.
  split; [| split].
  - intros A k Hnd Hk. unfold overlap_at_cutoff. f_equal.
    rewrite intersection_idemp_L, size_list_to_set.
    + by apply length_take_le.
    + eapply sublist_NoDup; [exact Hnd | apply sublist_take].
  - intros A B k. unfold overlap_at_cutoff. simpl. split; [| reflexivity].
    etrans; [apply subseteq_size, intersection_subseteq_l |].
    etrans; [apply size_list_to_set_le |].
    rewrite length_take. lia.
  - intros A k Hk. unfold overlap_at_cutoff. simpl.
    rewrite intersection_idemp_L. split.
    + intros Hsize. apply size_list_to_set_NoDup.
      rewrite Hsize. symmetry. by apply length_take_le.
    + intros Hnd. rewrite size_list_to_set by done. by apply length_take_le.
Qed.

Lemma overlap_at_cutoff_bounds_witness :
  overlap_at_cutoff ["US1"; "US2"; "US3"] ["US1"; "US2"; "US3"] 2 = (2%nat, 2%nat)
  ∧ ((overlap_at_cutoff ["US1"; "US1"; "US3"] ["US1"; "US1"; "US3"] 1).1 = 1%nat
     ↔ NoDup (take 1 ["US1"; "US1"; "US3"])).
Proof.
  pose proof overlap_at_cutoff_bounds as (Hself & _ & Hiff).
  split.
  - apply Hself.
    + apply (bool_decide_unpack (NoDup ["US1"; "US2"; "US3"])). exact I.
    + simpl. lia.
  - apply Hiff. simpl. lia.
Defined.

(** ** Rank correlation *)

Lemma sum_Z_app (l1 l2 : list Z) :
  sum_Z (l1 ++ l2) = (sum_Z l1 + sum_Z l2)%Z.
Proof.
  unfold sum_Z. induction l1 as [| x l1 IH]; simpl; [reflexivity |].
  rewrite IH. lia.
Qed.

Lemma sum_Z_ext {A : Type} (f g : A → Z) (l : list A) :
  Forall (fun x => f x = g x) l → sum_Z (f <$> l) = sum_Z (g <$> l).
Proof.
  unfold sum_Z. induction 1 as [| x l Hx _ IH]; csimpl; [reflexivity |].
  by rewrite Hx, IH.
Qed.

Lemma sum_Z_diag (l : list Z) :
  sum_Z ((fun ab : Z * Z => (ab.1 - ab.2) ^ 2)%Z <$> zip l l) = 0%Z.
Proof.
  unfold sum_Z. induction l as [| x l IH]; csimpl; [reflexivity |].
  rewrite IH. simpl. lia.
Qed.

Lemma sum_squares_closed (c : Z) (n : nat) :
  (3 * sum_Z ((fun i => (2 * Z.of_nat i - c) ^ 2) <$> seq 0 n)
   = 2 * (Z.of_nat n - 1) * Z.of_nat n * (2 * Z.of_nat n - 1)
     - 6 * c * Z.of_nat n * (Z.of_nat n - 1)
     + 3 * Z.of_nat n * c ^ 2)%Z.
Proof.
  induction n as [| n IH].
  - simpl. lia.
  - rewrite seq_S, fmap_app, sum_Z_app. simpl seq. csimpl.
    rewrite Z.mul_add_distr_l, IH, Nat2Z.inj_succ. ring.
Qed.

Lemma reverse_consecutive_ranks (first : Z) (n : nat) :
  reverse (consecutive_ranks first n)
  = (fun i => first + Z.of_nat (n - 1 - i))%Z <$> seq 0 n.
Proof.
  unfold consecutive_ranks. apply list_eq. intros i.
  destruct (decide (i < n)%nat) as [Hi | Hi].
  - rewrite reverse_lookup by (rewrite length_fmap, length_seq; lia).
    rewrite length_fmap, length_seq, !list_lookup_fmap.
    rewrite !lookup_seq_lt by lia. simpl. do 2 f_equal. lia.
  - rewrite !lookup_ge_None_2; [done | |].
    + rewrite length_fmap, length_seq. lia.
    + rewrite length_reverse, length_fmap, length_seq. lia.
Qed.

Lemma reversal_d_sq (first : Z) (n : nat) :
  (3 * sum_Z ((fun ab : Z * Z => (ab.1 - ab.2) ^ 2)
                <$> zip (consecutive_ranks first n)
                        (reverse (consecutive_ranks first n)))
   = Z.of_nat n * (Z.of_nat n ^ 2 - 1))%Z.
Proof.
  rewrite reverse_consecutive_ranks. unfold consecutive_ranks.
  rewrite zip_with_fmap_l, zip_with_fmap_r, zip_with_diag.
  rewrite <- list_fmap_compose.
  rewrite (sum_Z_ext _ (fun i => (2 * Z.of_nat i - (Z.of_nat n - 1)) ^ 2)%Z).
  - rewrite sum_squares_closed. ring.
  - apply Forall_forall. intros i Hi. apply elem_of_seq in Hi. simpl.
    f_equal. lia.
Qed.

Lemma Q_ratio (k D : Z) :
  (0 < D)%Z → Qeq (inject_Z (k * D) / inject_Z D) (inject_Z k).
Proof.
  intros HD. rewrite inject_Z_mult. field.
  unfold Qeq. simpl. lia.
Qed.

Lemma spearman_divisor_pos (n : Z) : (2 <= n)%Z → (0 < n * (n ^ 2 - 1))%Z.
Proof. intros Hn. nia. Qed.

(** C8 as stated fails for vectors shorter than 2, where [spearman] returns
    0.0, and for a rank vector that is not in ascending or descending order:
    [2, 1, 3] against its reversal [3, 1, 2] gives 0.5. *)
Lemma spearman_short_or_unsorted :
  Qeq (spearman [] []) 0
  ∧ ¬ Qeq (spearman [] []) 1
  ∧ Qeq (spearman [7%Z] [7%Z]) 0
  ∧ reverse [2; 1; 3]%Z = [3; 1; 2]%Z
  ∧ Qeq (spearman [2; 1; 3]%Z (reverse [2; 1; 3]%Z)) (1 # 2)
  ∧ ¬ Qeq (spearman [2; 1; 3]%Z (reverse [2; 1; 3]%Z)) (-1).
Proof.
  repeat split; try reflexivity; intros H; vm_compute in H; discriminate.
Qed.

(** C8, amended.  For every rank-position vector [R] of length at least 2,
    [spearman(R, R)] is 1; when the first vector has fewer than 2 entries
    [spearman] returns 0; and for the vector of consecutive rank positions
    [first, first + 1, ..., first + n - 1] with [n >= 2], [spearman] of the
    vector against its exact reversal is -1; where, for a first vector of
    [n >= 2] entries, [spearman] is [1 - 6 * sum d_i^2 / (n * (n^2 - 1))]. *)
Theorem spearman_identity_reversal :
  (∀ ranks : list Z,
     (2 <= length ranks)%nat → Qeq (spearman ranks ranks) 1)
  ∧ (∀ (first : Z) (n : nat),
       (2 <= n)%nat →
       Qeq (spearman (consecutive_ranks first n)
                     (reverse (consecutive_ranks first n)))
           (-1))
  ∧ (∀ ranks_a ranks_b : list Z,
       (length ranks_a < 2)%nat → spearman ranks_a ranks_b = 0%Q)
  ∧ (∀ ranks_a ranks_b : list Z,
       (2 <= length ranks_a)%nat →
       spearman ranks_a ranks_b
       = (1 - inject_Z (6 * sum_Z ((fun ab => (ab.1 - ab.2) ^ 2)%Z
                                     <$> zip ranks_a ranks_b))
              / inject_Z (Z.of_nat (length ranks_a)
                          * (Z.of_nat (length ranks_a) ^ 2 - 1)))%Q).
Proof.
  split; [| split; [| split]].
  - intros ranks Hlen. unfold spearman.
    destruct (Z.ltb_spec (Z.of_nat (length ranks)) 2) as [| _]; [lia |].
    rewrite sum_Z_diag, Z.mul_0_r.
    unfold Qdiv. rewrite Qmult_0_l. reflexivity.
  - intros first n Hn. unfold spearman.
    assert (Hlen : length (consecutive_ranks first n) = n)
      by (unfold consecutive_ranks; by rewrite length_fmap, length_seq).
    rewrite Hlen.
    destruct (Z.ltb_spec (Z.of_nat n) 2) as [| _]; [lia |].
    pose proof (reversal_d_sq first n) as Hd.
    set (d_sq := sum_Z _) in *.
    replace (6 * d_sq)%Z with (2 * (Z.of_nat n * (Z.of_nat n ^ 2 - 1)))%Z
      by lia.
    rewrite Q_ratio by (apply spearman_divisor_pos; lia).
    reflexivity.
  - intros ranks_a ranks_b Hlen. unfold spearman.
    destruct (Z.ltb_spec (Z.of_nat (length ranks_a)) 2) as [_ |]; [done | lia].
  - intros ranks_a ranks_b Hlen. unfold spearman.
    destruct (Z.ltb_spec (Z.of_nat (length ranks_a)) 2) as [| _]; [lia | done].
Qed.

Lemma spearman_identity_reversal_witness :
  Qeq (spearman [3; 1; 2]%Z [3; 1; 2]%Z) 1
  ∧ Qeq (spearman (consecutive_ranks 1 4)
                  (reverse (consecutive_ranks 1 4)))
        (-1)
  ∧ spearman [7%Z] [9%Z] = 0%Q
  ∧ spearman [1; 2; 3]%Z [2; 1; 3]%Z
    = (1 - inject_Z (6 * sum_Z ((fun ab => (ab.1 - ab.2) ^ 2)%Z
                                  <$> zip [1; 2; 3]%Z [2; 1; 3]%Z))
           / inject_Z (Z.of_nat (length [1; 2; 3]%Z)
                       * (Z.of_nat (length [1; 2; 3]%Z) ^ 2 - 1)))%Q.
Proof.
  pose proof spearman_identity_reversal as (Hsame & Hrev & Hshort & Hformula).
  split; [| split; [| split]].
  - apply Hsame. simpl. lia.
  - apply Hrev. lia.
  - apply Hshort. simpl. lia.
  - apply Hformula. simpl. lia.
Defined.

(** * Further properties of the scoring code *)

(** ** The competitor-citation cap *)

Lemma sqrt_norm_one (v m : R) : 0 < m → m <= v → sqrt_norm v m = 1.
Proof.
  intros Hm Hv. unfold sqrt_norm. destruct (Rle_dec v 0); [lra |].
  assert (1 <= sqrt v / sqrt m).
  { apply (Rmult_le_reg_r (sqrt m)); [by apply sqrt_lt_R0 |].
    unfold Rdiv. rewrite Rmult_assoc, Rinv_l by (by apply sqrt_pos_ne).
    rewrite Rmult_1_l, Rmult_1_r. by apply sqrt_le_1_alt. }
  by apply Rmin_left.
Qed.

Lemma sqrt_norm_cap (cc cap m : R) :
  0 < m → m <= cap → sqrt_norm (Rmin cc cap) m = sqrt_norm cc m.
Proof.
  intros Hm Hcap. destruct (Rle_lt_dec cc cap) as [Hle | Hlt].
  - by rewrite Rmin_left.
  - rewrite Rmin_right by lra. rewrite !sqrt_norm_one by lra. reflexivity.
Qed.

Lemma evaluate_additive_cap (patent weights : gmap string R) (cap : R) :
  50 <= cap →
  evaluate_additive patent weights (Some cap)
  = evaluate_additive patent weights None.
Proof.
  intros Hcap. unfold evaluate_additive, contributions.
  assert (E : always_present_contributions patent weights (Some cap)
              = always_present_contributions patent weights None).
  { unfold always_present_contributions, V2_ALWAYS_PRESENT. csimpl.
    do 2 f_equal. unfold normalized, raw_of.
    rewrite !decide_True by done. apply sqrt_norm_cap; lra. }
  by rewrite E.
Qed.

Lemma old_v2_loop_cap (patent : gmap string R) (cap : R)
    (profiles : list (string * gmap string R)) (scores : list (string * R)) :
  50 <= cap →
  old_v2_loop patent (Some cap) profiles scores
  = old_v2_loop patent None profiles scores.
Proof.
  intros Hcap. revert scores.
  induction profiles as [| [name weights] rest IH]; intros scores;
    [reflexivity |].
  cbn [old_v2_loop]. rewrite !v2_base_score_evaluate, !bind_Ok.
  rewrite evaluate_additive_cap by done. apply IH.
Qed.

(** X1.  A competitor-citation cap of at least 50 changes nothing in the old
    V2 formula: the square-root normalisation already saturates at 50
    citations, so [v2_base_score] and [compute_old_v2] return with the cap
    exactly what they return without it. *)
Theorem v2_cap_saturated (patent weights : gmap string R) (cap : R) :
  50 <= cap →
  v2_base_score patent weights (Some cap) = v2_base_score patent weights None
  ∧ compute_old_v2 patent (Some cap) = compute_old_v2 patent None.
Proof.
  intros Hcap. split.
  - rewrite !v2_base_score_evaluate. f_equal. by apply evaluate_additive_cap.
  - unfold compute_old_v2. by rewrite old_v2_loop_cap.
Qed.

Lemma v2_cap_saturated_witness :
  v2_base_score {[ "competitor_citations" := 400 ]}
    {[ "competitor_citations" := 0.25 ]} (Some 100)
  = v2_base_score {[ "competitor_citations" := 400 ]}
      {[ "competitor_citations" := 0.25 ]} None.
Proof.
  apply (v2_cap_saturated {[ "competitor_citations" := 400 ]}
           {[ "competitor_citations" := 0.25 ]} 100).
  lra.
Defined.

(** ** The new engine *)

Lemma Rmin_1_cap (cc cap : R) :
  20 <= cap → Rmin 1 (Rmin cc cap / 20) = Rmin 1 (cc / 20).
Proof.
  intros Hcap. unfold Rmin.
  repeat destruct (Rle_dec _ _); lra.
Qed.

(** X2.  A competitor-citation cap of at least 20 changes nothing in the new
    engine's executive score: [cc / 20] is already cut off at 1. *)
Theorem new_executive_cap_saturated (round : R → Z → R)
    (candidate : gmap string R) (classification : option (gmap string R))
    (llm : option (gmap string pyval))
    (ipr_score prosecution_score market_relevance : pyval) (cap : R) :
  20 <= cap →
  compute_new_executive round candidate classification llm (Some cap)
    ipr_score prosecution_score market_relevance
  = compute_new_executive round candidate classification llm None
      ipr_score prosecution_score market_relevance.
Proof.
  intros Hcap. unfold compute_new_executive.
  by rewrite Rmin_1_cap.
Qed.

Lemma new_executive_cap_saturated_witness :
  compute_new_executive (fun x _ => x) ∅
    (Some {[ "competitor_citations" := 250 ]}) None (Some 100)
    PNone PNone PNone
  = compute_new_executive (fun x _ => x) ∅
      (Some {[ "competitor_citations" := 250 ]}) None None
      PNone PNone PNone.
Proof.
  apply (new_executive_cap_saturated (fun x _ => x) ∅
           (Some {[ "competitor_citations" := 250 ]}) None
           PNone PNone PNone 100).
  lra.
Defined.

(** X3.  [compute_new_executive] stops with [ValueError] (from
    [math.sqrt]) exactly when the candidate's forward-citation count is
    negative; for every other input it returns a rounded score. *)
Theorem new_executive_raises (round : R → Z → R)
    (candidate : gmap string R) (classification : option (gmap string R))
    (llm : option (gmap string pyval)) (cap_cc : option R)
    (ipr_score prosecution_score market_relevance : pyval) :
  let fc := default 0 (candidate !! "forward_citations") in
  (fc < 0 ↔
   compute_new_executive round candidate classification llm cap_cc
     ipr_score prosecution_score market_relevance = Raise ValueError)
  ∧ (0 <= fc ↔
     ∃ x, compute_new_executive round candidate classification llm cap_cc
            ipr_score prosecution_score market_relevance = Ok (round x 2%Z)).
Proof.
  intros fc. unfold compute_new_executive. fold fc. unfold math_sqrt.
  destruct (Rlt_dec fc 0) as [Hneg | Hpos]; cbn [mbind py_bind].
  - split; split; try done; try lra.
    intros [x Hx]. discriminate.
  - split; split; try done; try lra.
    intros _. eexists. reflexivity.
Qed.

Lemma new_executive_raises_witness :
  compute_new_executive (fun x _ => x) {[ "forward_citations" := -1 ]}
    None None None PNone PNone PNone
  = Raise ValueError.
Proof.
  apply (new_executive_raises (fun x _ => x)
           {[ "forward_citations" := -1 ]} None None None PNone PNone PNone).
  rewrite lookup_singleton_eq. simpl. lra.
Defined.

Import NewEngineInvariant.

Lemma new_weights_nonneg (k : string) : 0 <= NewEngine.weight_of k.
Proof.
  unfold NewEngine.weight_of.
  destruct (NewEngine.weights !! k) as [w |] eqn:E; simpl; [| lra].
  revert k w E. change (map_Forall (fun _ w => 0 <= w) NewEngine.weights).
  unfold NewEngine.weights. rewrite !list_to_map_cons, list_to_map_nil.
  repeat (apply map_Forall_insert_2; [simpl; lra |]).
  apply map_Forall_empty.
Qed.

Lemma dict_set_weight (k : string) (v : R) (d : list (string * R)) :
  sum_R (NewEngine.weight_of <$> (dict_set k v d).*1)
  <= sum_R (NewEngine.weight_of <$> d.*1) + NewEngine.weight_of k.
Proof.
  pose proof (new_weights_nonneg k) as Hk.
  induction d as [| [k' v'] d IH]; csimpl.
  - lra.
  - case_decide as E; csimpl.
    + subst k'. lra.
    + lra.
Qed.

Lemma sparse_step_bounded (f : string) (v : pyval) (st : NewEngine.state) :
  bounded_state st → bounded_state (sparse_step f v st).
Proof.
  intros (Hm & Hpos & Hsum). unfold sparse_step.
  destruct (rated v) as [x |] eqn:E; [| done].
  assert (Hx : 1 <= x <= 5).
  { destruct v as [y | |]; simpl in E; try done.
    destruct (Rle_dec 1 y); [| done]. destruct (Rle_dec y 5); [| done].
    injection E as <-. lra. }
  pose proof (new_weights_nonneg f) as Hf.
  split; [| split]; cbn [NewEngine.metrics NewEngine.available_weight].
  - apply dict_set_Forall; [| done]. simpl.
    unfold Rmax. destruct (Rle_dec _ _); lra.
  - lra.
  - pose proof (dict_set_weight f (Rmax 0 ((x - 1) / 4)) (NewEngine.metrics st)).
    lra.
Qed.

Lemma llm_loop_bounded (llm : option (gmap string pyval))
    (st : NewEngine.state) :
  bounded_state st → bounded_state (llm_loop llm st).
Proof.
  intros Hst. unfold llm_loop. destruct llm as [d |]; [| done].
  case_decide; [done |].
  revert st Hst. induction LLM_FIELDS as [| f fs IH]; intros st Hst; [done |].
  simpl. apply IH. by apply sparse_step_bounded.
Qed.

Lemma weighted_metrics_bounds (ms : list (string * R)) :
  Forall (fun kv : string * R => 0 <= kv.2 <= 1) ms →
  0 <= sum_R ((fun kv => kv.2 * NewEngine.weight_of kv.1) <$> ms)
    <= sum_R (NewEngine.weight_of <$> ms.*1).
Proof.
  induction 1 as [| [k v] ms Hv _ IH]; csimpl; [lra |].
  pose proof (new_weights_nonneg k). simpl in Hv. nra.
Qed.

(** X4.  For non-negative counts, years and cap, the executive score of the
    new engine is, before rounding, [100 * base * year_mult] with [base] a
    weighted average in [0,1] and [year_mult] in [0.3, 1]: it lies in
    [0, 100], and every sparse metric that enters keeps it there. *)
Theorem new_executive_range (round : R → Z → R)
    (candidate : gmap string R) (classification : option (gmap string R))
    (llm : option (gmap string pyval)) (cap_cc : option R)
    (ipr_score prosecution_score market_relevance : pyval) :
  0 <= classification_get classification "competitor_citations" →
  0 <= classification_get classification "competitor_count" →
  0 <= default 0 (candidate !! "forward_citations") →
  0 <= default 0 (candidate !! "remaining_years") →
  (∀ cap, cap_cc = Some cap → 0 <= cap) →
  ∃ base year_mult,
    0 <= base <= 1 ∧ 0.3 <= year_mult <= 1
    ∧ 0 <= base * year_mult * 100 <= 100
    ∧ compute_new_executive round candidate classification llm cap_cc
        ipr_score prosecution_score market_relevance
      = Ok (round (base * year_mult * 100) 2%Z).
Proof.
  intros Hcc Hcount Hfc Hyears Hcap. unfold compute_new_executive.
  rewrite math_sqrt_Ok, bind_Ok by done. cbn zeta.
  set (cc := match cap_cc with
             | Some cap =>
                 Rmin (classification_get classification "competitor_citations") cap
             | None => classification_get classification "competitor_citations"
             end).
  assert (Hcc' : 0 <= cc).
  { unfold cc. destruct cap_cc as [cap |]; [| done].
    apply Rmin_glb; [done | by apply Hcap]. }
  set (st0 := NewEngine.State _ _).
  assert (H0 : bounded_state st0).
  { unfold st0. split; [| split];
      cbn [NewEngine.metrics NewEngine.available_weight].
    - repeat (apply Forall_cons_2;
                [simpl; apply Rmin_1_unit, Rdiv_nonneg;
                 first [lra | apply sqrt_pos] |]).
      apply Forall_nil_2.
    - csimpl. change (0 < 0.25 + (0.17 + (0.13 + (0.08 + 0)))). lra.
    - lra. }
  set (st := sparse_step "prosecution_quality_score" _ _).
  assert (Hst : bounded_state st).
  { unfold st. do 3 apply sparse_step_bounded. by apply llm_loop_bounded. }
  destruct Hst as (Hm & Hpos & Hsum).
  destruct (Rlt_dec 0 (NewEngine.available_weight st)); [| lra].
  pose proof (weighted_metrics_bounds _ Hm) as [HS0 HS1].
  set (S := sum_R ((fun kv : string * R => kv.2 * NewEngine.weight_of kv.1)
                     <$> NewEngine.metrics st)) in *.
  assert (Hbase : 0 <= S * (1 / NewEngine.available_weight st) <= 1).
  { split.
    - apply Rmult_le_pos; [done |]. apply Rdiv_nonneg; lra.
    - apply (Rmult_le_reg_r (NewEngine.available_weight st)); [done |].
      unfold Rdiv. rewrite Rmult_assoc, Rmult_1_l, Rinv_l by lra. lra. }
  assert (Hym : 0 <= float_pow
                       (Rmin 1 (Rmax 0 (default 0 (candidate !! "remaining_years")) / 15))
                       0.8 <= 1).
  { apply float_pow_unit; [lra |].
    apply Rmin_1_unit, Rdiv_nonneg; [apply Rmax_l | lra]. }
  do 2 eexists. split; [exact Hbase |].
  split; [| split; [| reflexivity]]; [lra | nra].
Qed.

Lemma new_executive_range_witness :
  ∃ base year_mult,
    0 <= base <= 1 ∧ 0.3 <= year_mult <= 1
    ∧ 0 <= base * year_mult * 100 <= 100
    ∧ compute_new_executive (fun x _ => x) {[ "remaining_years" := 4 ]}
        None None None PNone (PNum 5) PNone
      = Ok (base * year_mult * 100).
Proof.
  apply (new_executive_range (fun x _ => x) {[ "remaining_years" := 4 ]}
           None None None PNone (PNum 5) PNone).
  - simpl. lra.
  - simpl. lra.
  - rewrite lookup_singleton_ne by done. simpl. lra.
  - rewrite lookup_singleton_eq. simpl. lra.
  - intros cap [=].
Defined.

(** ** Range of the old V2 scores *)

Lemma contributions_bounds (cs : list (R * R)) :
  Forall (fun c : R * R => 0 <= c.1 ∧ 0 <= c.2 <= 1) cs →
  0 <= contributed_score cs <= contributed_weight cs.
Proof.
  unfold contributed_score, contributed_weight.
  induction 1 as [| [w n] cs [Hw Hn] _ IH]; csimpl; [lra |].
  simpl in Hw, Hn. nra.
Qed.

Lemma sqrt_norm_unit (v m : R) : 0 < m → 0 <= sqrt_norm v m <= 1.
Proof.
  intros Hm. unfold sqrt_norm. destruct (Rle_dec v 0); [lra |].
  apply Rmin_1_unit, Rdiv_nonneg; [apply sqrt_pos | by apply sqrt_lt_R0].
Qed.

Lemma evaluate_additive_range (patent weights : gmap string R)
    (cap_cc : option R) :
  (∀ f w, weights !! f = Some w → 0 <= w) →
  0 <= default 0 (patent !! "competitor_count") →
  (∀ f raw, f ∈ V2_OPTIONAL_FIELDS → patent !! f = Some raw → 0 <= raw <= 5) →
  0 <= evaluate_additive patent weights cap_cc <= 100.
Proof.
  intros Hw Hcount Hopt.
  assert (Hwf : ∀ f, 0 <= Additive.weight_of weights f).
  { intros f. unfold Additive.weight_of.
    destruct (weights !! f) as [w |] eqn:E; simpl; [by eapply Hw | lra]. }
  assert (Hcs : Forall (fun c : R * R => 0 <= c.1 ∧ 0 <= c.2 <= 1)
                  (contributions patent weights cap_cc)).
  { unfold contributions. apply Forall_app. split.
    - unfold always_present_contributions, V2_ALWAYS_PRESENT.
      repeat (apply Forall_cons_2; [split; [apply Hwf |] |]);
        [| | | | apply Forall_nil_2]; simpl; unfold normalized.
      + rewrite decide_True by done. apply sqrt_norm_unit. lra.
      + rewrite decide_False, decide_True by done.
        unfold raw_of. rewrite decide_False by done.
        apply Rmin_1_unit, Rdiv_nonneg; [done | lra].
      + rewrite !decide_False, decide_True by done. apply sqrt_norm_unit. lra.
      + rewrite !decide_False by done. apply v2_normalize_years_unit.
    - unfold optional_contributions. apply Forall_forall.
      intros [w n] Hin. apply list_elem_of_omap in Hin as (f & Hf & Hsome).
      destruct (patent !! f) as [raw |] eqn:E; simpl in Hsome; [| done].
      injection Hsome as <- <-. simpl. split; [apply Hwf |].
      pose proof (Hopt f raw Hf E). lra. }
  apply contributions_bounds in Hcs. unfold evaluate_additive.
  destruct (Rlt_dec 0 _) as [Hpos |]; [| lra].
  set (S := contributed_score _) in *. set (W := contributed_weight _) in *.
  split.
  - apply Rdiv_nonneg; lra.
  - apply (Rmult_le_reg_r W); [done |].
    unfold Rdiv. rewrite Rmult_assoc, Rinv_l by lra. lra.
Qed.

(** X5.  With non-negative weights, a non-negative competitor count and
    optional ratings between 0 and 5, [v2_base_score] returns a score in
    [0, 100], whatever the citation counts, the remaining years and the
    cap. *)
Theorem v2_base_score_range (patent weights : gmap string R)
    (cap_cc : option R) :
  (∀ f w, weights !! f = Some w → 0 <= w) →
  0 <= default 0 (patent !! "competitor_count") →
  (∀ f raw, f ∈ V2_OPTIONAL_FIELDS → patent !! f = Some raw → 0 <= raw <= 5) →
  ∃ s, v2_base_score patent weights cap_cc = Ok s ∧ 0 <= s <= 100.
Proof.
  intros Hw Hcount Hopt. rewrite v2_base_score_evaluate.
  eexists. split; [reflexivity |]. by apply evaluate_additive_range.
Qed.

Lemma v2_base_score_range_witness :
  ∃ s, v2_base_score {[ "competitor_citations" := 900 ]}
         {[ "competitor_citations" := 0.25 ]} None = Ok s
       ∧ 0 <= s <= 100.
Proof.
  apply v2_base_score_range.
  - intros f w Hf. apply lookup_singleton_Some in Hf as [_ <-]. lra.
  - rewrite lookup_singleton_ne by done. simpl. lra.
  - intros f raw Hf Hraw. apply lookup_singleton_Some in Hraw as [<- _].
    exfalso. unfold V2_OPTIONAL_FIELDS in Hf.
    repeat (apply elem_of_cons in Hf as [Hf | Hf]; [discriminate |]).
    by apply elem_of_nil in Hf.
Defined.

Lemma V2_PROFILES_nonneg :
  Forall (fun p : string * gmap string R =>
            map_Forall (fun (_ : string) w => 0 <= w) p.2) V2_PROFILES.
Proof.
  unfold V2_PROFILES.
  repeat (apply Forall_cons_2;
            [cbn [snd]; rewrite !list_to_map_cons, list_to_map_nil;
             repeat (apply map_Forall_insert_2; [simpl; lra |]);
             apply map_Forall_empty |]).
  apply Forall_nil_2.
Qed.

Lemma old_v2_loop_spec (patent : gmap string R) (cap_cc : option R)
    (profiles : list (string * gmap string R)) (scores : list (string * R)) :
  old_v2_loop patent cap_cc profiles scores
  = Ok (foldl (fun d kv => dict_set kv.1 kv.2 d) scores
          ((fun p : string * gmap string R =>
              (p.1, evaluate_additive patent p.2 cap_cc
                    * v2_year_multiplier
                        (Some (default 0 (patent !! "years_remaining")))))
             <$> profiles)).
Proof.
  revert scores. induction profiles as [| [name weights] rest IH];
    intros scores; [reflexivity |].
  cbn [old_v2_loop]. rewrite v2_base_score_evaluate, bind_Ok, IH.
  reflexivity.
Qed.

Lemma year_multiplier_unit (years : option R) :
  0 <= v2_year_multiplier years <= 1.
Proof.
  destruct years as [y |]; [| simpl; lra].
  destruct (Rle_lt_dec y 0) as [Hy | Hy].
  - unfold v2_year_multiplier. destruct (Rle_dec y 0); lra.
  - pose proof (year_multiplier_range y Hy). lra.
Qed.

(** X6.  For a patent with a non-negative competitor count and optional
    ratings between 0 and 5, [compute_old_v2] returns, without raising, the
    three profile scores (each the base score times the year multiplier),
    their mean as ["unified"], and the year multiplier itself; every score
    lies in [0, 100], the unified score lies between the smallest and the
    largest profile score, and the multiplier lies in [0, 1]. *)
Theorem compute_old_v2_unified (patent : gmap string R) (cap_cc : option R) :
  0 <= default 0 (patent !! "competitor_count") →
  (∀ f raw, f ∈ V2_OPTIONAL_FIELDS → patent !! f = Some raw → 0 <= raw <= 5) →
  ∃ a m c ym,
    compute_old_v2 patent cap_cc
    = Ok [ ("aggressive", a); ("moderate", m); ("conservative", c);
           ("unified", (a + m + c) / 3); ("year_multiplier", ym) ]
    ∧ ym = v2_year_multiplier (Some (default 0 (patent !! "years_remaining")))
    ∧ 0 <= ym <= 1
    ∧ 0 <= a <= 100 ∧ 0 <= m <= 100 ∧ 0 <= c <= 100
    ∧ Rmin a (Rmin m c) <= (a + m + c) / 3 <= Rmax a (Rmax m c).
Proof.
  intros Hcount Hopt.
  set (ym := v2_year_multiplier (Some (default 0 (patent !! "years_remaining")))).
  pose proof (year_multiplier_unit (Some (default 0 (patent !! "years_remaining"))))
    as Hym. fold ym in Hym.
  pose proof V2_PROFILES_nonneg as Hall. unfold V2_PROFILES in Hall.
  apply Forall_cons in Hall as [Ha Hall].
  apply Forall_cons in Hall as [Hm Hall].
  apply Forall_cons in Hall as [Hc _].
  cbn [snd] in Ha, Hm, Hc.
  pose proof (evaluate_additive_range patent _ cap_cc Ha Hcount Hopt) as Ra.
  pose proof (evaluate_additive_range patent _ cap_cc Hm Hcount Hopt) as Rm.
  pose proof (evaluate_additive_range patent _ cap_cc Hc Hcount Hopt) as Rc.
  unfold compute_old_v2. rewrite old_v2_loop_spec, bind_Ok.
  unfold V2_PROFILES. cbn [fmap list_fmap foldl fst snd]. fold ym.
  set (a := evaluate_additive patent _ cap_cc) in *.
  set (m := evaluate_additive patent _ cap_cc) in Rm |- *.
  set (c := evaluate_additive patent _ cap_cc) in Rc |- *.
  exists (a * ym), (m * ym), (c * ym), ym.
  split.
  { repeat (cbn [dict_set]; case_decide; [done |]).
    cbn [dict_set]. unfold dict_values, sum_R. csimpl.
    do 4 f_equal. f_equal. f_equal. lra. }
  split; [reflexivity |]. split; [done |].
  assert (0 <= a * ym <= 100) by nra.
  assert (0 <= m * ym <= 100) by nra.
  assert (0 <= c * ym <= 100) by nra.
  repeat split; try lra.
  - unfold Rmin. repeat destruct (Rle_dec _ _); lra.
  - unfold Rmax. repeat destruct (Rle_dec _ _); lra.
Qed.

Lemma compute_old_v2_unified_witness :
  ∃ a m c ym,
    compute_old_v2 {[ "years_remaining" := 9; "validity_score" := 4 ]} None
    = Ok [ ("aggressive", a); ("moderate", m); ("conservative", c);
           ("unified", (a + m + c) / 3); ("year_multiplier", ym) ]
    ∧ ym = v2_year_multiplier
             (Some (default 0
                      (({[ "years_remaining" := 9; "validity_score" := 4 ]}
                          : gmap string R) !! "years_remaining")))
    ∧ 0 <= ym <= 1
    ∧ 0 <= a <= 100 ∧ 0 <= m <= 100 ∧ 0 <= c <= 100
    ∧ Rmin a (Rmin m c) <= (a + m + c) / 3 <= Rmax a (Rmax m c).
Proof.
  apply compute_old_v2_unified.
  - replace (({[ "years_remaining" := 9; "validity_score" := 4 ]}
                : gmap string R) !! "competitor_count")
      with (@None R) by reflexivity.
    simpl. lra.
  - intros f raw Hf Hraw.
    apply lookup_insert_Some in Hraw as [[<- _] | [_ Hraw]].
    + exfalso. unfold V2_OPTIONAL_FIELDS in Hf.
      repeat (apply elem_of_cons in Hf as [Hf | Hf]; [discriminate |]).
      by apply elem_of_nil in Hf.
    + apply lookup_singleton_Some in Hraw as [_ <-]. lra.
Defined.

(** ** Range of the old V3 scores *)

Import OldV3 Bounded.

Lemma weighted_sum_le (ws xs : list R) :
  Forall (fun w => 0 <= w) ws → Forall unit_interval xs →
  0 <= sum_R (zip_with Rmult ws xs) <= sum_R ws.
Proof.
  intros Hw. revert xs. induction Hw as [| w ws Hw0 Hws IH]; intros xs Hxs.
  - simpl. lra.
  - destruct Hxs as [| x xs Hx Hxs]; csimpl.
    + assert (0 <= sum_R ws).
      { clear -Hws. induction Hws; simpl; [lra |]. unfold sum_R in *. lra. }
      unfold sum_R in *. lra.
    + specialize (IH xs Hxs). unfold unit_interval in Hx.
      unfold sum_R in *. nra.
Qed.

Lemma weighted_average_unit (ws xs : list R) :
  Forall (fun w => 0 <= w) ws → Forall unit_interval xs →
  0 <= weighted_average ws xs <= 1.
Proof.
  intros Hw Hx. unfold weighted_average.
  destruct (Rlt_dec 0 (sum_R ws)) as [Hpos |]; [| lra].
  pose proof (weighted_sum_le ws xs Hw Hx) as [H0 H1]. split.
  - by apply Rdiv_nonneg.
  - apply (Rmult_le_reg_r (sum_R ws)); [done |].
    unfold Rdiv. rewrite Rmult_assoc, Rinv_l by lra. lra.
Qed.

Lemma factor_score_unit (patent : gmap string R) (cap_cc : option R)
    (f : Factor) :
  bounded_factor f →
  ∃ s, factor_score patent cap_cc f = Ok s ∧ floor f <= s <= 1.
Proof.
  intros [Hfl Hms]. rewrite factor_score_evaluate. unfold evaluate_factor.
  destruct (mapM_Ok_Forall (normalized_value patent cap_cc) unit_interval
              (V3.metrics f)) as (norms & -> & Hnorms).
  { eapply Forall_impl; [exact Hms |]. intros m [_ Hm].
    by apply v3_normalize_unit. }
  rewrite bind_Ok. eexists; split; [reflexivity |].
  split; [apply Rmax_l |].
  apply Rmax_lub; [lra |].
  apply weighted_average_unit; [| done].
  apply Forall_fmap. eapply Forall_impl; [exact Hms |]. by intros m [? _].
Qed.

Lemma prod_R_unit (d : list (string * R)) :
  Forall (fun kv : string * R => 0 <= kv.2 <= 1) d →
  0 <= prod_R (dict_values d) <= 1
  ∧ ∀ kv, kv ∈ d → prod_R (dict_values d) <= kv.2.
Proof.
  unfold prod_R, dict_values.
  induction 1 as [| [k v] d Hv _ [IH1 IH2]]; csimpl.
  - split; [lra |]. intros kv Hkv. by apply elem_of_nil in Hkv.
  - simpl in Hv. split; [nra |].
    intros kv Hkv. apply elem_of_cons in Hkv as [-> | Hkv]; simpl; [nra |].
    specialize (IH2 kv Hkv). nra.
Qed.

Lemma mapM_factor_score_unit (patent : gmap string R) (cap_cc : option R)
    (fs : list Factor) :
  Forall bounded_factor fs →
  ∃ scores, mapM (factor_score patent cap_cc) fs = Ok scores
            ∧ Forall (fun kv : string * R => 0 <= kv.2 <= 1)
                (zip (name <$> fs) scores).
Proof.
  induction 1 as [| f fs Hf _ (scores & Hs & Hall)].
  - exists []. split; [reflexivity | constructor].
  - destruct (factor_score_unit patent cap_cc f Hf) as (s & Hfs & Hlo & Hhi).
    exists (s :: scores). rewrite mapM_cons, Hfs, bind_Ok, Hs, bind_Ok.
    split; [reflexivity |]. csimpl. constructor; [| done].
    simpl. destruct Hf as [[Hfl _] _]. lra.
Qed.

Lemma profile_score_in_range (patent : gmap string R)
    (profile : Profile) (cap_cc : option R) :
  bounded_profile profile →
  ∃ final factor_scores,
    compute_v3_profile_score patent profile cap_cc
    = Ok (final, factor_scores)
    ∧ 0 <= final <= 100
    ∧ ∀ n s, (n, s) ∈ factor_scores → 0 <= s <= 1 ∧ final <= 100 * s.
Proof.
  intros Hb. rewrite compute_v3_profile_score_evaluate.
  destruct (mapM_factor_score_unit patent cap_cc _ Hb) as (scores & -> & Hall).
  rewrite bind_Ok. cbn zeta. do 2 eexists. split; [reflexivity |].
  apply (dict_of_list_Forall (fun kv : string * R => 0 <= kv.2 <= 1)) in Hall.
  destruct (prod_R_unit _ Hall) as [Hp Hmin].
  split; [lra |]. intros n s Hin. split.
  - rewrite Forall_forall in Hall. apply (Hall (n, s) Hin).
  - specialize (Hmin (n, s) Hin). simpl in Hmin. lra.
Qed.



(** ** The old V3 consensus score *)

Lemma V3_PROFILES_bounded : Forall bounded_profile V3_PROFILES.
Proof.
  unfold V3_PROFILES, bounded_profile, bounded_factor.
  repeat first [ apply Forall_nil_2 | apply Forall_cons_2 | split
               | progress cbn ];
    first [ lra | discriminate ].
Qed.

Lemma V3_PROFILES_floors :
  Forall (fun p => ∀ f, f ∈ factors p → 0 < floor f) V3_PROFILES.
Proof.
  unfold V3_PROFILES.
  repeat (apply Forall_cons_2;
            [intros f Hf; cbn in Hf;
             repeat (apply elem_of_cons in Hf as [-> | Hf]; [simpl; lra |]);
             by apply elem_of_nil in Hf |]).
  apply Forall_nil_2.
Qed.

Lemma profile_loop_spec (patent : gmap string R) (cap_cc : option R)
    (ps : list Profile) (d : list (string * R)) :
  foldlM (profile_loop patent cap_cc) d ps
  = (scores ← mapM (fun p => r ← compute_v3_profile_score patent p cap_cc;
                             Ok r.1) ps;
     Ok (foldl (fun d kv => dict_set kv.1 kv.2 d) d (zip (V3.id <$> ps) scores))).
Proof.
  revert d. induction ps as [| p ps IH]; intros d; [reflexivity |].
  cbn [foldlM]. rewrite mapM_cons.
  change (profile_loop patent cap_cc d p)
    with (r ← compute_v3_profile_score patent p cap_cc;
          Ok (dict_set (V3.id p) r.1 d)).
  destruct (compute_v3_profile_score patent p cap_cc) as [r | e];
    [| reflexivity].
  rewrite !bind_Ok, IH.
  destruct (mapM _ ps) as [scores | e]; reflexivity.
Qed.

Lemma sum_R_bounds (l : list R) :
  Forall (fun s => 0 < s <= 100) l →
  0 <= sum_R l <= 100 * INR (length l) ∧ (l ≠ [] → 0 < sum_R l).
Proof.
  unfold sum_R. induction 1 as [| s l Hs _ [IH _]].
  - simpl. split; [lra | done].
  - cbn [length foldr]. rewrite S_INR. split; [lra |]. intros _. lra.
Qed.

Lemma compute_old_v3_spec (patent : gmap string R) (cap_cc : option R)
    (scores : list R) :
  mapM (fun p => r ← compute_v3_profile_score patent p cap_cc; Ok r.1)
       V3_PROFILES = Ok scores →
  compute_old_v3 patent cap_cc
  = Ok (zip (V3.id <$> V3_PROFILES) scores
          ++ [("consensus", sum_R scores / 6)])%list.
Proof.
  intros Hs. unfold compute_old_v3. rewrite profile_loop_spec, Hs, bind_Ok.
  assert (Hlen : length scores = 6%nat) by (by apply mapM_length in Hs).
  assert (Hids : (zip (V3.id <$> V3_PROFILES) scores).*1
                 = V3.id <$> V3_PROFILES).
  { apply fst_zip. rewrite length_fmap, Hlen. simpl. lia. }
  rewrite bind_Ok, dict_fill_fresh; cycle 1.
  { rewrite Hids. apply (bool_decide_unpack (NoDup _)). exact I. }
  { intros k _. simpl. apply not_elem_of_nil. }
  rewrite app_nil_l.
  rewrite truediv_Ok by (simpl; lra). rewrite bind_Ok.
  rewrite dict_set_fresh; cycle 1.
  { rewrite Hids. apply (bool_decide_unpack (_ ∉ _)). exact I. }
  replace (INR (length V3_PROFILES)) with 6 by (simpl; lra).
  unfold dict_values. rewrite snd_zip; [reflexivity |].
  rewrite length_fmap, Hlen. simpl. lia.
Qed.

Lemma mapM_profile_scores (patent : gmap string R) (cap_cc : option R)
    (ps : list Profile) :
  Forall bounded_profile ps →
  Forall (fun p => ∀ f, f ∈ factors p → 0 < floor f) ps →
  ∃ scores,
    mapM (fun p => r ← compute_v3_profile_score patent p cap_cc; Ok r.1) ps
    = Ok scores
    ∧ Forall2 (fun p s =>
                 (∃ fs, compute_v3_profile_score patent p cap_cc = Ok (s, fs))
                 ∧ 0 < s <= 100) ps scores.
Proof.
  induction 1 as [| p ps Hp _ IH]; intros Hfl.
  - exists []. split; [reflexivity | constructor].
  - apply Forall_cons in Hfl as [Hpf Hfl].
    destruct (IH Hfl) as (scores & Hs & Hall).
    destruct (profile_score_in_range patent p cap_cc Hp)
      as (final & fs & E & [_ Hhi] & _).
    pose proof (compute_v3_profile_score_pos patent p cap_cc final fs Hpf E).
    exists (final :: scores). rewrite mapM_cons, E, bind_Ok, Hs, bind_Ok.
    split; [reflexivity |]. constructor; [| done]. split; [by exists fs | lra].
Qed.

(** X8.  [compute_old_v3] returns for every patent and every cap, without
    raising: the six catalog profiles' final scores under their ids, each
    strictly between 0 and 100 (100 included), followed by ["consensus"],
    their arithmetic mean, which therefore lies in the same range. *)
Theorem compute_old_v3_consensus (patent : gmap string R)
    (cap_cc : option R) :
  ∃ scores,
    Forall2 (fun p s =>
               (∃ fs, compute_v3_profile_score patent p cap_cc = Ok (s, fs))
               ∧ 0 < s <= 100) V3_PROFILES scores
    ∧ compute_old_v3 patent cap_cc
      = Ok (zip (V3.id <$> V3_PROFILES) scores
              ++ [("consensus", sum_R scores / 6)])%list
    ∧ 0 < sum_R scores / 6 <= 100.
Proof.
  destruct (mapM_profile_scores patent cap_cc V3_PROFILES
              V3_PROFILES_bounded V3_PROFILES_floors) as (scores & Hs & Hall).
  exists scores. split; [done |]. split; [by apply compute_old_v3_spec |].
  assert (Hlen : length scores = 6%nat) by (by apply mapM_length in Hs).
  assert (Hb : Forall (fun s => 0 < s <= 100) scores).
  { clear -Hall. induction Hall as [| p s ps ss [_ Hs] _ IH]; constructor; done. }
  destruct (sum_R_bounds scores Hb) as [[_ Hhi] Hpos].
  rewrite Hlen in Hhi. simpl in Hhi.
  assert (0 < sum_R scores).
  { apply Hpos. intros ->. discriminate. }
  lra.
Qed.

(** X9.  The consensus score does not increase when inputs decrease: for two
    metric sets whose inputs are present together and no greater in the
    second, every profile score and the consensus returned by
    [compute_old_v3] on the second are no greater than on the first. *)
Theorem compute_old_v3_monotone (p1 p2 : gmap string R) (cap_cc : option R) :
  inputs_le p2 p1 →
  ∃ scores1 scores2,
    compute_old_v3 p1 cap_cc
    = Ok (zip (V3.id <$> V3_PROFILES) scores1
            ++ [("consensus", sum_R scores1 / 6)])%list
    ∧ compute_old_v3 p2 cap_cc
      = Ok (zip (V3.id <$> V3_PROFILES) scores2
              ++ [("consensus", sum_R scores2 / 6)])%list
    ∧ Forall2 Rle scores2 scores1
    ∧ sum_R scores2 / 6 <= sum_R scores1 / 6.
Proof.
  intros Hle.
  assert (Hmap : ∀ ps, Forall monotone_profile ps →
            ∃ ss1 ss2,
              mapM (fun p => r ← compute_v3_profile_score p1 p cap_cc; Ok r.1) ps
              = Ok ss1
              ∧ mapM (fun p => r ← compute_v3_profile_score p2 p cap_cc; Ok r.1) ps
                = Ok ss2
              ∧ Forall2 Rle ss2 ss1).
  { induction 1 as [| p ps Hp _ (ss1 & ss2 & H1 & H2 & Hss)].
    - exists [], []. split; [reflexivity |]. split; [reflexivity | constructor].
    - destruct (profile_score_mono_general p p1 p2 cap_cc Hp Hle)
        as (f1 & d1 & f2 & d2 & E1 & E2 & Hf).
      exists (f1 :: ss1), (f2 :: ss2).
      rewrite !mapM_cons, E1, E2, H1, H2, !bind_Ok.
      split; [reflexivity |]. split; [reflexivity | by constructor]. }
  destruct (Hmap V3_PROFILES V3_PROFILES_monotone) as (ss1 & ss2 & H1 & H2 & Hss).
  exists ss1, ss2.
  split; [by apply compute_old_v3_spec |].
  split; [by apply compute_old_v3_spec |].
  split; [done |].
  assert (sum_R ss2 <= sum_R ss1).
  { clear -Hss. unfold sum_R. induction Hss; simpl; lra. }
  lra.
Qed.

Lemma compute_old_v3_monotone_witness :
  ∃ scores1 scores2,
    compute_old_v3 {[ "years_remaining" := 12 ]} None
    = Ok (zip (V3.id <$> V3_PROFILES) scores1
            ++ [("consensus", sum_R scores1 / 6)])%list
    ∧ compute_old_v3 {[ "years_remaining" := 2 ]} None
      = Ok (zip (V3.id <$> V3_PROFILES) scores2
              ++ [("consensus", sum_R scores2 / 6)])%list
    ∧ Forall2 Rle scores2 scores1
    ∧ sum_R scores2 / 6 <= sum_R scores1 / 6.
Proof.
  apply compute_old_v3_monotone.
  intros k. destruct (decide (k = "years_remaining")) as [-> | Hne].
  - rewrite !lookup_singleton_eq. constructor. lra.
  - rewrite !lookup_singleton_ne by done. constructor.
Defined.

(** ** The cap and the old V3 formula *)

Lemma citation_tiers_saturated (config : NormalizationSpec) (v dflt : R) :
  config = CITATIONS_AGGRESSIVE ∨ config = CITATIONS_STANDARD →
  100 <= v →
  v3_normalize (Some v) config dflt = Ok 1.
Proof.
  intros [-> | ->] Hv; unfold v3_normalize; cbn [CITATIONS_AGGRESSIVE
    CITATIONS_STANDARD];
    rewrite !tier_above by (simpl; lra);
    cbn [tier_loop last]; unfold after_tiers; cbn [last tier_max baseValue slope];
    (destruct (Rle_dec _ _); [f_equal; lra | lra]).
Qed.

Lemma normalized_value_cap (patent : gmap string R) (cap : R) (m : Metric) :
  (field m = "competitor_citations" →
   normalize m = CITATIONS_AGGRESSIVE ∨ normalize m = CITATIONS_STANDARD) →
  100 <= cap →
  normalized_value patent (Some cap) m = normalized_value patent None m.
Proof.
  intros Hm Hcap. unfold normalized_value, raw_input.
  case_decide as Hf; [| reflexivity].
  destruct (patent !! field m) as [r |]; [| reflexivity].
  destruct (Rle_lt_dec r cap) as [Hle | Hlt].
  - by rewrite Rmin_left.
  - rewrite Rmin_right by lra.
    rewrite !citation_tiers_saturated by (auto || lra). reflexivity.
Qed.

Lemma V3_PROFILES_citation_tiers : Forall citation_tiers V3_PROFILES.
Proof.
  unfold V3_PROFILES, citation_tiers.
  repeat first [ apply Forall_nil_2 | apply Forall_cons_2 ];
    cbn; intros Hf; first [ discriminate | by left | by right ].
Qed.

Lemma profile_score_cap (patent : gmap string R) (profile : Profile)
    (cap : R) :
  citation_tiers profile → 100 <= cap →
  compute_v3_profile_score patent profile (Some cap)
  = compute_v3_profile_score patent profile None.
Proof.
  intros Hct Hcap. rewrite !compute_v3_profile_score_evaluate.
  rewrite (mapM_ext_Forall (factor_score patent (Some cap))
             (factor_score patent None)); [reflexivity |].
  eapply Forall_impl; [exact Hct |]. intros f Hf. simpl in Hf.
  rewrite !factor_score_evaluate. unfold evaluate_factor.
  rewrite (mapM_ext_Forall (normalized_value patent (Some cap))
             (normalized_value patent None)); [reflexivity |].
  eapply Forall_impl; [exact Hf |]. intros m Hm. by apply normalized_value_cap.
Qed.

(** X10.  A competitor-citation cap of at least 100 changes nothing in the
    old V3 formula: both citation tier tables end at 100 citations, so for
    every catalog profile [compute_v3_profile_score], and with it
    [compute_old_v3], return with the cap exactly what they return without
    it. *)
Theorem v3_cap_saturated (patent : gmap string R) (cap : R) :
  100 <= cap →
  (∀ profile, profile ∈ V3_PROFILES →
     compute_v3_profile_score patent profile (Some cap)
     = compute_v3_profile_score patent profile None)
  ∧ compute_old_v3 patent (Some cap) = compute_old_v3 patent None.
Proof.
  intros Hcap.
  assert (Hall : ∀ profile, profile ∈ V3_PROFILES →
            compute_v3_profile_score patent profile (Some cap)
            = compute_v3_profile_score patent profile None).
  { intros profile Hin. apply profile_score_cap; [| done].
    pose proof V3_PROFILES_citation_tiers as Hct.
    rewrite Forall_forall in Hct. by apply Hct. }
  split; [done |].
  unfold compute_old_v3. rewrite !profile_loop_spec.
  rewrite (mapM_ext_Forall
             (fun p => r ← compute_v3_profile_score patent p (Some cap); Ok r.1)
             (fun p => r ← compute_v3_profile_score patent p None; Ok r.1));
    [reflexivity |].
  apply Forall_forall. intros p Hp. by rewrite Hall.
Qed.

Lemma v3_cap_saturated_witness :
  compute_old_v3 {[ "competitor_citations" := 350 ]} (Some 100)
  = compute_old_v3 {[ "competitor_citations" := 350 ]} None.
Proof.
  apply (v3_cap_saturated {[ "competitor_citations" := 350 ]} 100).
  lra.
Defined.

(** ** Stepped and tiered normalisation *)

Lemma insert_step_elem (s x : Step) (l : list Step) :
  x ∈ insert_step s l ↔ x = s ∨ x ∈ l.
Proof.
  induction l as [| h t IH]; simpl.
  - rewrite list_elem_of_singleton, elem_of_nil. tauto.
  - destruct (Rlt_dec _ _); rewrite !elem_of_cons; [rewrite IH |]; tauto.
Qed.

Lemma sorted_steps_elem (x : Step) (steps : list Step) :
  x ∈ sorted_steps steps ↔ x ∈ steps.
Proof.
  unfold sorted_steps. induction steps as [| s l IH]; simpl; [done |].
  rewrite insert_step_elem, elem_of_cons, IH. tauto.
Qed.

Lemma insert_step_sorted (s : Step) (l : list Step) :
  StronglySorted (fun a b => threshold b <= threshold a) l →
  StronglySorted (fun a b => threshold b <= threshold a) (insert_step s l).
Proof.
  induction 1 as [| h t Hsorted IH Hall]; simpl.
  - repeat constructor.
  - destruct (Rlt_dec (threshold s) (threshold h)) as [Hlt | Hge].
    + constructor; [done |]. apply Forall_forall. intros x Hx.
      apply insert_step_elem in Hx as [-> | Hx]; [lra |].
      rewrite Forall_forall in Hall. by apply Hall.
    + constructor; [by constructor |]. constructor; [lra |].
      eapply Forall_impl; [exact Hall |]. intros x Hx. simpl in Hx. lra.
Qed.

Lemma sorted_steps_sorted (steps : list Step) :
  StronglySorted (fun a b => threshold b <= threshold a) (sorted_steps steps).
Proof.
  unfold sorted_steps. induction steps as [| s l IH]; simpl.
  - constructor.
  - by apply insert_step_sorted.
Qed.

Import SteppedChoice.

Lemma first_step_chosen (v : R) (l : list Step) :
  first_step v l = from_option value 0 (chosen_step v l).
Proof.
  induction l as [| s l IH]; simpl; [reflexivity |].
  by destruct (Rle_dec _ _).
Qed.

Lemma chosen_step_Some (v : R) (l : list Step) (b : Step) :
  chosen_step v l = Some b → b ∈ l ∧ threshold b <= v.
Proof.
  induction l as [| s l IH]; simpl; [done |].
  destruct (Rle_dec _ _) as [Hle | _].
  - intros [= <-]. split; [left | done].
  - intros Hb. destruct (IH Hb). split; [by right | done].
Qed.

Lemma chosen_step_None (v : R) (l : list Step) :
  chosen_step v l = None → Forall (fun s => v < threshold s) l.
Proof.
  induction l as [| s l IH]; simpl; [constructor |].
  destruct (Rle_dec _ _) as [| Hgt]; [done |].
  intros Hnone. constructor; [lra | by apply IH].
Qed.

(** The step chosen after one more step is put in its place in the sorted
    list: the new step when it qualifies and no chosen step has a greater
    threshold. *)
Lemma chosen_step_insert (v : R) (s : Step) (l : list Step) :
  StronglySorted (fun a b => threshold b <= threshold a) l →
  chosen_step v (insert_step s l)
  = match chosen_step v l with
    | Some b =>
        if Rle_dec (threshold s) v
        then if Rle_dec (threshold b) (threshold s) then Some s else Some b
        else Some b
    | None => if Rle_dec (threshold s) v then Some s else None
    end.
Proof.
  induction 1 as [| h t Hsorted IH Hall]; simpl.
  - reflexivity.
  - destruct (Rlt_dec (threshold s) (threshold h)) as [Hlt | Hge]; simpl.
    + destruct (Rle_dec (threshold h) v) as [Hh | Hh]; [| exact IH].
      destruct (Rle_dec (threshold s) v); [| reflexivity].
      destruct (Rle_dec (threshold h) (threshold s)); [lra | reflexivity].
    + destruct (Rle_dec (threshold s) v) as [Hs | Hs].
      * destruct (Rle_dec (threshold h) v) as [Hh | Hh].
        { destruct (Rle_dec (threshold h) (threshold s)); [reflexivity | lra]. }
        destruct (chosen_step v t) as [b |] eqn:Hb; [| reflexivity].
        apply chosen_step_Some in Hb as [Hb _].
        rewrite Forall_forall in Hall. specialize (Hall b Hb). simpl in Hall.
        destruct (Rle_dec (threshold b) (threshold s)); [reflexivity | lra].
      * destruct (Rle_dec (threshold h) v); [reflexivity |].
        by destruct (chosen_step v t).
Qed.

(** The step chosen from the sorted list, in terms of the list as given:
    the first listed among the qualifying steps of greatest threshold. *)
Lemma chosen_step_sorted (v : R) (steps : list Step) :
  match chosen_step v (sorted_steps steps) with
  | None => Forall (fun s => v < threshold s) steps
  | Some s =>
      ∃ pre post,
        steps = (pre ++ s :: post)%list
        ∧ threshold s <= v
        ∧ (∀ s', s' ∈ pre → threshold s' <= v → threshold s' < threshold s)
        ∧ (∀ s', s' ∈ post → threshold s' <= v → threshold s' <= threshold s)
  end.
Proof.
  induction steps as [| x l IH].
  - simpl. constructor.
  - change (sorted_steps (x :: l)) with (insert_step x (sorted_steps l)).
    rewrite chosen_step_insert by apply sorted_steps_sorted.
    destruct (chosen_step v (sorted_steps l)) as [b |].
    + destruct IH as (pre & post & -> & Hb & Hpre & Hpost).
      destruct (Rle_dec (threshold x) v) as [Hx | Hx];
        [destruct (Rle_dec (threshold b) (threshold x)) as [Hbx | Hbx] |].
      * exists [], (pre ++ b :: post)%list. split; [reflexivity |].
        split; [done |]. split; [intros s' Hs'; by apply elem_of_nil in Hs' |].
        intros s' Hs' Hs'v. apply elem_of_app in Hs' as [Hs' | Hs'].
        { specialize (Hpre s' Hs' Hs'v). lra. }
        apply elem_of_cons in Hs' as [-> | Hs']; [done |].
        specialize (Hpost s' Hs' Hs'v). lra.
      * exists (x :: pre), post. split; [reflexivity |]. split; [done |].
        split; [| done].
        intros s' Hs' Hs'v. apply elem_of_cons in Hs' as [-> | Hs']; [lra |].
        by apply Hpre.
      * exists (x :: pre), post. split; [reflexivity |]. split; [done |].
        split; [| done].
        intros s' Hs' Hs'v. apply elem_of_cons in Hs' as [-> | Hs']; [lra |].
        by apply Hpre.
    + destruct (Rle_dec (threshold x) v) as [Hx | Hx].
      * exists [], l. split; [reflexivity |]. split; [done |].
        split; [intros s' Hs'; by apply elem_of_nil in Hs' |].
        intros s' Hs' Hs'v. rewrite Forall_forall in IH.
        specialize (IH s' Hs'). simpl in IH. lra.
      * constructor; [lra | done].
Qed.

Lemma stepped_result (v : R) (steps : list Step) :
  (Forall (fun s => v < threshold s) steps
   ∧ first_step v (sorted_steps steps) = 0)
  ∨ (∃ pre s post,
       steps = (pre ++ s :: post)%list
       ∧ threshold s <= v
       ∧ (∀ s', s' ∈ pre → threshold s' <= v → threshold s' < threshold s)
       ∧ (∀ s', s' ∈ post → threshold s' <= v → threshold s' <= threshold s)
       ∧ first_step v (sorted_steps steps) = value s).
Proof.
  pose proof (chosen_step_sorted v steps) as Hc.
  rewrite first_step_chosen.
  destruct (chosen_step v (sorted_steps steps)) as [s |].
  - right. destruct Hc as (pre & post & Hc). exists pre, s, post.
    destruct Hc as (? & ? & ? & ?). done.
  - left. done.
Qed.

Lemma fmap_NoDup_inj {A B : Type} (f : A → B) (l : list A) (x y : A) :
  NoDup (f <$> l) → x ∈ l → y ∈ l → f x = f y → x = y.
Proof.
  induction l as [| a l IH]; csimpl; intros Hnd Hx Hy Hxy;
    [by apply elem_of_nil in Hx |].
  apply NoDup_cons in Hnd as [Ha Hnd].
  apply elem_of_cons in Hx as [-> | Hx]; apply elem_of_cons in Hy as [-> | Hy].
  - reflexivity.
  - exfalso. apply Ha. rewrite Hxy. by apply list_elem_of_fmap_2.
  - exfalso. apply Ha. rewrite <- Hxy. by apply list_elem_of_fmap_2.
  - by apply IH.
Qed.

(** X11.  Under a [stepped] configuration [v3_normalize] returns 0 when
    every threshold is above the input, and otherwise the value of the step
    whose threshold is the greatest among the thresholds not above the
    input, the first listed of these steps when that threshold is repeated
    (the sort is stable).  When the thresholds are pairwise distinct, the
    result does not depend on the order in which the steps are listed. *)
Theorem stepped_highest_threshold (steps : list Step) (v dflt : R) :
  (Forall (fun s => v < threshold s) steps →
   v3_normalize (Some v) (Stepped steps) dflt = Ok 0)
  ∧ (Exists (fun s => threshold s <= v) steps →
     ∃ pre s post,
       steps = (pre ++ s :: post)%list
       ∧ threshold s <= v
       ∧ (∀ s', s' ∈ pre → threshold s' <= v → threshold s' < threshold s)
       ∧ (∀ s', s' ∈ post → threshold s' <= v → threshold s' <= threshold s)
       ∧ v3_normalize (Some v) (Stepped steps) dflt = Ok (value s))
  ∧ (∀ steps',
       NoDup (threshold <$> steps) → steps' ≡ₚ steps →
       v3_normalize (Some v) (Stepped steps') dflt
       = v3_normalize (Some v) (Stepped steps) dflt).
Proof.
  unfold v3_normalize. split; [| split].
  - intros Hall. f_equal.
    destruct (stepped_result v steps) as [[_ H0] | Hex]; [done |].
    destruct Hex as (pre & s & post & -> & Hs & _).
    rewrite Forall_forall in Hall.
    specialize (Hall s ltac:(apply elem_of_app; right; left)).
    simpl in Hall. lra.
  - intros Hex.
    destruct (stepped_result v steps) as [[Hall _] | Hres].
    + apply Exists_exists in Hex as (s & Hs & Hsv).
      rewrite Forall_forall in Hall. specialize (Hall s Hs). simpl in Hall. lra.
    + destruct Hres as (pre & s & post & Heq & Hs & Hpre & Hpost & Hval).
      exists pre, s, post. by rewrite Hval.
  - intros steps' Hnd Hperm. f_equal.
    destruct (stepped_result v steps)
      as [[Hall H0] | (pre & s & post & Heq & Hs & Hpre & Hpost & Hval)];
      destruct (stepped_result v steps')
        as [[Hall' H0'] | (pre' & s' & post' & Heq' & Hs' & Hpre' & Hpost' & Hval')].
    + by rewrite H0, H0'.
    + exfalso. rewrite Forall_forall in Hall.
      assert (Hin : s' ∈ steps).
      { rewrite <- Hperm, Heq'. apply elem_of_app; right; left. }
      specialize (Hall s' Hin). simpl in Hall. lra.
    + exfalso. rewrite Forall_forall in Hall'.
      assert (Hin : s ∈ steps').
      { rewrite Hperm, Heq. apply elem_of_app; right; left. }
      specialize (Hall' s Hin). simpl in Hall'. lra.
    + assert (Hin : s ∈ steps) by (rewrite Heq; apply elem_of_app; right; left).
      assert (Hin' : s' ∈ steps).
      { rewrite <- Hperm, Heq'. apply elem_of_app; right; left. }
      assert (Hle : threshold s' <= threshold s).
      { rewrite Heq in Hin'. apply elem_of_app in Hin' as [Hin' | Hin'].
        - specialize (Hpre s' Hin' Hs'). lra.
        - apply elem_of_cons in Hin' as [-> | Hin']; [lra |].
          by apply Hpost. }
      assert (Hge : threshold s <= threshold s').
      { assert (Hin2 : s ∈ steps') by (by rewrite Hperm).
        rewrite Heq' in Hin2. apply elem_of_app in Hin2 as [Hin2 | Hin2].
        - specialize (Hpre' s Hin2 Hs). lra.
        - apply elem_of_cons in Hin2 as [-> | Hin2]; [lra |].
          by apply Hpost'. }
      rewrite Hval, Hval'. f_equal.
      apply (fmap_NoDup_inj threshold steps); [done | done | done | lra].
Qed.

Lemma stepped_highest_threshold_witness :
  (∃ pre s post,
     [mkStep 3 0.25; mkStep 10 1; mkStep 5 0.6] = (pre ++ s :: post)%list
     ∧ threshold s <= 7
     ∧ (∀ s', s' ∈ pre → threshold s' <= 7 → threshold s' < threshold s)
     ∧ (∀ s', s' ∈ post → threshold s' <= 7 → threshold s' <= threshold s)
     ∧ v3_normalize (Some 7)
         (Stepped [mkStep 3 0.25; mkStep 10 1; mkStep 5 0.6]) 0
       = Ok (value s))
  ∧ v3_normalize (Some 7)
      (Stepped [mkStep 5 0.6; mkStep 3 0.25; mkStep 10 1]) 0
    = v3_normalize (Some 7)
        (Stepped [mkStep 3 0.25; mkStep 10 1; mkStep 5 0.6]) 0
  ∧ v3_normalize (Some 2)
      (Stepped [mkStep 3 0.25; mkStep 10 1; mkStep 5 0.6]) 0
    = Ok 0.
Proof.
  pose proof (stepped_highest_threshold
                [mkStep 3 0.25; mkStep 10 1; mkStep 5 0.6] 7 0)
    as (_ & Hex & Hperm).
  split; [| split].
  - apply Hex. apply Exists_cons_hd. simpl. lra.
  - apply Hperm.
    + csimpl. repeat (apply NoDup_cons_2; [| ]).
      * rewrite !elem_of_cons, elem_of_nil. lra.
      * rewrite !elem_of_cons, elem_of_nil. lra.
      * apply not_elem_of_nil.
      * apply NoDup_nil_2.
    + apply (Permutation_cons_app [mkStep 3 0.25; mkStep 10 1] []).
      reflexivity.
  - apply (stepped_highest_threshold
             [mkStep 3 0.25; mkStep 10 1; mkStep 5 0.6] 2 0).
    repeat (apply Forall_cons_2; [simpl; lra |]). apply Forall_nil_2.
Defined.

Lemma tier_loop_skip (v : R) (all pre rest : list Tier) :
  Forall (fun t => ¬ (tier_min t <= v < tier_max t)) pre →
  tier_loop v all (pre ++ rest) = tier_loop v all rest.
Proof.
  induction 1 as [| t pre Ht _ IH]; [reflexivity |].
  simpl. destruct (Rle_dec _ _); [| done].
  destruct (Rlt_dec _ _); [| done]. exfalso. apply Ht. lra.
Qed.

(** X12.  Under a [tiered_continuous] configuration the first tier that
    contains the input decides: [v3_normalize] returns its start value plus
    the share of its slope reached within the tier, whatever tiers follow.
    When no tier contains the input, the result is the end value of the last
    tier if the input is at or past that tier's maximum, and 0 otherwise. *)
Theorem tiered_first_match (tiers : list Tier) (v dflt : R) :
  (∀ pre t post,
     tiers = (pre ++ t :: post)%list →
     Forall (fun t' => ¬ (tier_min t' <= v < tier_max t')) pre →
     tier_min t <= v < tier_max t →
     v3_normalize (Some v) (TieredContinuous tiers) dflt
     = Ok (baseValue t
           + (v - tier_min t) / (tier_max t - tier_min t) * slope t))
  ∧ (∀ t,
       last tiers = Some t →
       Forall (fun t' => ¬ (tier_min t' <= v < tier_max t')) tiers →
       v3_normalize (Some v) (TieredContinuous tiers) dflt
       = Ok (if Rle_dec (tier_max t) v then baseValue t + slope t else 0)).
Proof.
  unfold v3_normalize. split.
  - intros pre t post -> Hpre [Hlo Hhi].
    rewrite tier_loop_skip by done. by apply tier_inside.
  - intros t Hlast Hnone.
    rewrite <- (app_nil_r tiers) at 2. rewrite tier_loop_skip by done.
    simpl. unfold after_tiers. rewrite Hlast.
    destruct (Rle_dec _ _); reflexivity.
Qed.

Lemma tiered_first_match_witness :
  v3_normalize (Some 2) CITATIONS_STANDARD 0
  = Ok (0.15 + (2 - 1) / (3 - 1) * 0.30).
Proof.
  apply (proj1 (tiered_first_match _ 2 0)
           [mkTier 0 1 0.01 0.14] (mkTier 1 3 0.15 0.30)
           [mkTier 3 8 0.45 0.25; mkTier 8 20 0.70 0.20;
            mkTier 20 100 0.90 0.10]).
  - reflexivity.
  - apply Forall_cons_2; [simpl; lra | apply Forall_nil_2].
  - simpl. lra.
Defined.

Lemma tier_loop_total (v : R) (all rest : list Tier) :
  all ≠ [] → ∃ x, tier_loop v all rest = Ok x.
Proof.
  intros Hne. induction rest as [| t rest IH]; simpl.
  - unfold after_tiers. destruct (last all) as [t |] eqn:E.
    + destruct (Rle_dec _ _); by eexists.
    + by apply last_None in E.
  - destruct (Rle_dec _ _); [| done]. destruct (Rlt_dec _ _); [| done].
    rewrite truediv_Ok by lra. by eexists.
Qed.

(** X13.  [v3_normalize] raises only through its configuration: under
    [linear] exactly when the maximum is 0 ([ZeroDivisionError]); under
    [sqrt] when the maximum is negative ([ValueError]) or 0
    ([ZeroDivisionError]); under [log], for a positive input only, when the
    maximum is at most -1 ([ValueError]) or 0 ([ZeroDivisionError]), a
    non-positive input giving 0 whatever the maximum; under
    [tiered_continuous] exactly when the tier list is empty ([IndexError]).
    [stepped] and [score5] always return. *)
Theorem v3_normalize_raises (val : option R) (dflt : R) :
  let v := default dflt val in
  (∀ max,
     (default 1 max = 0 →
      v3_normalize val (Linear max) dflt = Raise ZeroDivisionError)
     ∧ (default 1 max ≠ 0 → ∃ x, v3_normalize val (Linear max) dflt = Ok x))
  ∧ (∀ max,
       (default 1 max < 0 →
        v3_normalize val (Sqrt max) dflt = Raise ValueError)
       ∧ (default 1 max = 0 →
          v3_normalize val (Sqrt max) dflt = Raise ZeroDivisionError)
       ∧ (0 < default 1 max → ∃ x, v3_normalize val (Sqrt max) dflt = Ok x))
  ∧ (∀ max,
       (v <= 0 → v3_normalize val (Log max) dflt = Ok 0)
       ∧ (0 < v → default 100 max + 1 <= 0 →
          v3_normalize val (Log max) dflt = Raise ValueError)
       ∧ (0 < v → default 100 max = 0 →
          v3_normalize val (Log max) dflt = Raise ZeroDivisionError)
       ∧ (0 < v → 0 < default 100 max + 1 → default 100 max ≠ 0 →
          ∃ x, v3_normalize val (Log max) dflt = Ok x))
  ∧ (∀ steps, ∃ x, v3_normalize val (Stepped steps) dflt = Ok x)
  ∧ v3_normalize val (TieredContinuous []) dflt = Raise IndexError
  ∧ (∀ tiers, tiers ≠ [] →
       ∃ x, v3_normalize val (TieredContinuous tiers) dflt = Ok x)
  ∧ (∃ x, v3_normalize val Score5 dflt = Ok x).
Proof.
  intros v. unfold v3_normalize.
  replace (match val with Some x => x | None => dflt end) with v
    by (by destruct val).
  split; [| split; [| split; [| split; [| split; [| split]]]]].
  - intros max. unfold truediv. split; intros Hm;
      destruct (Req_dec_T _ _); try done. by eexists.
  - intros max. rewrite (math_sqrt_Ok (Rmax 0 v)) by apply Rmax_l.
    rewrite bind_Ok. unfold math_sqrt. repeat split; intros Hm.
    + destruct (Rlt_dec _ _); [reflexivity | lra].
    + destruct (Rlt_dec _ _); [lra |]. rewrite bind_Ok, Hm, sqrt_0.
      unfold truediv. destruct (Req_dec_T _ _); done.
    + destruct (Rlt_dec _ _); [lra |].
      rewrite bind_Ok, truediv_Ok by (by apply sqrt_pos_ne). by eexists.
  - intros max. repeat split.
    + intros Hv. destruct (Rle_dec v 0); [reflexivity | lra].
    + intros Hv Hm. destruct (Rle_dec v 0); [lra |].
      rewrite (math_log_Ok (v + 1)), bind_Ok by lra.
      unfold math_log. destruct (Rle_dec _ _); [reflexivity | lra].
    + intros Hv Hm. destruct (Rle_dec v 0); [lra |].
      rewrite (math_log_Ok (v + 1)), bind_Ok by lra.
      rewrite Hm, Rplus_0_l, math_log_Ok, bind_Ok, ln_1 by lra.
      unfold truediv. destruct (Req_dec_T _ _); done.
    + intros Hv Hm1 Hm0. destruct (Rle_dec v 0); [lra |].
      rewrite (math_log_Ok (v + 1)), bind_Ok by lra.
      rewrite math_log_Ok, bind_Ok by lra.
      rewrite truediv_Ok; [by eexists |].
      intros Hln. apply Hm0.
      assert (default 100 max + 1 = 1); [| lra].
      apply ln_inv; [lra | lra |]. by rewrite ln_1.
  - intros steps. by eexists.
  - reflexivity.
  - intros tiers Hne. by apply tier_loop_total.
  - by eexists.
Qed.

Lemma v3_normalize_raises_witness :
  v3_normalize (Some 3) (Linear (Some 0)) 0 = Raise ZeroDivisionError
  ∧ v3_normalize (Some 3) (Sqrt (Some (-4))) 0 = Raise ValueError
  ∧ v3_normalize None (Log (Some 0)) 2 = Raise ZeroDivisionError
  ∧ (∃ x, v3_normalize (Some 3) CITATIONS_STANDARD 0 = Ok x).
Proof.
  pose proof (v3_normalize_raises (Some 3) 0) as (Hlin & Hsqrt & _ & _ & _ & Ht & _).
  pose proof (v3_normalize_raises None 2) as (_ & _ & Hlog & _).
  split; [apply Hlin; reflexivity |].
  split; [apply Hsqrt; simpl; lra |].
  split; [apply Hlog; simpl; [lra | reflexivity] |].
  apply Ht. discriminate.
Defined.

(** X14.  [v3_normalize] is non-decreasing in its input under every
    monotone configuration: [linear], [sqrt] and [log] with a positive
    maximum, [score5], [stepped] whose step values descend with the
    thresholds, and [tiered_continuous] whose tiers follow one another, each
    rising and starting no lower than the one before it ends. *)
Theorem v3_normalize_monotone (config : NormalizationSpec) (dflt v1 v2 : R) :
  monotone_spec config → v1 <= v2 →
  ∃ x1 x2, v3_normalize (Some v1) config dflt = Ok x1
           ∧ v3_normalize (Some v2) config dflt = Ok x2
           ∧ x1 <= x2.
Proof. apply v3_normalize_mono. Qed.

Lemma v3_normalize_monotone_witness :
  ∃ x1 x2, v3_normalize (Some 4) YEARS_LITIGATION 0 = Ok x1
           ∧ v3_normalize (Some 8) YEARS_LITIGATION 0 = Ok x2
           ∧ x1 <= x2.
Proof.
  apply v3_normalize_monotone; [| lra].
  unfold YEARS_LITIGATION. cbn.
  repeat first [ apply Forall_nil_2 | apply Forall_cons_2 | split ];
    simpl; lra.
Defined.

(** ** More on the ranking statistics *)

Lemma take_take_le {A : Type} (l : list A) (k1 k2 : nat) :
  (k1 <= k2)%nat → take k1 l = take k1 (take k2 l).
Proof. intros Hk. rewrite take_take. f_equal. lia. Qed.

(** X15.  [overlap_at_cutoff] does not depend on which ranking is given
    first, nor on the order of the ids inside each top-[k] slice; its count
    grows (weakly) with the cutoff and never exceeds the length of either
    list. *)
Theorem overlap_at_cutoff_symmetric (A B : list string) (k : nat) :
  overlap_at_cutoff A B k = overlap_at_cutoff B A k
  ∧ (∀ A' B', take k A ≡ₚ take k A' → take k B ≡ₚ take k B' →
       overlap_at_cutoff A B k = overlap_at_cutoff A' B' k)
  ∧ (∀ k', (k <= k')%nat →
       ((overlap_at_cutoff A B k).1 <= (overlap_at_cutoff A B k').1)%nat)
  ∧ ((overlap_at_cutoff A B k).1 <= length A)%nat
  ∧ ((overlap_at_cutoff A B k).1 <= length B)%nat.
Proof.
  unfold overlap_at_cutoff. cbn [fst].
  split; [| split; [| split; [| split]]].
  - f_equal. f_equal. apply intersection_comm_L.
  - intros A' B' HA HB. do 2 f_equal.
    assert (EA : (list_to_set (take k A) : gset string)
                 = list_to_set (take k A'))
      by (apply set_eq; intros x; rewrite !elem_of_list_to_set; by rewrite HA).
    assert (EB : (list_to_set (take k B) : gset string)
                 = list_to_set (take k B'))
      by (apply set_eq; intros x; rewrite !elem_of_list_to_set; by rewrite HB).
    by rewrite EA, EB.
  - intros k' Hk. apply subseteq_size.
    intros x. rewrite !elem_of_intersection, !elem_of_list_to_set.
    rewrite (take_take_le A k k'), (take_take_le B k k') by done.
    intros [HxA HxB]. split; by eapply subseteq_take.
  - etrans; [apply subseteq_size, intersection_subseteq_l |].
    etrans; [apply size_list_to_set_le |]. rewrite length_take. lia.
  - etrans; [apply subseteq_size, intersection_subseteq_r |].
    etrans; [apply size_list_to_set_le |]. rewrite length_take. lia.
Qed.

Lemma overlap_at_cutoff_symmetric_witness :
  overlap_at_cutoff ["US1"; "US2"; "US3"] ["US2"; "US9"; "US1"] 2
  = overlap_at_cutoff ["US2"; "US1"; "US7"] ["US9"; "US2"; "US4"] 2
  ∧ ((overlap_at_cutoff ["US1"; "US2"; "US3"] ["US2"; "US9"; "US1"] 2).1
     <= (overlap_at_cutoff ["US1"; "US2"; "US3"] ["US2"; "US9"; "US1"] 3).1)%nat.
Proof.
  pose proof (overlap_at_cutoff_symmetric ["US1"; "US2"; "US3"]
                ["US2"; "US9"; "US1"] 2) as (_ & Hperm & Hmono & _).
  split.
  - apply Hperm; simpl; apply perm_swap.
  - apply Hmono. lia.
Defined.

Lemma d_sq_nonneg (a b : list Z) :
  (0 <= sum_Z ((fun ab : Z * Z => (ab.1 - ab.2) ^ 2) <$> zip a b))%Z.
Proof.
  unfold sum_Z. generalize (zip a b). intros l.
  induction l as [| [x y] l IH]; csimpl; [lia |]. simpl. nia.
Qed.

Lemma d_sq_zero (a b : list Z) :
  length a = length b →
  sum_Z ((fun ab : Z * Z => (ab.1 - ab.2) ^ 2)%Z <$> zip a b) = 0%Z ↔ a = b.
Proof.
  revert b. induction a as [| x a IH]; intros [| y b] Hlen; try done.
  injection Hlen as Hlen. csimpl. unfold sum_Z in *. simpl.
  pose proof (d_sq_nonneg a b) as Hnn. unfold sum_Z in Hnn.
  specialize (IH b Hlen). split.
  - intros Hs. assert (x = y) by nia. subst y.
    f_equal. apply IH. nia.
  - intros [= -> ->]. apply proj2 in IH. specialize (IH eq_refl). nia.
Qed.

Lemma d_sq_sym (a b : list Z) :
  sum_Z ((fun ab : Z * Z => (ab.1 - ab.2) ^ 2)%Z <$> zip a b)
  = sum_Z ((fun ab : Z * Z => (ab.1 - ab.2) ^ 2)%Z <$> zip b a).
Proof.
  revert b. induction a as [| x a IH]; intros [| y b]; try reflexivity.
  csimpl. unfold sum_Z in *. simpl. rewrite (IH b). f_equal. ring.
Qed.

Lemma one_minus_ratio (d D : Z) :
  (0 <= d)%Z → (0 < D)%Z →
  Qle (1 - inject_Z d / inject_Z D) 1
  ∧ (Qeq (1 - inject_Z d / inject_Z D) 1 ↔ d = 0%Z).
Proof.
  intros Hd HD. destruct D as [| p | p]; try lia.
  rewrite <- Qmake_Qdiv.
  unfold Qle, Qeq, Qminus, Qplus, Qopp. simpl. split; [nia |].
  split; intros H; nia.
Qed.

(** X16.  [spearman] never exceeds 1.  For two vectors of the same length of
    at least 2 it does not depend on their order, and it equals 1 only when
    the two vectors are identical.  Entries of the second vector beyond the
    length of the first are ignored. *)
Theorem spearman_upper_bound (ranks_a ranks_b : list Z) :
  Qle (spearman ranks_a ranks_b) 1
  ∧ (length ranks_a = length ranks_b →
     Qeq (spearman ranks_a ranks_b) (spearman ranks_b ranks_a))
  ∧ (length ranks_a = length ranks_b → (2 <= length ranks_a)%nat →
     (Qeq (spearman ranks_a ranks_b) 1 ↔ ranks_a = ranks_b))
  ∧ (∀ extra, (length ranks_a <= length ranks_b)%nat →
       spearman ranks_a (ranks_b ++ extra) = spearman ranks_a ranks_b).
Proof.
  split; [| split; [| split]].
  - unfold spearman.
    destruct (Z.ltb_spec (Z.of_nat (length ranks_a)) 2) as [| Hn]; [done |].
    apply one_minus_ratio.
    + pose proof (d_sq_nonneg ranks_a ranks_b). lia.
    + apply spearman_divisor_pos. lia.
  - intros Hlen. unfold spearman. rewrite <- Hlen, (d_sq_sym ranks_b ranks_a).
    reflexivity.
  - intros Hlen Hn. unfold spearman.
    destruct (Z.ltb_spec (Z.of_nat (length ranks_a)) 2) as [| _]; [lia |].
    rewrite <- (d_sq_zero ranks_a ranks_b Hlen).
    pose proof (d_sq_nonneg ranks_a ranks_b) as Hnn.
    destruct (one_minus_ratio
                (6 * sum_Z ((fun ab : Z * Z => (ab.1 - ab.2) ^ 2)%Z
                              <$> zip ranks_a ranks_b))
                (Z.of_nat (length ranks_a)
                 * (Z.of_nat (length ranks_a) ^ 2 - 1)))
      as [_ Hiff]; [lia | apply spearman_divisor_pos; lia |].
    rewrite Hiff. lia.
  - intros extra Hlen. unfold spearman.
    replace (zip ranks_a (ranks_b ++ extra)) with (zip ranks_a ranks_b);
      [reflexivity |].
    clear -Hlen. revert ranks_b Hlen.
    induction ranks_a as [| x a IH]; intros [| y b] Hlen; simpl in *;
      try reflexivity; try lia.
    f_equal. apply IH. lia.
Qed.

Lemma spearman_upper_bound_witness :
  Qeq (spearman [1; 2; 3]%Z [2; 3; 1]%Z) (spearman [2; 3; 1]%Z [1; 2; 3]%Z)
  ∧ spearman [1; 2]%Z ([2; 1]%Z ++ [5; 6]%Z)%list
    = spearman [1; 2]%Z [2; 1]%Z.
Proof.
  split.
  - apply spearman_upper_bound. reflexivity.
  - apply spearman_upper_bound. simpl. lia.
Defined.

(** ** Score distributions *)

Import Report.

Lemma sorted_take (l : list R) (n : nat) :
  StronglySorted Rge l → StronglySorted Rge (take n l).
Proof.
  intros Hs. revert n. induction Hs as [| x l Hs IH Hall]; intros [| n]; simpl;
    try constructor.
  - apply IH.
  - apply Forall_forall. intros y Hy. rewrite Forall_forall in Hall.
    apply Hall. by eapply subseteq_take.
Qed.

Lemma sorted_lookup_ge (l : list R) (i j : nat) (x y : R) :
  StronglySorted Rge l → (i <= j)%nat →
  l !! i = Some x → l !! j = Some y → y <= x.
Proof.
  intros Hs. revert i j. induction Hs as [| h t Hs IH Hall]; intros i j Hij Hi Hj.
  - done.
  - destruct i as [| i], j as [| j]; simpl in *; try lia.
    + injection Hi as <-. injection Hj as <-. lra.
    + injection Hi as <-. rewrite Forall_forall in Hall.
      apply Rge_le, Hall. by eapply list_elem_of_lookup_2.
    + eapply IH; [| done | done]. lia.
Qed.

Lemma sum_R_between (l : list R) (lo hi : R) :
  Forall (fun x => lo <= x <= hi) l →
  lo * INR (length l) <= sum_R l <= hi * INR (length l).
Proof.
  unfold sum_R. induction 1 as [| x l Hx _ IH].
  - simpl. lra.
  - cbn [length foldr]. rewrite S_INR. lra.
Qed.

(** X17.  [print_distribution] prints nothing exactly when the slice
    [scores[:n]] is empty.  Otherwise the slice shown has
    [min(n, len(scores))] entries, "P10" is printed exactly when it has at
    least 50 and "P50" exactly when it has at least 250; and for scores
    listed in descending order, as every caller passes them,
    [Max >= P10 >= P50 >= Min] and [Min <= Avg <= Max]. *)
Theorem print_distribution_ordered (scores : list R) (n : nat) :
  (print_distribution scores n = None ↔ scores = [] ∨ n = 0%nat)
  ∧ (∀ d, print_distribution scores n = Some d →
       shown d = Nat.min n (length scores)
       ∧ (is_Some (d_p10 d) ↔ (50 <= shown d)%nat)
       ∧ (is_Some (d_p50 d) ↔ (250 <= shown d)%nat)
       ∧ (StronglySorted Rge scores →
          d_min d <= d_avg d <= d_max d
          ∧ (∀ p, d_p10 d = Some p → d_min d <= p <= d_max d)
          ∧ (∀ q, d_p50 d = Some q → d_min d <= q <= d_max d)
          ∧ (∀ p q, d_p10 d = Some p → d_p50 d = Some q → q <= p))).
Proof.
  unfold print_distribution. split.
  - destruct scores as [| x l], n as [| n]; simpl; split; try tauto; try done.
    intros [| ]; done.
  - intros d. remember (take n scores) as top eqn:Etop.
    assert (Hlen : length top = Nat.min n (length scores))
      by (subst top; apply length_take).
    assert (Hsorted : StronglySorted Rge scores → StronglySorted Rge top)
      by (intros Hs; subst top; by apply sorted_take).
    clear Etop. destruct top as [| first rest]; [done |].
    set (top := first :: rest) in *.
    intros Hd. apply (inj Some) in Hd. subst d.
    cbn [shown d_max d_p10 d_p50 d_min d_avg].
    split; [rewrite Hlen; lia |].
    split; [case_decide; [rewrite lookup_lt_is_Some | rewrite is_Some_alt]; lia |].
    split; [case_decide; [rewrite lookup_lt_is_Some | rewrite is_Some_alt]; lia |].
    intros Hs. specialize (Hsorted Hs).
    assert (H0 : top !! 0%nat = Some first) by reflexivity.
    destruct (last top) as [z |] eqn:Elast; [| by apply last_None in Elast].
    rewrite last_lookup in Elast. cbn [default from_option]. cbv [Datatypes.id].
    assert (Hall : Forall (fun x => z <= x <= first) top).
    { apply Forall_forall. intros x Hx.
      apply list_elem_of_lookup in Hx as [i Hi].
      pose proof (lookup_lt_Some _ _ _ Hi). split.
      - eapply (sorted_lookup_ge top i); [done | | done | done]. lia.
      - eapply (sorted_lookup_ge top 0 i); [done | lia | done | done]. }
    assert (Hpos : 0 < INR (length top)) by (apply lt_0_INR; simpl; lia).
    split.
    { pose proof (sum_R_between top z first Hall) as [Hlo Hhi]. split.
      - apply (Rmult_le_reg_r (INR (length top))); [done |].
        unfold Rdiv. rewrite Rmult_assoc, Rinv_l by lra. lra.
      - apply (Rmult_le_reg_r (INR (length top))); [done |].
        unfold Rdiv. rewrite Rmult_assoc, Rinv_l by lra. lra. }
    rewrite Forall_forall in Hall.
    split; [| split].
    + intros p. case_decide; [| done]. intros Hp.
      apply Hall. by eapply list_elem_of_lookup_2.
    + intros q. case_decide; [| done]. intros Hq.
      apply Hall. by eapply list_elem_of_lookup_2.
    + intros p q. repeat case_decide; try done. intros Hp Hq.
      eapply (sorted_lookup_ge top 49 249); [done | lia | done | done].
Qed.

Lemma print_distribution_ordered_witness :
  ∃ d, print_distribution [9; 7; 7; 2] 3 = Some d
       ∧ d_min d <= d_avg d <= d_max d.
Proof.
  destruct (print_distribution_ordered [9; 7; 7; 2] 3) as [_ Hd].
  eexists. split; [reflexivity |].
  destruct (Hd _ eq_refl) as (_ & _ & _ & Hsorted).
  destruct Hsorted as [Havg _]; [| exact Havg].
  repeat first [ apply SSorted_nil | apply Forall_nil_2 | apply SSorted_cons
               | apply Forall_cons_2 | lra ].
Defined.

(** ** Retention percentages *)

Import Retention.

Lemma overlap_count_le (A B : list string) (k : nat) :
  ((overlap_at_cutoff A B k).1 <= k)%nat.
Proof.
  unfold overlap_at_cutoff. simpl.
  etrans; [apply subseteq_size, intersection_subseteq_l |].
  etrans; [apply size_list_to_set_le |].
  rewrite length_take. lia.
Qed.

Lemma overlap_self (A : list string) (k : nat) :
  NoDup A → (k <= length A)%nat → (overlap_at_cutoff A A k).1 = k.
Proof.
  intros Hnd Hk. unfold overlap_at_cutoff. simpl.
  rewrite intersection_idemp_L, size_list_to_set.
  - by apply length_take_le.
  - eapply sublist_NoDup; [exact Hnd | apply sublist_take].
Qed.

(** X18.  The retention line that [main] prints for two rankings and a
    cutoff never shows more than 100%: the overlap count is at most the
    number of entries compared, the percentage lies in [0, 100], it is 0 when
    the first ranking is empty, and it is 100 when a ranking without repeated
    ids is compared with itself. *)
Theorem retention_percentage (list_a list_b : list string) (cutoff : nat) :
  let '(n_overlap, actual, pct) := retention list_a list_b cutoff in
  (n_overlap <= actual)%nat
  ∧ (actual <= cutoff)%nat
  ∧ 0 <= pct <= 100
  ∧ (list_a = [] → pct = 0)
  ∧ (list_b = list_a → NoDup list_a → (0 < cutoff)%nat → list_a ≠ [] →
     pct = 100).
Proof.
  unfold retention. cbn zeta.
  set (actual := Nat.min cutoff (length list_a)).
  pose proof (overlap_count_le list_a list_b actual) as Hle.
  set (n_overlap := (overlap_at_cutoff list_a list_b actual).1) in *.
  split; [done |]. split; [lia |].
  case_decide as Hpos.
  - assert (0 < INR actual) by (by apply lt_0_INR).
    assert (0 <= INR n_overlap <= INR actual)
      by (split; [apply pos_INR | by apply le_INR]).
    split; [| split].
    + split.
      * apply Rmult_le_pos; [apply Rdiv_nonneg |]; lra.
      * assert (INR n_overlap / INR actual <= 1); [| lra].
        apply (Rmult_le_reg_r (INR actual)); [done |].
        unfold Rdiv. rewrite Rmult_assoc, Rinv_l by lra. lra.
    + intros ->. simpl in actual. lia.
    + intros -> Hnd _ _.
      assert (n_overlap = actual).
      { unfold n_overlap. apply overlap_self; [done | lia]. }
      subst n_overlap. rewrite H1. unfold Rdiv.
      rewrite Rinv_r by lra. lra.
  - split; [lra |]. split; [done |].
    intros _ _ Hc Hne. destruct list_a; [done |]. simpl in actual. lia.
Qed.

Lemma retention_percentage_witness :
  (retention ["US1"; "US2"; "US3"] ["US1"; "US2"; "US3"] 25).2 = 100.
Proof.
  pose proof (retention_percentage ["US1"; "US2"; "US3"]
                ["US1"; "US2"; "US3"] 25) as H.
  destruct (retention ["US1"; "US2"; "US3"] ["US1"; "US2"; "US3"] 25)
    as [[n_overlap actual] pct].
  destruct H as (_ & _ & _ & _ & H100). simpl. apply H100.
  - reflexivity.
  - apply (bool_decide_unpack (NoDup ["US1"; "US2"; "US3"])). exact I.
  - lia.
  - discriminate.
Defined.

(** ** Monotonicity of the additive base score *)

Lemma sqrt_norm_mono (v1 v2 m : R) :
  0 < m → v1 <= v2 → sqrt_norm v1 m <= sqrt_norm v2 m.
Proof.
  intros Hm H12. unfold sqrt_norm.
  destruct (Rle_dec v1 0), (Rle_dec v2 0); try lra.
  - apply Rmin_1_unit, Rdiv_nonneg; [apply sqrt_pos | by apply sqrt_lt_R0].
  - apply Rmin_1_mono, Rdiv_mono; [by apply sqrt_lt_R0 |].
    by apply sqrt_le_1_alt.
Qed.

Lemma v2_normalize_years_mono (y1 y2 : R) :
  y1 <= y2 → v2_normalize_years (Some y1) <= v2_normalize_years (Some y2).
Proof.
  intros H12.
  pose proof (v2_normalize_years_unit (Some y1)) as [H1lo H1hi].
  pose proof (v2_normalize_years_unit (Some y2)) as [H2lo H2hi].
  unfold v2_normalize_years in *.
  destruct (Rle_dec y1 0), (Rle_dec y2 0); try lra.
  destruct (Rle_dec 15 y1), (Rle_dec 15 y2); try lra.
  apply float_pow_mono; lra.
Qed.

Lemma raw_of_mono (p1 p2 : gmap string R) (cap_cc : option R) (f : string) :
  inputs_le p2 p1 → raw_of p2 cap_cc f <= raw_of p1 cap_cc f.
Proof.
  intros Hle. unfold raw_of.
  assert (Hd : default 0 (p2 !! f) <= default 0 (p1 !! f)).
  { destruct (Hle f); simpl; lra. }
  case_decide; [| done]. destruct cap_cc as [cap |]; [| done].
  unfold Rmin. repeat destruct (Rle_dec _ _); lra.
Qed.

Lemma normalized_mono (f : string) (r1 r2 : R) :
  r2 <= r1 → normalized f r2 <= normalized f r1.
Proof.
  intros H. unfold normalized. repeat case_decide.
  - apply sqrt_norm_mono; lra.
  - apply Rmin_1_mono, Rdiv_mono; lra.
  - apply sqrt_norm_mono; lra.
  - by apply v2_normalize_years_mono.
Qed.

Lemma optional_contributions_mono (p1 p2 weights : gmap string R)
    (fields : list string) :
  inputs_le p2 p1 →
  (∀ f, 0 <= Additive.weight_of weights f) →
  let cs p :=
    omap (fun f => raw ← p !! f; Some (Additive.weight_of weights f, raw / 5))
         fields in
  contributed_weight (cs p2) = contributed_weight (cs p1)
  ∧ contributed_score (cs p2) <= contributed_score (cs p1).
Proof.
  intros Hle Hw cs. unfold cs, contributed_weight, contributed_score.
  induction fields as [| f fields [IHw IHs]]; csimpl; [split; [done | lra] |].
  destruct (Hle f) as [r2 r1 Hr |]; csimpl.
  - pose proof (Hw f). split; [lra |]. nra.
  - done.
Qed.

(** X19.  With non-negative weights, [v2_base_score] does not increase when
    inputs decrease: for two metric sets in which the same metrics are
    present, each no greater in the second than in the first, the base score
    of the second is no greater than that of the first. *)
Theorem v2_base_score_monotone (p1 p2 weights : gmap string R)
    (cap_cc : option R) :
  (∀ f w, weights !! f = Some w → 0 <= w) →
  inputs_le p2 p1 →
  ∃ s1 s2, v2_base_score p1 weights cap_cc = Ok s1
           ∧ v2_base_score p2 weights cap_cc = Ok s2
           ∧ s2 <= s1.
Proof.
  intros Hw Hle. rewrite !v2_base_score_evaluate.
  do 2 eexists. split; [reflexivity |]. split; [reflexivity |].
  assert (Hwf : ∀ f, 0 <= Additive.weight_of weights f).
  { intros f. unfold Additive.weight_of.
    destruct (weights !! f) as [w |] eqn:E; simpl; [by eapply Hw | lra]. }
  unfold evaluate_additive, contributions.
  rewrite !contributed_score_app, !contributed_weight_app.
  destruct (optional_contributions_mono p1 p2 weights V2_OPTIONAL_FIELDS
              Hle Hwf) as [HWo HSo].
  fold (optional_contributions p1 weights) in HWo, HSo.
  fold (optional_contributions p2 weights) in HWo, HSo.
  assert (HWa : contributed_weight (always_present_contributions p2 weights cap_cc)
                = contributed_weight (always_present_contributions p1 weights cap_cc))
    by reflexivity.
  assert (HSa : contributed_score (always_present_contributions p2 weights cap_cc)
                <= contributed_score (always_present_contributions p1 weights cap_cc)).
  { unfold contributed_score, always_present_contributions, V2_ALWAYS_PRESENT.
    csimpl.
    pose proof (fun f => Rmult_le_compat_l _ _ _ (Hwf f)
                  (normalized_mono f _ _ (raw_of_mono p1 p2 cap_cc f Hle))) as Hf.
    pose proof (Hf "competitor_citations"). pose proof (Hf "competitor_count").
    pose proof (Hf "forward_citations"). pose proof (Hf "years_remaining").
    lra. }
  rewrite HWa, HWo.
  destruct (Rlt_dec 0 _) as [Hpos |]; [| lra].
  apply Rdiv_mono; [done |]. lra.
Qed.

Lemma v2_base_score_monotone_witness :
  ∃ s1 s2,
    v2_base_score {[ "forward_citations" := 90 ]}
      {[ "forward_citations" := 0.05 ]} None = Ok s1
    ∧ v2_base_score {[ "forward_citations" := 10 ]}
        {[ "forward_citations" := 0.05 ]} None = Ok s2
    ∧ s2 <= s1.
Proof.
  apply v2_base_score_monotone.
  - intros f w Hf. apply lookup_singleton_Some in Hf as [_ <-]. lra.
  - intros k. destruct (decide (k = "forward_citations")) as [-> | Hne].
    + rewrite !lookup_singleton_eq. constructor. lra.
    + rewrite !lookup_singleton_ne by done. constructor.
Defined.
